(** * SGNS: vocabulary, sampling table, context generator, model, trainer

    A shallow embedding of [sgns_implementation.py], the properties of it
    that the specification states (Part II) and further properties of the
    code (Part III).

    Conventions of the embedding.
    - Python [int] is [Z]; a Python [str] is a [string] of ASCII characters
      (the whitespace set of [str.split] and the case folding of [str.lower]
      are the ASCII ones).
    - Python [float] is idealised as a real number [R]: [np.sqrt] is [sqrt],
      [freq ** ns_exp] is [Rpower], [round] is rounding to the nearest
      integer with ties to even.  The concrete evaluations below use values
      on which the floating-point operations are exact, or use of a value
      its sign only.
    - A text file is the string Python reads from it; [readlines] cuts it
      into lines, each keeping its newline, as iterating over the file does.
    - Random draws ([np.random.randint], [np.random.random]) are read from
      explicit oracles indexed by the number of the call; the tensor
      [torch.randint] returns is an argument of the function that draws it.
    - A tensor of one dimension is a list, a tensor of two a list of rows;
      the arithmetic on the entries of the embeddings ([nn.CosineSimilarity],
      [topk], the products of [bmm]) is a parameter.
    - An exception is a [None], or the [Raised] outcome of the generator. *)

From Stdlib Require Import ZArith Reals Lra Lia Ascii String DecimalString DecimalZ.
From stdpp Require Import gmap strings list fin_maps sorting.

(* ===================================================================== *)
(** * Part I: the embedding *)
(* ===================================================================== *)

(** ** Strings *)

(** The ASCII characters [str.split()] treats as whitespace:
    [\t \n \v \f \r], [\x1c .. \x1f] and the space. *)
Definition is_space (c : ascii) : bool :=
  let n := N_of_ascii c in
  ((9 <=? n)%N && (n <=? 13)%N) || ((28 <=? n)%N && (n <=? 32)%N).

Definition newline : ascii := ascii_of_N 10.

Fixpoint has_space (s : string) : bool :=
  match s with
  | EmptyString => false
  | String c s' => is_space c || has_space s'
  end.

Definition lower_char (c : ascii) : ascii :=
  let n := N_of_ascii c in
  if ((65 <=? n)%N && (n <=? 90)%N) then ascii_of_N (n + 32) else c.

(** [str.lower()] *)
Fixpoint lower (s : string) : string :=
  match s with
  | EmptyString => EmptyString
  | String c s' => String (lower_char c) (lower s')
  end.

Definition emit (cur : string) (l : list string) : list string :=
  match cur with
  | EmptyString => l
  | _ => cur :: l
  end.

Fixpoint split_go (cur : string) (s : string) : list string :=
  match s with
  | EmptyString => emit cur []
  | String c s' =>
      if is_space c then emit cur (split_go "" s')
      else split_go (cur +:+ String c "") s'
  end.

(** [str.split()] with no separator: the maximal runs of non-whitespace. *)
Definition split (s : string) : list string := split_go "" s.

Fixpoint readlines_go (cur : string) (s : string) : list string :=
  match s with
  | EmptyString => emit cur []
  | String c s' =>
      if Ascii.eqb c newline then (cur +:+ String c "") :: readlines_go "" s'
      else readlines_go (cur +:+ String c "") s'
  end.

(** [for line in f]: the lines of a text file, newline included. *)
Definition readlines (file : string) : list string := readlines_go "" file.

(** ** Lists and integers, the Python way *)

(** The bound of a slice: a negative one counts from the end. *)
Definition slice_bound {A} (k : Z) (l : list A) : nat :=
  Z.to_nat (if (k <? 0)%Z then Z.max 0 (Z.of_nat (length l) + k) else k).

(** [l[k:]] *)
Definition slice_from {A} (k : Z) (l : list A) : list A := drop (slice_bound k l) l.

(** [l[:k]] *)
Definition slice_to {A} (k : Z) (l : list A) : list A := take (slice_bound k l) l.

(** [l[i]], an [IndexError] being [None] *)
Definition getitem {A} (l : list A) (i : Z) : option A :=
  if (i <? 0)%Z then
    (if (Z.of_nat (length l) + i <? 0)%Z then None
     else l !! Z.to_nat (Z.of_nat (length l) + i))
  else l !! Z.to_nat i.

(** [sum(...)] over integers *)
Definition sumZ (l : list Z) : Z := foldr Z.add 0%Z l.

(** [range(a, b)] *)
Definition range (a b : Z) : list Z := seqZ a (b - a).

(** ** Configuration *)

Record params := {
  voc_size : Z;
  ns_table_size : Z;
  unk_str : string;
  lowercase : bool;
  ns_exp : R;
  batch_size : Z;
  ctx_width : Z;
  prune_threshold : R
}.

(** ** [make_ns_table]: the frequency table *)

(** [Counter]: an association list in insertion order. *)
Fixpoint counter_incr (w : string) (freqs : list (string * Z)) : list (string * Z) :=
  match freqs with
  | [] => [(w, 1%Z)]
  | (w', n) :: rest =>
      if decide (w = w') then (w', (n + 1)%Z) :: rest
      else (w', n) :: counter_incr w rest
  end.

(** [freqs.update(tokens)] *)
Definition counter_update (freqs : list (string * Z)) (tokens : list string)
  : list (string * Z) :=
  foldl (fun f w => counter_incr w f) freqs tokens.

(** The tokens of one line, as both passes over the corpus cut them. *)
Definition tokens_of_line (p : params) (line : string) : list string :=
  split (if lowercase p then lower line else line).

(** The first loop of [make_ns_table]. *)
Definition corpus_freqs (p : params) (corpus : string) : list (string * Z) :=
  foldl (fun freqs line => counter_update freqs (tokens_of_line p line))
        [] (readlines corpus).

(** The sort key is [(p[1], p[0])], compared as Python compares tuples:
    [key_lt a b] when the key of [a] is below the key of [b]. *)
Definition key_lt (a b : string * Z) : bool :=
  (a.2 <? b.2)%Z || ((a.2 =? b.2)%Z && String.ltb a.1 b.1).

Fixpoint insert_desc (x : string * Z) (l : list (string * Z)) : list (string * Z) :=
  match l with
  | [] => [x]
  | y :: l' => if key_lt x y then y :: insert_desc x l' else x :: l
  end.

(** [sorted(items, key=..., reverse=True)]: a stable sort, largest key
    first. *)
Definition sorted_desc (l : list (string * Z)) : list (string * Z) :=
  foldr insert_desc [] l.

(** Lines 53 to 62 of [make_ns_table]: the sentinel, then the retained
    words. *)
Definition freq_table_of (p : params) (freqs : list (string * Z)) : list (string * Z) :=
  let freqs_sorted := sorted_desc freqs in
  let sum_freq_pruned :=
    if (Z.of_nat (length freqs_sorted) >? voc_size p - 1)%Z
    then sumZ (snd <$> slice_from (voc_size p - 1) freqs_sorted)
    else 1%Z in
  (unk_str p, sum_freq_pruned) :: slice_to (voc_size p - 1) freqs_sorted.

Definition freq_table (p : params) (corpus : string) : list (string * Z) :=
  freq_table_of p (corpus_freqs p corpus).

(** *** Words of the specification, for the frequency table *)

(** All tokens of the corpus, in order. *)
Definition corpus_tokens (p : params) (corpus : string) : list string :=
  concat (tokens_of_line p <$> readlines corpus).

(** The number of distinct words of the corpus. *)
Definition distinct_words (p : params) (corpus : string) : nat :=
  size (list_to_set (corpus_tokens p corpus) : gset string).

(** The raw frequency of a word: how often it occurs in the corpus. *)
Definition raw_freq (tokens : list string) (w : string) : Z :=
  Z.of_nat (length (filter (fun t => t = w) tokens)).

(** The words the size cap leaves out: words of the corpus that are not
    among the entries after the sentinel. *)
Definition excluded_words (p : params) (corpus : string) : list string :=
  filter (fun w => w ∉ (tail (freq_table p corpus)).*1)
         (remove_dups (corpus_tokens p corpus)).

(** The order the sort realises: [ranks_before a b] when [a] has the
    larger key, that is the higher frequency or, at equal frequency, the
    greater word. *)
Definition ranks_before (a b : string * Z) : Prop :=
  (b.2 < a.2)%Z ∨ (b.2 = a.2 ∧ String.ltb b.1 a.1 = true).

(** The order with ties broken by ascending word. *)
Definition spec_ranks_before (a b : string * Z) : Prop :=
  (b.2 < a.2)%Z ∨ (b.2 = a.2 ∧ String.ltb a.1 b.1 = true).

(** Every distinct word of the corpus with its raw frequency. *)
Definition word_freqs (p : params) (corpus : string) : list (string * Z) :=
  (λ w, (w, raw_freq (corpus_tokens p corpus) w))
    <$> remove_dups (corpus_tokens p corpus).

(** ** [make_ns_table]: the slot counts *)

(** An entry of the sampling table: word, frequency, slots. *)
Definition entry : Type := string * Z * Z.

Definition e_word (e : entry) : string := e.1.1.
Definition e_freq (e : entry) : Z := e.1.2.
Definition e_slots (e : entry) : Z := e.2.

(** [freq ** ns_exp] for a frequency [freq >= 1], the only bases
    [make_ns_table] raises to a power. *)
Definition pow_freq (freq : Z) (e : R) : R := Rpower (IZR freq) e.

(** [round(x)]: the nearest integer, a tie going to the even one. *)
Definition round_half_even (x : R) : Z :=
  let f := (up x - 1)%Z in
  if Rlt_dec (x - IZR f) (1 / 2) then f
  else if Rlt_dec (1 / 2) (x - IZR f) then (f + 1)%Z
  else if Z.even f then f else (f + 1)%Z.

(** The loop of lines 67 to 72: the dictionary [ns_table], keyed by word,
    and the running sum [sum_freq]. *)
Definition ns_freqs (p : params) (freqs_sorted : list (string * Z))
  : gmap string R * R :=
  foldl (λ acc e, (<[e.1 := pow_freq e.2 (ns_exp p)]> acc.1,
                   (acc.2 + pow_freq e.2 (ns_exp p))%R))
        (∅, 0%R) freqs_sorted.

(** Lines 80 and 81, the arithmetic taken over the reals where the lines
    work in doubles: the slot counts are stated below only for inputs on
    which every operation is exact in doubles; the words and the
    frequencies of the entries do not depend on it.  [sum_freq] is positive
    there, the list starting with the sentinel (a division by zero and a
    table size too large for a double are not modelled). *)
Definition ns_slots (p : params) (freqs_sorted : list (string * Z)) : list entry :=
  let ns_table := (ns_freqs p freqs_sorted).1 in
  let sum_freq := (ns_freqs p freqs_sorted).2 in
  let scaler := (IZR (ns_table_size p) / sum_freq)%R in
  (λ e, (e.1, e.2, round_half_even (default 0%R (ns_table !! e.1) * scaler)))
    <$> freqs_sorted.

Definition make_ns_table (p : params) (corpus : string) : list entry :=
  ns_slots p (freq_table p corpus).

(** [sum(...)] over reals *)
Definition sumR (l : list R) : R := foldr Rplus 0%R l.

(** The normaliser: the sum of [freq ** ns_exp] over the entries. *)
Definition normaliser (p : params) (freqs_sorted : list (string * Z)) : R :=
  sumR ((λ e, pow_freq e.2 (ns_exp p)) <$> freqs_sorted).

(** ** [load_ns_table] and [save_ns_table] *)

Definition is_digit (c : ascii) : bool :=
  let n := N_of_ascii c in (48 <=? n)%N && (n <=? 57)%N.

(** Digits with single underscores between them, the underscores dropped. *)
Fixpoint strip_underscores (after_digit : bool) (s : string) : option string :=
  match s with
  | EmptyString => if after_digit then Some EmptyString else None
  | String c s' =>
      if Ascii.eqb c "_"
      then (if after_digit then strip_underscores false s' else None)
      else if is_digit c then String c <$> strip_underscores true s'
      else None
  end.

Definition int_of_digits (s : string) : option Z :=
  d ← strip_underscores false s;
  u ← NilEmpty.uint_of_string d;
  Some (Z.of_uint u).

(** [int(s)] for a field of a split line (no blanks around it): an optional
    sign, then decimal digits; a [ValueError] is [None]. *)
Definition int_of_str (s : string) : option Z :=
  match s with
  | String "-" s' => Z.opp <$> int_of_digits s'
  | String "+" s' => int_of_digits s'
  | _ => int_of_digits s
  end.

(** [str(n)], as an f-string formats an integer. *)
Definition str_of_int (n : Z) : string := NilZero.string_of_int (Z.to_int n).

(** The body of the loop of [load_ns_table]. *)
Definition parse_line (l : string) : option entry :=
  let t := split l in
  w ← getitem t 0;
  fr ← getitem t 1 ≫= int_of_str;
  ns ← getitem t 2 ≫= int_of_str;
  Some (w, fr, ns).

(** [load_ns_table], from the text of the file. *)
Definition load_ns_table (file : string) : option (list entry) :=
  mapM parse_line (readlines file).

(** One [print(f'{w} {fr} {ns}', file=f)]. *)
Definition format_entry (e : entry) : string :=
  e_word e +:+ " " +:+ str_of_int (e_freq e) +:+ " " +:+ str_of_int (e_slots e)
    +:+ String newline "".

(** [save_ns_table]: the text written to the file. *)
Definition save_ns_table (table : list entry) : string :=
  foldr String.append "" (format_entry <$> table).

(** A record [load_ns_table] accepts: at least three fields, the second
    and the third integers. *)
Definition accepted_line (l : string) : Prop :=
  ∃ w fr ns rest,
    split l = w :: fr :: ns :: rest ∧
    is_Some (int_of_str fr) ∧ is_Some (int_of_str ns).

(** A word that survives a round trip: not empty, no whitespace. *)
Definition plain_word (w : string) : Prop := w ≠ "" ∧ has_space w = false.

(** ** [SGNSContextGenerator] *)

(** [enumerate(l)] *)
Definition enumerate {A} (l : list A) : list (Z * A) :=
  zip (seqZ 0 (Z.of_nat (length l))) l.

(** The pruning probability of line 121, for a word of frequency [f], the
    arithmetic taken over the reals where the line works in doubles: the
    theorems state of it what rounding keeps (that it is at most 0 when
    [f <= t * N], and how [prune] compares it with the draws), and values
    that are exact in doubles.  The quotient is not negative for a threshold
    and frequencies that are not (a negative one gives [nan] in the code);
    a zero frequency is refused by [init] below. *)
Definition prune_prob (t : R) (total_freq f : Z) : R :=
  (1 - sqrt (t * IZR total_freq / IZR f))%R.

Record SGNSContextGenerator := {
  corpus : string;               (* the text of the training file *)
  voc : gmap string Z;
  g_batch_size : Z;
  g_ctx_width : Z;
  g_lowercase : bool;
  prune_probs : gmap string R
}.

(** The fields [SGNSContextGenerator.__init__] sets. *)
Definition new_generator (ns_table : list entry) (p : params) (corpus_text : string)
  : SGNSContextGenerator :=
  let total_freq := sumZ (e_freq <$> ns_table) in
  {| corpus := corpus_text;
     voc := foldl (λ m ie, <[e_word ie.2 := ie.1]> m) ∅ (enumerate ns_table);
     g_batch_size := batch_size p;
     g_ctx_width := ctx_width p;
     g_lowercase := lowercase p;
     prune_probs :=
       foldl (λ m e, <[e_word e :=
                         prune_prob (prune_threshold p) total_freq (e_freq e)]> m)
             ∅ ns_table |}.

(** [SGNSContextGenerator.__init__]; the division by a zero frequency
    raises [ZeroDivisionError], here [None]. *)
Definition init (ns_table : list entry) (p : params) (corpus_text : string)
  : option SGNSContextGenerator :=
  if bool_decide (Forall (λ e, e_freq e ≠ 0%Z) ns_table)
  then Some (new_generator ns_table p corpus_text)
  else None.

(** The vocabulary size, as [SGNSModel] sizes both embedding tables:
    [len(voc)]. *)
Definition vocabulary_size (g : SGNSContextGenerator) : Z := Z.of_nat (size (voc g)).

#[global] Instance Rle_decision (x y : R) : Decision (x <= y)%R := Rle_dec x y.

(** [prune], on the draws [ps] of [np.random.random]. *)
Definition prune (g : SGNSContextGenerator) (ps : list R) (tokens : list string)
  : list string :=
  fst <$> filter (λ wp, (default 0 (prune_probs g !! wp.1) <= wp.2)%R) (zip tokens ps).


(** [self.voc.get(t, 0)] *)
Definition encode (g : SGNSContextGenerator) (t : string) : Z := default 0%Z (voc g !! t).

(** The state of one run of [batches]: its local variables, the batches
    yielded so far (oldest first), the number of calls of
    [np.random.randint] so far, and [self.word_count]. *)
Record gen_state := {
  widths : list Z;
  width_ix : Z;
  out_t : list Z;
  out_c : list Z;
  yielded : list (list Z * list Z);
  draws : nat;
  word_count : Z
}.

Inductive exn := IndexError | ValueError.

Inductive outcome (A : Type) :=
  | Ok (a : A) (s : gen_state)
  | Raised (e : exn) (s : gen_state).
Arguments Ok {A} a s.
Arguments Raised {A} e s.

(** Computations of the generator: state, and exceptions that keep it. *)
Definition Gen (A : Type) : Type := gen_state → outcome A.

Definition gret {A} (a : A) : Gen A := λ s, Ok a s.
Definition gbind {A B} (m : Gen A) (k : A → Gen B) : Gen B :=
  λ s, match m s with
       | Ok a s' => k a s'
       | Raised e s' => Raised e s'
       end.
Definition raise {A} (e : exn) : Gen A := λ s, Raised e s.
Definition get : Gen gen_state := λ s, Ok s s.
Definition put (s : gen_state) : Gen unit := λ _, Ok tt s.

#[global] Instance gen_ret : MRet Gen := @gret.
#[global] Instance gen_bind : MBind Gen := λ A B k m, gbind m k.

(** A [for] loop. *)
Fixpoint for_each {A} (l : list A) (body : A → Gen unit) : Gen unit :=
  match l with
  | [] => gret tt
  | x :: l' => body x ;; for_each l' body
  end.

Section generator.
(** [rand_widths n]: the array the call number [n] of
    [np.random.randint] returns; [rand_unif n]: the array
    [np.random.random] returns for line number [n]. *)
Variable rand_widths : nat → list Z.
Variable rand_unif : nat → list R.
Variable g : SGNSContextGenerator.

(** [widths = np.random.randint(1, self.ctx_width+1, size=self.batch_size)]:
    for a size of 0 the call returns (an empty array) before it looks at
    the range; otherwise an empty range or a negative size raises
    [ValueError]. *)
Definition draw_widths : Gen unit :=
  s ← get;
  if bool_decide (g_batch_size g = 0 ∨ (1 < g_ctx_width g + 1 ∧ 0 ≤ g_batch_size g))%Z
  then put {| widths := rand_widths (draws s); width_ix := width_ix s;
              out_t := out_t s; out_c := out_c s; yielded := yielded s;
              draws := S (draws s); word_count := word_count s |}
  else raise ValueError.

(** Lines 162 to 174: append the pair; a full batch is yielded and the
    locals are reset. *)
Definition emit_pair (t c : Z) : Gen unit :=
  s ← get;
  let out_t' := out_t s ++ [t] in
  let out_c' := out_c s ++ [c] in
  if bool_decide (Z.of_nat (length out_t') = g_batch_size g) then
    put {| widths := widths s; width_ix := width_ix s;
           out_t := out_t'; out_c := out_c';
           yielded := yielded s ++ [(out_t', out_c')];
           draws := draws s; word_count := word_count s |} ;;
    draw_widths ;;
    s ← get;
    put {| widths := widths s; width_ix := 0;
           out_t := []; out_c := []; yielded := yielded s;
           draws := draws s; word_count := word_count s |}
  else
    put {| widths := widths s; width_ix := width_ix s;
           out_t := out_t'; out_c := out_c'; yielded := yielded s;
           draws := draws s; word_count := word_count s |}.

(** The body of [for i, t in enumerate(encoded)]. *)
Definition position (encoded : list Z) (i : Z) : Gen unit :=
  s ← get;
  match getitem (widths s) (width_ix s) with
  | None => raise IndexError
  | Some w =>
      put {| widths := widths s; width_ix := width_ix s + 1;
             out_t := out_t s; out_c := out_c s; yielded := yielded s;
             draws := draws s; word_count := word_count s |} ;;
      let start := Z.max 0 (i - w) in
      let end_ := Z.min (i + w + 1) (Z.of_nat (length encoded)) in
      for_each (range start end_) (λ j,
        if bool_decide (j ≠ i) then
          match getitem encoded i, getitem encoded j with
          | Some t, Some c => emit_pair t c
          | _, _ => raise IndexError
          end
        else gret tt)
  end.

(** The tokens of line number [n] that survive pruning, encoded. *)
Definition encoded_line (n : nat) (line : string) : list Z :=
  encode g <$> prune g (rand_unif n)
    (split (if g_lowercase g then lower line else line)).

(** The body of [for line in f], once the line is cut into [ntokens]
    tokens and these are pruned and encoded. *)
Definition process_encoded (ntokens : nat) (encoded : list Z) : Gen unit :=
  s ← get;
  put {| widths := widths s; width_ix := width_ix s;
         out_t := out_t s; out_c := out_c s; yielded := yielded s;
         draws := draws s;
         word_count := word_count s + Z.of_nat ntokens |} ;;
  for_each (enumerate encoded) (λ it, position encoded it.1).

(** The body of [for line in f]. *)
Definition process_line (nl : Z * string) : Gen unit :=
  process_encoded
    (length (split (if g_lowercase g then lower nl.2 else nl.2)))
    (encoded_line (Z.to_nat nl.1) nl.2).

(** The last lines: the final, partial batch. *)
Definition final_batch : Gen unit :=
  s ← get;
  if bool_decide (0 < Z.of_nat (length (out_t s)))%Z then
    put {| widths := widths s; width_ix := width_ix s;
           out_t := out_t s; out_c := out_c s;
           yielded := yielded s ++ [(out_t s, out_c s)];
           draws := draws s; word_count := word_count s |}
  else gret tt.

Definition initial_state : gen_state :=
  {| widths := []; width_ix := 0; out_t := []; out_c := [];
     yielded := []; draws := 0; word_count := 0 |}.

Definition run_batches : outcome unit :=
  (draw_widths ;;
   for_each (enumerate (readlines (corpus g))) process_line ;;
   final_batch) initial_state.

(** [batches]: the batches the generator yields, in order, and the
    exception that ends it, if one does. *)
Definition batches : list (list Z * list Z) * option exn :=
  match run_batches with
  | Ok _ s => (yielded s, None)
  | Raised e s => (yielded s, Some e)
  end.

(** Words of the specification: the pair [(t, c)] is the target at a
    position [i] of some pruned line and the context at a position
    [j ≠ i] of that line, within the window of a drawn width [w]. *)
Definition window_pair (t c : Z) : Prop :=
  ∃ (n : nat) (line : string) (i j : nat) (w : Z),
    readlines (corpus g) !! n = Some line ∧
    (∃ k, w ∈ rand_widths k) ∧
    encoded_line n line !! i = Some t ∧
    encoded_line n line !! j = Some c ∧
    j ≠ i ∧
    (Z.max 0 (Z.of_nat i - w) ≤ Z.of_nat j)%Z ∧
    (Z.of_nat j ≤ Z.min (Z.of_nat (length (encoded_line n line)) - 1)
                       (Z.of_nat i + w))%Z.
End generator.

(** *** Words of the specification, for the pairs and their widths *)

(** The pairs of target position [i] of an encoded line for the width [w]:
    [(encoded[i], encoded[j])] for every [j ≠ i] with
    [max(0, i - w) <= j <= min(len - 1, i + w)], by ascending [j]. *)
Definition pair_at (encoded : list Z) (i j : Z) : option (Z * Z) :=
  if bool_decide (j ≠ i)
  then t ← encoded !! Z.to_nat i; c ← encoded !! Z.to_nat j; Some (t, c)
  else None.

Definition window_pairs (encoded : list Z) (i w : Z) : list (Z * Z) :=
  omap (pair_at encoded i)
       (range (Z.max 0 (i - w))
              (Z.min (Z.of_nat (length encoded) - 1) (i + w) + 1)).

(** Which width a target position is given: entry [cur_ix] of the array
    that call number [cur_draw] of [np.random.randint] returned;
    [cur_fill] counts the pairs of the batch being filled. *)
Record cursor := { cur_draw : nat; cur_ix : Z; cur_fill : Z }.

(** One more pair: when it completes a batch, the next array is drawn and
    read from its first entry. *)
Definition after_pair (bs : Z) (c : cursor) : cursor :=
  if bool_decide (cur_fill c + 1 = bs)%Z
  then {| cur_draw := S (cur_draw c); cur_ix := 0; cur_fill := 0 |}
  else {| cur_draw := cur_draw c; cur_ix := cur_ix c; cur_fill := (cur_fill c + 1)%Z |}.

(** One more target position, which emits [n] pairs: it uses up one entry
    of the array. *)
Definition after_position (bs : Z) (c : cursor) (n : nat) : cursor :=
  Nat.iter n (after_pair bs)
           {| cur_draw := cur_draw c; cur_ix := (cur_ix c + 1)%Z; cur_fill := cur_fill c |}.

(** The pairs of a sequence of target positions (each an encoded line and a
    position of it), every position with the width drawn for it; the
    sequence ends early ([None]) at a position for which no width is
    left. *)
Fixpoint scheduled (bs : Z) (rand_widths : nat → list Z) (c : cursor)
    (positions : list (list Z * Z)) : list (Z * Z) * option cursor :=
  match positions with
  | [] => ([], Some c)
  | (encoded, i) :: rest =>
      match getitem (rand_widths (cur_draw c)) (cur_ix c) with
      | None => ([], None)
      | Some w =>
          let wp := window_pairs encoded i w in
          let r := scheduled bs rand_widths (after_position bs c (length wp)) rest in
          (wp ++ r.1, r.2)
      end
  end.

(** The target positions of one encoded line, in order. *)
Definition positions_of (encoded : list Z) : list (list Z * Z) :=
  (λ it : Z * Z, (encoded, it.1)) <$> enumerate encoded.

(** The pairs of the whole corpus: every target position of every pruned
    line, in order, starting with the first entry of the first array. *)
Definition scheduled_pairs (rand_widths : nat → list Z) (rand_unif : nat → list R)
    (g : SGNSContextGenerator) : list (Z * Z) * option cursor :=
  scheduled (g_batch_size g) rand_widths
            {| cur_draw := 0; cur_ix := 0; cur_fill := 0 |}
            (concat ((λ nl : Z * string,
                        positions_of (encoded_line rand_unif g (Z.to_nat nl.1) nl.2))
                       <$> enumerate (readlines (corpus g)))).

(** The pairs of a list of batches, in order. *)
Definition flat_pairs (bs : list (list Z * list Z)) : list (Z * Z) :=
  concat ((λ b, zip b.1 b.2) <$> bs).

(** The tokens of the training file as [batches] cuts them, line after
    line, before any is pruned. *)
Definition generator_tokens (g : SGNSContextGenerator) : list string :=
  concat ((λ line, split (if g_lowercase g then lower line else line))
            <$> readlines (corpus g)).

(** ** [SGNSModel.nearest_neighbors] *)

Section model.
(** The elements of the tensors, and the two library operations the
    method calls: [sim_func u v] is [nn.CosineSimilarity] on two vectors,
    [topk k row] is [row.topk(k)], the [k] largest values of a row with
    their indices ([None]: the [RuntimeError] of a [k] out of range); the
    ranking of a row depends on the row alone. *)
Context {T : Type}.
Variable sim_func : list T → list T → T.
Variable topk : Z → list T → option (list (T * Z)).

Record SGNSModel := {
  w_weight : list (list T);      (* self.w.weight, one row per index *)
  m_voc : gmap string Z;
  ivoc : gmap Z string
}.

(** [self.ivoc = { i:w for w, i in voc.items() }] *)
Definition make_ivoc (voc : gmap string Z) : gmap Z string :=
  foldl (λ m wi, <[wi.2 := wi.1]> m) ∅ (map_to_list voc).

(** [self.w(ix)]: a row of the embedding table, an index out of range
    raising [IndexError]. *)
Definition embedding (m : SGNSModel) (ix : Z) : option (list T) :=
  if (ix <? 0)%Z then None else w_weight m !! Z.to_nat ix.

(** [nearest_neighbors(words, n_neighbors)]; [None] is an exception:
    the [KeyError] of a word outside the vocabulary, the
    [AttributeError] of a false [n_neighbors] (the model has no
    [n_testwords_neighbors]), or an error of [topk]. *)
Definition nearest_neighbors (m : SGNSModel) (words : list string) (n_neighbors : Z)
  : option (list (list (string * T))) :=
  words_ix ← mapM (λ w, m_voc m !! w) words;
  test_emb ← mapM (embedding m) words_ix;
  let scores := (λ e, sim_func e <$> w_weight m) <$> test_emb in
  if (n_neighbors =? 0)%Z then None
  else
    near_nbr ← mapM (topk (n_neighbors + 1)) scores;
    mapM (λ row, mapM (λ vi, w ← ivoc m !! vi.2; Some (w, vi.1)) (drop 1 row))
         near_nbr.

(** [cosine_similarity(word1, word2)]; [None] is the [KeyError] of a word
    outside the vocabulary or the [IndexError] of the embedding. *)
Definition cosine_similarity (m : SGNSModel) (word1 word2 : string) : option T :=
  i1 ← m_voc m !! word1;
  v1 ← embedding m i1;
  i2 ← m_voc m !! word2;
  v2 ← embedding m i2;
  Some (sim_func v1 v2).

(** [SGNSModel.__init__], on the two embedding tables [nn.Embedding]
    allocates: the vocabulary is kept and inverted. *)
Definition new_model (w c : list (list T)) (voc : gmap string Z) : SGNSModel :=
  {| w_weight := w; m_voc := voc; ivoc := make_ivoc voc |}.

(** [self.c(ix)], on the rows [c_weight] of the context embedding table. *)
Definition embedding_c (c_weight : list (list T)) (ix : Z) : option (list T) :=
  if (ix <? 0)%Z then None else c_weight !! Z.to_nat ix.

(** [dot u v]: the product of the row vector [u] and the column vector
    [v], one entry of the batch matrix product [bmm]. *)
Variable dot : list T → list T → T.

(** [forward(tgt, ctx)]: [tgt] holds one target index per row of the batch,
    [ctx], a tensor of two dimensions, one row of context indices per
    target; [None] is the [IndexError] of an embedding or the
    [RuntimeError] of [bmm] on two batches of different sizes. *)
Definition forward (m : SGNSModel) (c_weight : list (list T))
    (tgt : list Z) (ctx : list (list Z)) : option (list (list T)) :=
  tgt_emb ← mapM (embedding m) tgt;
  ctx_emb ← mapM (mapM (embedding_c c_weight)) ctx;
  if bool_decide (length tgt = length ctx)
  then Some (zip_with (λ te ces, dot te <$> ces) tgt_emb ctx_emb)
  else None.
End model.

(** ** [SGNSTrainer] *)

(** Lines 305 to 307: the index [i] of every entry, [count] times;
    [[i] * count] is the empty list for a count that is not positive. *)
Definition ns_table_expanded (ns_table : list entry) : list Z :=
  foldl (λ acc ie, acc ++ replicate (Z.to_nat (e_slots ie.2)) ie.1)
        [] (enumerate ns_table).

(** The fields of the trainer that sampling and the loss read: the expanded
    table, the number of negative samples, and the gold standard [y] (the
    labels 1.0 and 0.0, here the integers 1 and 0). *)
Record SGNSTrainer := {
  ns_table : list Z;
  n_ns : Z;
  y : list (list Z)
}.

(** [SGNSTrainer.__init__]; [torch.ones] and [torch.zeros] refuse a
    negative dimension ([None]). *)
Definition new_trainer (table : list entry) (p : params) (n_neg_samples : Z)
  : option SGNSTrainer :=
  let n_batch := batch_size p in
  if bool_decide (0 ≤ n_batch ∧ 0 ≤ n_neg_samples)%Z then
    Some {| ns_table := ns_table_expanded table;
            n_ns := n_neg_samples;
            y := replicate (Z.to_nat n_batch)
                   (1%Z :: replicate (Z.to_nat n_neg_samples) 0%Z) |}
  else None.

(** [make_negative_sample(batch_size)], on the tensor [rand_ix] that
    [torch.randint(len(self.ns_table), (batch_size, self.n_ns))] returns;
    the call raises ([None]) when the range [0 .. len) is empty or a
    dimension is negative, and [take] raises on an index out of range. *)
Definition make_negative_sample (tr : SGNSTrainer) (batch_size : Z)
    (rand_ix : list (list Z)) : option (list (list Z)) :=
  if bool_decide (0 < Z.of_nat (length (ns_table tr)) ∧ 0 ≤ batch_size ∧ 0 ≤ n_ns tr)%Z
  then mapM (mapM (getitem (ns_table tr))) rand_ix
  else None.

(** The draw [torch.randint(high, (rows, cols))] may return. *)
Definition randint_result (high rows cols : Z) (rand_ix : list (list Z)) : Prop :=
  Z.of_nat (length rand_ix) = rows ∧
  Forall (λ r, Z.of_nat (length r) = cols ∧ Forall (λ x, 0 ≤ x < high)%Z r) rand_ix.

Section train_step.
Context {T : Type}.
Variable dot : list T → list T → T.

(** Lines 358 to 378 of [train], for one batch [(t, c_pos)] of the
    generator: the negative sample, the context matrix
    [cat([c_pos.view(batch_size, 1), c_neg], dim=1)] and the scores of the
    model; [view] and [cat] refuse tensors of other sizes ([None]). *)
Definition batch_scores (tr : SGNSTrainer) (m : @SGNSModel T) (c_weight : list (list T))
    (b : list Z * list Z) (rand_ix : list (list Z)) : option (list (list T)) :=
  let batch_size := Z.of_nat (length b.1) in
  c_neg ← make_negative_sample tr batch_size rand_ix;
  if bool_decide (length b.2 = length b.1 ∧ length c_neg = length b.1)
  then forward dot m c_weight b.1 (zip_with cons b.2 c_neg)
  else None.

(** [self.y[:batch_size]], the labels the loss compares the scores with. *)
Definition batch_labels (tr : SGNSTrainer) (b : list Z * list Z) : list (list Z) :=
  slice_to (Z.of_nat (length b.1)) (y tr).
End train_step.

(** ** [main]: the sampling table *)

(** Lines 446 to 450: the table is loaded when the table file exists
    ([Some] of its text), built and saved otherwise.  The result is the
    table and the text of the table file afterwards. *)
Definition obtain_ns_table (table_file : option string) (p : params) (corpus_text : string)
  : option (list entry * string) :=
  match table_file with
  | Some file => table ← load_ns_table file; Some (table, file)
  | None =>
      let table := make_ns_table p corpus_text in
      Some (table, save_ns_table table)
  end.

(** ** Concrete configurations, for the examples *)

(** A vocabulary that holds every word, and one of two entries. *)
Definition params_wide : params :=
  {| voc_size := 10; ns_table_size := 8; unk_str := "<UNKNOWN>"; lowercase := true;
     ns_exp := 1; batch_size := 1; ctx_width := 1; prune_threshold := 1 |}.
Definition params_narrow : params :=
  {| voc_size := 2; ns_table_size := 8; unk_str := "<UNKNOWN>"; lowercase := false;
     ns_exp := 1; batch_size := 1; ctx_width := 1; prune_threshold := 1 |}.


(** Three small corpora: one line of three tokens; three lines of one token
    each; and a text that holds the unknown string itself. *)
Definition corpus_line : string := "a a a".
Definition corpus_single : string := "a
a
a
".
Definition corpus_unknown : string := "<UNKNOWN> <UNKNOWN> <UNKNOWN> b".

(** The sampling table [make_ns_table] builds for [corpus_line] and for
    [corpus_single] under [params_wide]. *)
Definition table_small : list entry := [("<UNKNOWN>", 1, 2); ("a", 3, 6)]%Z.

(** The sampling table [make_ns_table] builds for [corpus_unknown] under
    [params_narrow]: the unknown string stands twice. *)
Definition table_twice : list entry :=
  [("<UNKNOWN>", 1, 6); ("<UNKNOWN>", 3, 6)]%Z.

(** A model of two words, ["a"] and ["b"], whose embeddings are the same
    vector [x]. *)
Definition two_word_voc : gmap string Z := <["a" := 0%Z]> {["b" := 1%Z]}.

Definition two_word_model {T} (x : list T) : @SGNSModel T :=
  {| w_weight := [x; x]; m_voc := two_word_voc; ivoc := make_ivoc two_word_voc |}.

(** A model of the same two words with different embeddings, a similarity
    that is 1 on equal vectors and 0 on others, and [topk] for the two
    largest entries of a row of two. *)
Definition model_distinct : @SGNSModel Z :=
  new_model [[1%Z]; [2%Z]] [[1%Z]; [2%Z]] two_word_voc.

Definition sim_same (u v : list Z) : Z := if decide (u = v) then 1%Z else 0%Z.

Definition topk_two (k : Z) (row : list Z) : option (list (Z * Z)) :=
  match row with
  | [a; b] =>
      if (k =? 2)%Z
      then Some (if (a <? b)%Z then [(b, 1%Z); (a, 0%Z)] else [(a, 0%Z); (b, 1%Z)])
      else None
  | _ => None
  end.

(** The product of two vectors of integers. *)
Definition dot_Z (u v : list Z) : Z := sumZ (zip_with Z.mul u v).

(** The trainer [SGNSTrainer.__init__] builds for the small table, a batch
    size of 1 and two negative samples. *)
Definition trainer_small : SGNSTrainer :=
  {| ns_table := [0; 0; 1; 1; 1; 1; 1; 1]%Z; n_ns := 2; y := [[1; 0; 0]%Z] |}.

(** Draws for the examples: every width is 1, every uniform draw is 0. *)
Definition widths_one : nat → list Z := λ _, [1%Z].
Definition unif_zero : nat → list R := λ _, [0%R; 0%R; 0%R; 0%R].

(** ** Invariants the proofs carry *)

(** [a] does not sort after [b]. *)
Definition key_ge (a b : string * Z) : Prop := key_lt a b = false.

(** The counter [f] holds exactly the words of [ts], each once, with its
    number of occurrences. *)
Definition counter_ok (ts : list string) (f : list (string * Z)) : Prop :=
  NoDup f.*1 ∧
  ∀ w, (list_to_map f : gmap string Z) !! w =
       if decide (w ∈ ts) then Some (raw_freq ts w) else None.

(** The string holds a newline. *)
Fixpoint has_newline (s : string) : bool :=
  match s with
  | EmptyString => false
  | String c s' => Ascii.eqb c newline || has_newline s'
  end.

(** What a computation leaves in the state, whether it returns or raises. *)
Definition post {A} (I : gen_state → Prop) (o : outcome A) : Prop :=
  match o with
  | Ok _ s' => I s'
  | Raised _ s' => I s'
  end.

Definition preserves {A} (I : gen_state → Prop) (m : Gen A) : Prop :=
  ∀ s, I s → post I (m s).

(** What a computation establishes from a state in [P]: [Q] when it
    returns, [E] when it raises. *)
Definition outcome_sat {A} (Q : gen_state → Prop) (E : exn → gen_state → Prop)
    (o : outcome A) : Prop :=
  match o with
  | Ok _ s' => Q s'
  | Raised e s' => E e s'
  end.

Definition hoare {A} (P : gen_state → Prop) (m : Gen A)
    (Q : gen_state → Prop) (E : exn → gen_state → Prop) : Prop :=
  ∀ s, P s → outcome_sat Q E (m s).

(** The state of the generator follows the cursor [c], and the pairs
    yielded or accumulated so far are [acc]. *)
Definition follows (rand_widths : nat → list Z) (s : gen_state) (c : cursor)
    (acc : list (Z * Z)) : Prop :=
  widths s = rand_widths (cur_draw c) ∧ draws s = S (cur_draw c) ∧
  width_ix s = cur_ix c ∧ Z.of_nat (length (out_t s)) = cur_fill c ∧
  length (out_t s) = length (out_c s) ∧
  flat_pairs (yielded s) ++ zip (out_t s) (out_c s) = acc.

(** A run of the generator from a state that follows a cursor, against the
    pairs [r] scheduled from that cursor: it returns in a state that
    follows the cursor reached, or both end at a position without a width,
    the batches yielded holding the first of the pairs. *)
Definition tracks (rand_widths : nat → list Z) (o : outcome unit)
    (r : list (Z * Z) * option cursor) (acc : list (Z * Z)) : Prop :=
  match r.2 with
  | Some c' => ∃ s', o = Ok tt s' ∧ follows rand_widths s' c' (acc ++ r.1)
  | None => ∃ s', o = Raised IndexError s' ∧
                  flat_pairs (yielded s') `prefix_of` (acc ++ r.1)
  end.

(** Every batch yielded so far holds [batch_size] pairs, one at least. *)
Definition full_batch (g : SGNSContextGenerator) (b : list Z * list Z) : Prop :=
  Z.of_nat (length b.1) = g_batch_size g ∧ (1 ≤ g_batch_size g)%Z.

Definition full_inv (g : SGNSContextGenerator) (s : gen_state) : Prop :=
  Forall (full_batch g) (yielded s).

(** ... and the batch being filled holds fewer. *)
Definition size_inv (g : SGNSContextGenerator) (s : gen_state) : Prop :=
  full_inv g s ∧
  (1 ≤ g_batch_size g → Z.of_nat (length (out_t s)) < g_batch_size g)%Z.

(** The exceptions of a run: the batches yielded before are full, and with
    a context width of at least 1 and a batch size that is not negative the
    exception is an [IndexError]. *)
Definition raised_inv (g : SGNSContextGenerator) (e : exn) (s : gen_state) : Prop :=
  full_inv g s ∧
  ((g_batch_size g = 0 ∨ (1 ≤ g_ctx_width g ∧ 0 ≤ g_batch_size g))%Z → e = IndexError).

(** The number of tokens of the lines [pre]. *)
Definition tokens_upto (g : SGNSContextGenerator) (pre : list (Z * string)) : Z :=
  Z.of_nat (length (concat ((λ nl : Z * string,
                               split (if g_lowercase g then lower nl.2 else nl.2))
                              <$> pre))).

(** Every pair accumulated or yielded satisfies [P]; every width in the
    current array was drawn. *)
Definition gen_inv (rand_widths : nat → list Z) (P : Z → Z → Prop) (s : gen_state)
  : Prop :=
  Forall2 P (out_t s) (out_c s) ∧
  Forall (λ b, Forall2 P b.1 b.2) (yielded s) ∧
  Forall (λ w, ∃ k, w ∈ rand_widths k) (widths s).

(** Total correctness: from a state in [P] the computation returns, in a
    state in [Q]. *)
Definition runs (P : gen_state → Prop) (m : Gen unit) (Q : gen_state → Prop) : Prop :=
  ∀ s, P s → ∃ s', m s = Ok tt s' ∧ Q s'.

(** The widths array is one full draw, and the positions read from it since
    it was drawn are at most [slack] more than the pairs accumulated. *)
Definition widths_inv (g : SGNSContextGenerator) (slack : Z) (s : gen_state) : Prop :=
  Z.of_nat (length (widths s)) = g_batch_size g ∧
  Forall (λ w, 1 ≤ w)%Z (widths s) ∧
  (0 ≤ width_ix s ≤ Z.of_nat (length (out_t s)) + slack)%Z ∧
  (Z.of_nat (length (out_t s)) < g_batch_size g)%Z.

(* ===================================================================== *)
(** * Part II: the properties *)
(* ===================================================================== *)

(** ** The order of the sort key *)

Lemma string_compare_refl s : String.compare s s = Eq.
Proof.
  pose proof (String.compare_antisym s s) as H.
  destruct (String.compare s s); simpl in H; congruence.
Qed.

Lemma ltb_irrefl s : String.ltb s s = false.
Proof. unfold String.ltb. by rewrite string_compare_refl. Qed.

Lemma ltb_leb a b : String.ltb a b = true → String.leb a b = true.
Proof. unfold String.ltb, String.leb. by destruct (String.compare a b). Qed.

Lemma ltb_trichotomy a b : String.ltb a b = true ∨ a = b ∨ String.ltb b a = true.
Proof.
  unfold String.ltb. rewrite (String.compare_antisym b a).
  destruct (String.compare a b) eqn:E; simpl; auto.
  right; left. by apply String.compare_eq_iff.
Qed.

Lemma ltb_asym a b : String.ltb a b = true → String.ltb b a = false.
Proof.
  unfold String.ltb. rewrite (String.compare_antisym b a).
  by destruct (String.compare a b).
Qed.

Lemma ltb_trans a b c :
  String.ltb a b = true → String.ltb b c = true → String.ltb a c = true.
Proof.
  intros Hab Hbc.
  assert (String.le a c) as Hac.
  { etrans; apply Is_true_true, ltb_leb; eauto. }
  destruct (ltb_trichotomy a c) as [|[->|Hca]]; [done|..].
  - apply ltb_asym in Hab. congruence.
  - assert (a = c) as ->.
    { apply (anti_symm String.le); [done|]. by apply Is_true_true, ltb_leb. }
    apply ltb_asym in Hab. congruence.
Qed.

Lemma key_lt_irrefl a : key_lt a a = false.
Proof. unfold key_lt. rewrite ltb_irrefl. lia. Qed.

Lemma key_lt_trans a b c : key_lt a b = true → key_lt b c = true → key_lt a c = true.
Proof.
  unfold key_lt. intros Hab Hbc.
  destruct (Z.ltb_spec a.2 b.2), (Z.ltb_spec b.2 c.2), (Z.ltb_spec a.2 c.2);
    simpl in *; try done; try lia.
  destruct (Z.eqb_spec a.2 b.2), (Z.eqb_spec b.2 c.2), (Z.eqb_spec a.2 c.2);
    simpl in *; try done; try lia.
  eauto using ltb_trans.
Qed.

Lemma key_lt_trichotomy a b : key_lt a b = true ∨ a = b ∨ key_lt b a = true.
Proof.
  unfold key_lt. destruct a as [wa fa], b as [wb fb]; simpl.
  destruct (Z.ltb_spec fa fb), (Z.ltb_spec fb fa); simpl; auto; try lia.
  assert (fa = fb) as -> by lia. rewrite Z.eqb_refl. simpl.
  destruct (ltb_trichotomy wa wb) as [|[->|]]; auto.
Qed.

Lemma key_lt_asym a b : key_lt a b = true → key_lt b a = false.
Proof.
  intros Hab. destruct (key_lt b a) eqn:Hba; [|done].
  pose proof (key_lt_trans _ _ _ Hab Hba) as H. by rewrite key_lt_irrefl in H.
Qed.

(** Sorting *)
Lemma insert_desc_perm x l : insert_desc x l ≡ₚ x :: l.
Proof.
  induction l as [|y l IH]; simpl; [done|].
  destruct (key_lt x y); [|done]. rewrite IH. apply Permutation_swap.
Qed.

Lemma sorted_desc_perm l : sorted_desc l ≡ₚ l.
Proof.
  induction l as [|x l IH]; simpl; [done|].
  by rewrite insert_desc_perm, IH.
Qed.


Lemma key_ge_trans a b c : key_ge a b → key_ge b c → key_ge a c.
Proof.
  unfold key_ge. intros Hab Hbc.
  destruct (key_lt a c) eqn:Hac; [|done].
  destruct (key_lt_trichotomy b a) as [Hba|[->|Hba]]; [|congruence..].
  pose proof (key_lt_trans _ _ _ Hba Hac). congruence.
Qed.

Lemma insert_desc_sorted x l :
  StronglySorted key_ge l → StronglySorted key_ge (insert_desc x l).
Proof.
  induction 1 as [|y l Hs IH Hy]; simpl.
  - repeat constructor.
  - destruct (key_lt x y) eqn:Hxy.
    + constructor; [done|].
      rewrite insert_desc_perm. constructor; [|done].
      unfold key_ge. by apply key_lt_asym.
    + constructor; [by constructor|].
      constructor; [done|].
      eapply Forall_impl; [exact Hy|]. intros z Hz. by eapply key_ge_trans.
Qed.

Lemma sorted_desc_sorted l : StronglySorted key_ge (sorted_desc l).
Proof.
  induction l; simpl; [constructor|]. by apply insert_desc_sorted.
Qed.

Lemma StronglySorted_strict l :
  NoDup l → StronglySorted key_ge l →
  StronglySorted (λ a b, key_lt b a = true) l.
Proof.
  intros Hnd Hs. induction Hs as [|x l Hs IH Hx]; [constructor|].
  apply NoDup_cons in Hnd as [Hx' Hnd].
  constructor; [by apply IH|].
  apply Forall_forall. intros y Hy.
  rewrite Forall_forall in Hx. specialize (Hx y Hy).
  destruct (key_lt_trichotomy x y) as [?|[->|?]]; [congruence|done..].
Qed.

(** Counter *)
Lemma counter_incr_fst w f :
  (counter_incr w f).*1 = if decide (w ∈ f.*1) then f.*1 else f.*1 ++ [w].
Proof.
  induction f as [|[w' n] f IH].
  - done.
  - cbn [counter_incr fmap list_fmap fst].
    destruct (decide (w = w')) as [->|Hne]; cbn [fmap list_fmap fst].
    + rewrite decide_True; [done|]. apply list_elem_of_here.
    + rewrite IH. destruct (decide (w ∈ f.*1)).
      * rewrite decide_True; [done|]. by apply list_elem_of_further.
      * rewrite decide_False; [done|]. rewrite elem_of_cons. intros [?|?]; done.
Qed.

Lemma counter_incr_map w f :
  (list_to_map (counter_incr w f) : gmap string Z) =
  <[w := (default 0 ((list_to_map f : gmap string Z) !! w) + 1)%Z]> (list_to_map f).
Proof.
  induction f as [|[w' n] f IH]; simpl; [done|].
  destruct (decide (w = w')) as [->|Hne]; simpl.
  - rewrite lookup_insert_eq. simpl. by rewrite insert_insert_eq.
  - rewrite IH. rewrite lookup_insert_ne by done. by apply insert_insert_ne.
Qed.

Lemma raw_freq_snoc ts w w' :
  raw_freq (ts ++ [w]) w' = (raw_freq ts w' + (if decide (w = w') then 1 else 0))%Z.
Proof.
  unfold raw_freq. rewrite filter_app, length_app.
  rewrite filter_cons, filter_nil. destruct (decide (w = w')); simpl; lia.
Qed.

Lemma raw_freq_nonneg ts w : (0 ≤ raw_freq ts w)%Z.
Proof. unfold raw_freq. lia. Qed.

Lemma raw_freq_pos ts w : w ∈ ts ↔ (1 ≤ raw_freq ts w)%Z.
Proof.
  unfold raw_freq. split.
  - intros Hin. assert (w ∈ filter (λ t, t = w) ts) as Hf.
    { by apply list_elem_of_filter. }
    destruct (filter _ ts); [by apply not_elem_of_nil in Hf|simpl; lia].
  - intros Hlen. destruct (filter (λ t, t = w) ts) as [|x l] eqn:E; [simpl in *; lia|].
    assert (x ∈ filter (λ t, t = w) ts) as Hx by (rewrite E; left).
    apply list_elem_of_filter in Hx as [-> ?]. done.
Qed.


Lemma counter_ok_nil : counter_ok [] [].
Proof.
  split; [constructor|]. intros w.
  destruct (decide (w ∈ [])) as [H|]; [by apply not_elem_of_nil in H|done].
Qed.

Lemma counter_incr_ok ts f w :
  counter_ok ts f → counter_ok (ts ++ [w]) (counter_incr w f).
Proof.
  intros [Hnd Hm]. split.
  - rewrite counter_incr_fst. destruct (decide (w ∈ f.*1)); [done|].
    apply NoDup_app. split_and!; [done| |apply NoDup_singleton].
    intros x Hx ->%list_elem_of_singleton. done.
  - intros w'. rewrite counter_incr_map, raw_freq_snoc.
    destruct (decide (w = w')) as [->|Hne].
    + rewrite lookup_insert_eq. rewrite decide_True by (apply elem_of_app; right; left).
      rewrite Hm. destruct (decide (w' ∈ ts)) as [|Hni]; simpl; [done|].
      f_equal. assert (raw_freq ts w' = 0)%Z; [|lia].
      pose proof (raw_freq_nonneg ts w'). rewrite raw_freq_pos in Hni. lia.
    + rewrite lookup_insert_ne by done. rewrite Hm.
      destruct (decide (w' ∈ ts)).
      * rewrite decide_True by (apply elem_of_app; by left). f_equal. lia.
      * rewrite decide_False; [done|].
        rewrite elem_of_app, list_elem_of_singleton. intros [?|?]; congruence.
Qed.

Lemma counter_update_ok ts0 f ts :
  counter_ok ts0 f → counter_ok (ts0 ++ ts) (counter_update f ts).
Proof.
  revert ts0 f. induction ts as [|w ts IH]; intros ts0 f Hok; simpl.
  - by rewrite app_nil_r.
  - replace (ts0 ++ w :: ts) with ((ts0 ++ [w]) ++ ts) by (by rewrite <- app_assoc).
    apply IH. by apply counter_incr_ok.
Qed.

Lemma corpus_freqs_ok p corpus :
  counter_ok (corpus_tokens p corpus) (corpus_freqs p corpus).
Proof.
  unfold corpus_freqs, corpus_tokens.
  assert (∀ ls ts0 f, counter_ok ts0 f →
    counter_ok (ts0 ++ concat (tokens_of_line p <$> ls))
      (foldl (λ freqs line, counter_update freqs (tokens_of_line p line)) f ls)) as H.
  { induction ls as [|l ls IH]; intros ts0 f Hok; simpl.
    - by rewrite app_nil_r.
    - rewrite app_assoc. apply IH. by apply counter_update_ok. }
  apply (H _ [] []), counter_ok_nil.
Qed.

Lemma counter_ok_elem ts f w n :
  counter_ok ts f → (w, n) ∈ f ↔ w ∈ ts ∧ n = raw_freq ts w.
Proof.
  intros [Hnd Hm]. rewrite elem_of_list_to_map by done. rewrite Hm.
  destruct (decide (w ∈ ts)); split.
  - intros [= <-]. done.
  - intros [_ ->]. done.
  - done.
  - intros [? _]. done.
Qed.

Lemma counter_ok_keys ts f w : counter_ok ts f → w ∈ f.*1 ↔ w ∈ ts.
Proof.
  intros Hok. rewrite list_elem_of_fmap. split.
  - intros [[w' n] [-> Hin]]. by apply (counter_ok_elem _ _ _ _ Hok) in Hin as [? _].
  - intros Hin. exists (w, raw_freq ts w). split; [done|].
    by apply (counter_ok_elem _ _ _ _ Hok).
Qed.

Lemma counter_ok_length ts f :
  counter_ok ts f → length f = size (list_to_set ts : gset string).
Proof.
  intros Hok. rewrite <- (length_fmap fst f).
  rewrite <- (size_list_to_set (C:=gset string)) by apply Hok.
  f_equal. apply set_eq. intros w. rewrite !elem_of_list_to_set.
  by apply counter_ok_keys.
Qed.


Lemma key_lt_ranks_before a b : key_lt b a = true ↔ ranks_before a b.
Proof.
  unfold key_lt, ranks_before.
  rewrite orb_true_iff, andb_true_iff, Z.ltb_lt, Z.eqb_eq. done.
Qed.

Lemma counter_ok_perm ts f f' : counter_ok ts f → f ≡ₚ f' → counter_ok ts f'.
Proof.
  intros [Hnd Hm] Hp. split.
  - by rewrite <- Hp.
  - intros w. rewrite <- Hm. f_equal. symmetry. by apply list_to_map_proper.
Qed.

Lemma counter_ok_NoDup ts f : counter_ok ts f → NoDup f.
Proof. intros [Hnd _]. by eapply NoDup_fmap_1. Qed.

Lemma counter_ok_word_freqs p corpus f :
  counter_ok (corpus_tokens p corpus) f → f ≡ₚ word_freqs p corpus.
Proof.
  intros Hok. apply NoDup_Permutation.
  - by eapply counter_ok_NoDup.
  - apply NoDup_fmap_2; [|apply NoDup_remove_dups]. by intros ?? [=].
  - intros [w n]. rewrite (counter_ok_elem _ _ _ _ Hok).
    unfold word_freqs. rewrite list_elem_of_fmap. split.
    + intros [Hin ->]. exists w. by rewrite elem_of_remove_dups.
    + intros (w' & [= -> ->] & Hin). by rewrite elem_of_remove_dups in Hin.
Qed.

Lemma sorted_freqs_ok p corpus :
  counter_ok (corpus_tokens p corpus) (sorted_desc (corpus_freqs p corpus)).
Proof.
  eapply counter_ok_perm; [apply corpus_freqs_ok|]. symmetry. apply sorted_desc_perm.
Qed.

Lemma StronglySorted_ranked l :
  StronglySorted (λ a b, key_lt b a = true) l → StronglySorted ranks_before l.
Proof.
  induction 1 as [|x l Hs IH Hx]; constructor; [done|].
  eapply Forall_impl; [exact Hx|]. intros y. apply key_lt_ranks_before.
Qed.

Lemma sorted_freqs_ranked p corpus :
  StronglySorted ranks_before (sorted_desc (corpus_freqs p corpus)).
Proof.
  apply StronglySorted_ranked, StronglySorted_strict.
  - eapply counter_ok_NoDup, sorted_freqs_ok.
  - apply sorted_desc_sorted.
Qed.

Lemma slice_bound_nonneg {A} k (l : list A) : (0 ≤ k)%Z → slice_bound k l = Z.to_nat k.
Proof. intros. unfold slice_bound. by rewrite (proj2 (Z.ltb_ge k 0)). Qed.

Lemma tail_freq_table p corpus :
  (1 ≤ voc_size p)%Z →
  tail (freq_table p corpus) =
  take (Z.to_nat (voc_size p - 1)) (sorted_desc (corpus_freqs p corpus)).
Proof.
  intros. unfold freq_table, freq_table_of, slice_to. simpl.
  by rewrite slice_bound_nonneg by lia.
Qed.

(** C5 (amended): for [vocab_size >= 1], the entries after the sentinel are
    the first [vocab_size - 1] of the ranking of all distinct words with
    their raw frequencies by descending frequency, ties broken by
    descending order of the word string. *)
Theorem freq_table_ranking p corpus :
  (1 ≤ voc_size p)%Z →
  ∃ ranking,
    ranking ≡ₚ word_freqs p corpus ∧
    StronglySorted ranks_before ranking ∧
    tail (freq_table p corpus) = take (Z.to_nat (voc_size p - 1)) ranking.
Proof.
  intros Hv. exists (sorted_desc (corpus_freqs p corpus)). split_and!.
  - apply counter_ok_word_freqs, sorted_freqs_ok.
  - apply sorted_freqs_ranked.
  - by apply tail_freq_table.
Qed.

Lemma sumZ_perm l l' : l ≡ₚ l' → sumZ l = sumZ l'.
Proof. induction 1; simpl; lia. Qed.

Lemma distinct_words_length p corpus :
  length (sorted_desc (corpus_freqs p corpus)) = distinct_words p corpus.
Proof. apply counter_ok_length, sorted_freqs_ok. Qed.

Lemma excluded_words_perm p corpus :
  (1 ≤ voc_size p)%Z →
  (drop (Z.to_nat (voc_size p - 1)) (sorted_desc (corpus_freqs p corpus))).*1
  ≡ₚ excluded_words p corpus.
Proof.
  intros Hv. pose proof (sorted_freqs_ok p corpus) as Hok.
  unfold excluded_words. rewrite tail_freq_table by done.
  set (fs := sorted_desc (corpus_freqs p corpus)) in *.
  set (k := Z.to_nat (voc_size p - 1)).
  assert (NoDup (take k fs).*1 ∧ NoDup (drop k fs).*1 ∧
          ∀ w, w ∈ (take k fs).*1 → w ∉ (drop k fs).*1) as (Ht & Hd & Hdisj).
  { destruct Hok as [Hnd _]. rewrite <- (take_drop k fs), fmap_app in Hnd.
    apply NoDup_app in Hnd as (?&?&?). done. }
  apply NoDup_Permutation; [done|apply NoDup_filter, NoDup_remove_dups|].
  intros w. rewrite list_elem_of_filter, elem_of_remove_dups.
  rewrite <- (counter_ok_keys _ _ w Hok).
  rewrite <- (take_drop k fs) at 3. rewrite fmap_app, elem_of_app.
  split.
  - intros Hw. split; [|by right]. intros Hw'. by apply Hdisj in Hw'.
  - intros [Hn [?|?]]; done.
Qed.

Lemma counter_ok_snd ts f l :
  counter_ok ts f → l ⊆ f → l.*2 = raw_freq ts <$> l.*1.
Proof.
  intros Hok. induction l as [|[w n] l IH]; intros Hsub; [done|].
  cbn [fmap list_fmap fst snd]. f_equal.
  - assert ((w, n) ∈ f) as Hin by (apply Hsub; left).
    by apply (counter_ok_elem _ _ _ _ Hok) in Hin as [_ ->].
  - apply IH. intros x Hx. apply Hsub. by right.
Qed.

(** C3 (amended): for [vocab_size >= 1], the frequency table has exactly
    [min(distinct_words + 1, vocab_size)] entries; its first entry is the
    sentinel, whose frequency is the sum of the raw frequencies of the
    excluded words when the cap excludes a word, and 1 otherwise. *)
Theorem freq_table_size_and_sentinel p corpus :
  (1 ≤ voc_size p)%Z →
  Z.of_nat (length (freq_table p corpus)) =
    Z.min (Z.of_nat (distinct_words p corpus) + 1) (voc_size p) ∧
  head (freq_table p corpus) =
    Some (unk_str p,
          if decide (voc_size p - 1 < Z.of_nat (distinct_words p corpus))%Z
          then sumZ (raw_freq (corpus_tokens p corpus) <$> excluded_words p corpus)
          else 1%Z).
Proof.
  intros Hv. pose proof (sorted_freqs_ok p corpus) as Hok.
  pose proof (distinct_words_length p corpus) as Hlen.
  unfold freq_table, freq_table_of, slice_to, slice_from.
  rewrite !slice_bound_nonneg by lia. rewrite Hlen. split.
  - cbn [length]. rewrite length_take, Hlen. lia.
  - cbn [head]. do 2 f_equal.
    destruct (Z.gtb_spec (Z.of_nat (distinct_words p corpus)) (voc_size p - 1)).
    + rewrite decide_True by lia.
      rewrite (counter_ok_snd _ _ _ Hok).
      * apply sumZ_perm, fmap_Permutation. by apply excluded_words_perm.
      * apply subseteq_drop.
    + by rewrite decide_False by lia.
Qed.

(** C5, witness: six tokens, a vocabulary of two. *)
Lemma freq_table_ranking_witness :
  ∃ ranking,
    ranking ≡ₚ word_freqs params_narrow "a b c a b a" ∧
    StronglySorted ranks_before ranking ∧
    tail (freq_table params_narrow "a b c a b a") =
      take (Z.to_nat (voc_size params_narrow - 1)) ranking.
Proof. apply (freq_table_ranking params_narrow "a b c a b a"). simpl. lia. Defined.

(** C5, counterexample: two words of frequency 1; ["b"] is placed before
    ["a"], so the entries are not sorted with ties in ascending order. *)
Lemma ties_broken_by_descending_word :
  freq_table params_wide "a b" = [("<UNKNOWN>", 1%Z); ("b", 1%Z); ("a", 1%Z)] ∧
  ¬ StronglySorted spec_ranks_before (tail (freq_table params_wide "a b")).
Proof.
  split; [by vm_compute|].
  replace (tail (freq_table params_wide "a b")) with [("b", 1%Z); ("a", 1%Z)]
    by (by vm_compute).
  intros Hs. apply StronglySorted_inv in Hs as [_ Hb].
  apply Forall_cons in Hb as [[Hlt|[_ Hlt]] _]; simpl in Hlt; [lia|].
  by vm_compute in Hlt.
Qed.

(** C3, witness: six tokens, a vocabulary of two. *)
Lemma freq_table_size_and_sentinel_witness :
  Z.of_nat (length (freq_table params_narrow "a b c a b a")) =
    Z.min (Z.of_nat (distinct_words params_narrow "a b c a b a") + 1)
          (voc_size params_narrow) ∧
  head (freq_table params_narrow "a b c a b a") =
    Some (unk_str params_narrow,
          if decide (voc_size params_narrow - 1 <
                     Z.of_nat (distinct_words params_narrow "a b c a b a"))%Z
          then sumZ (raw_freq (corpus_tokens params_narrow "a b c a b a")
                       <$> excluded_words params_narrow "a b c a b a")
          else 1%Z).
Proof. apply (freq_table_size_and_sentinel params_narrow "a b c a b a"). simpl. lia. Defined.

(** C3, counterexample: no word is excluded, the sum of the excluded
    frequencies is 0, and the sentinel holds 1. *)
Lemma sentinel_is_one_when_nothing_is_excluded :
  freq_table params_wide "a" = [("<UNKNOWN>", 1%Z); ("a", 1%Z)] ∧
  excluded_words params_wide "a" = [] ∧
  sumZ (raw_freq (corpus_tokens params_wide "a") <$> excluded_words params_wide "a") = 0%Z.
Proof. by vm_compute. Qed.

(** ** Strings *)

Lemma app_cons c s t : String c s +:+ t = String c (s +:+ t).
Proof. reflexivity. Qed.

Lemma app_empty_r s : s +:+ "" = s.
Proof. induction s as [|c s IH]; [done|]. by rewrite app_cons, IH. Qed.

Lemma app_assoc_str s t u : (s +:+ t) +:+ u = s +:+ (t +:+ u).
Proof. induction s as [|c s IH]; [done|]. by rewrite !app_cons, IH. Qed.

Lemma has_space_app s t : has_space (s +:+ t) = has_space s || has_space t.
Proof.
  induction s as [|c s IH]; [done|].
  rewrite app_cons. simpl. by rewrite IH, orb_assoc.
Qed.

Lemma split_go_word w cur s :
  has_space w = false → split_go cur (w +:+ s) = split_go (cur +:+ w) s.
Proof.
  revert cur. induction w as [|c w IH]; intros cur Hw.
  - by rewrite app_empty_r.
  - simpl in Hw. apply orb_false_iff in Hw as [Hc Hw].
    rewrite app_cons. simpl. rewrite Hc, IH by done.
    by rewrite app_assoc_str.
Qed.

Lemma split_go_space cur c s :
  is_space c = true → split_go cur (String c s) = emit cur (split_go "" s).
Proof. intros Hc. simpl. by rewrite Hc. Qed.

Lemma emit_cons cur l : cur ≠ "" → emit cur l = cur :: l.
Proof. by destruct cur. Qed.

Lemma Forall_emit (P : string → Prop) cur l :
  (cur ≠ "" → P cur) → Forall P l → Forall P (emit cur l).
Proof. destruct cur; [done|]. intros H ?. constructor; [by apply H|done]. Qed.

Lemma split_go_plain cur s :
  has_space cur = false → Forall plain_word (split_go cur s).
Proof.
  revert cur. induction s as [|c s IH]; intros cur Hcur; simpl.
  - apply Forall_emit; [done|constructor].
  - destruct (is_space c) eqn:Hc.
    + apply Forall_emit; [done|]. by apply IH.
    + apply IH. rewrite has_space_app. simpl. by rewrite Hcur, Hc.
Qed.

Lemma split_plain s : Forall plain_word (split s).
Proof. by apply split_go_plain. Qed.

Lemma split_go_field w c s :
  plain_word w → is_space c = true →
  split_go "" (w +:+ String c s) = w :: split_go "" s.
Proof.
  intros [Hw Hw'] Hc. rewrite split_go_word by done.
  change ("" +:+ w) with w.
  rewrite split_go_space by done. by apply emit_cons.
Qed.

(** The fields of a line written by [save_ns_table] are read back. *)
Lemma split_three w f n :
  plain_word w → plain_word f → plain_word n →
  split (w +:+ " " +:+ f +:+ " " +:+ n +:+ String newline "") = [w; f; n].
Proof.
  intros Hw Hf Hn.
  change (split_go "" (w +:+ String " " (f +:+ String " " (n +:+ String newline "")))
          = [w; f; n]).
  by rewrite !split_go_field by (done || by vm_compute).
Qed.

(** *** Lines *)

Lemma has_newline_app s t : has_newline (s +:+ t) = has_newline s || has_newline t.
Proof.
  induction s as [|c s IH]; [done|].
  rewrite app_cons. simpl. by rewrite IH, orb_assoc.
Qed.

Lemma has_space_newline s : has_space s = false → has_newline s = false.
Proof.
  induction s as [|c s IH]; [done|]. simpl.
  intros [Hc Hs]%orb_false_iff. rewrite IH by done.
  destruct (Ascii.eqb_spec c newline) as [->|]; [done|done].
Qed.

Lemma readlines_go_line l cur s :
  has_newline l = false →
  readlines_go cur (l +:+ String newline s) =
  (cur +:+ l +:+ String newline "") :: readlines_go "" s.
Proof.
  revert cur. induction l as [|c l IH]; intros cur Hl.
  - simpl. done.
  - simpl in Hl. apply orb_false_iff in Hl as [Hc Hl].
    rewrite app_cons. simpl. rewrite Hc, IH by done.
    by rewrite app_assoc_str.
Qed.

(** *** Integers and their decimal text *)

Lemma strip_underscores_digits u b :
  strip_underscores b (NilEmpty.string_of_uint u) =
  match u with
  | Decimal.Nil => if b then Some "" else None
  | _ => Some (NilEmpty.string_of_uint u)
  end.
Proof.
  revert b. induction u as [|u IH|u IH|u IH|u IH|u IH|u IH|u IH|u IH|u IH|u IH];
    intros b; [done|..]; cbn -[fmap]; rewrite IH; by destruct u.
Qed.

Lemma int_of_digits_uint u :
  u ≠ Decimal.Nil → int_of_digits (NilEmpty.string_of_uint u) = Some (Z.of_uint u).
Proof.
  intros Hu. unfold int_of_digits. rewrite strip_underscores_digits.
  destruct u; [done|..]; cbn -[NilEmpty.uint_of_string NilEmpty.string_of_uint];
    by rewrite NilEmpty.usu.
Qed.

Lemma int_of_str_digits u :
  u ≠ Decimal.Nil →
  int_of_str (NilEmpty.string_of_uint u) = int_of_digits (NilEmpty.string_of_uint u).
Proof. by destruct u. Qed.

Lemma to_uint_not_nil p : Pos.to_uint p ≠ Decimal.Nil.
Proof.
  intros Hp. pose proof (DecimalPos.Unsigned.to_uint_nonnil p). done.
Qed.

Lemma string_of_uint_not_nil u :
  u ≠ Decimal.Nil → NilZero.string_of_uint u = NilEmpty.string_of_uint u.
Proof. by destruct u. Qed.

(** [int(str(n)) = n] *)
Lemma int_of_str_of_int z : int_of_str (str_of_int z) = Some z.
Proof.
  unfold str_of_int. pose proof (DecimalZ.of_to z) as Hz. destruct z as [|p|p]; simpl in *.
  - done.
  - pose proof (to_uint_not_nil p).
    rewrite string_of_uint_not_nil, int_of_str_digits, int_of_digits_uint by done.
    by rewrite Hz.
  - pose proof (to_uint_not_nil p).
    rewrite string_of_uint_not_nil, int_of_digits_uint by done. simpl.
    by rewrite Hz.
Qed.

Lemma string_of_uint_plain u : has_space (NilEmpty.string_of_uint u) = false.
Proof. induction u; simpl; by rewrite ?IHu. Qed.

Lemma str_of_int_plain z : plain_word (str_of_int z).
Proof.
  unfold str_of_int, plain_word. destruct z as [|p|p]; simpl.
  - done.
  - pose proof (to_uint_not_nil p).
    rewrite string_of_uint_not_nil by done. split; [|apply string_of_uint_plain].
    by destruct (Pos.to_uint p).
  - pose proof (to_uint_not_nil p).
    rewrite string_of_uint_not_nil by done. split; [done|].
    apply string_of_uint_plain.
Qed.

(** ** [save_ns_table] and [load_ns_table] *)

Lemma parse_line_format e :
  plain_word (e_word e) → parse_line (format_entry e) = Some e.
Proof.
  intros Hw. destruct e as [[w fr] ns]. unfold parse_line, format_entry.
  cbn [e_word e_freq e_slots fst snd] in *.
  rewrite split_three by (done || apply str_of_int_plain).
  change (getitem [w; str_of_int fr; str_of_int ns] 0) with (Some w).
  change (getitem [w; str_of_int fr; str_of_int ns] 1) with (Some (str_of_int fr)).
  change (getitem [w; str_of_int fr; str_of_int ns] 2) with (Some (str_of_int ns)).
  cbn [mbind option_bind]. by rewrite !int_of_str_of_int.
Qed.

Lemma format_entry_line e :
  plain_word (e_word e) →
  ∃ l, has_newline l = false ∧ format_entry e = l +:+ String newline "".
Proof.
  intros [_ Hw]. destruct e as [[w fr] ns]. unfold format_entry.
  cbn [e_word e_freq e_slots fst snd] in *.
  exists (w +:+ " " +:+ str_of_int fr +:+ " " +:+ str_of_int ns). split.
  - rewrite !has_newline_app.
    rewrite (has_space_newline w) by done.
    rewrite (has_space_newline (str_of_int fr)) by apply str_of_int_plain.
    by rewrite (has_space_newline (str_of_int ns)) by apply str_of_int_plain.
  - by rewrite !app_assoc_str.
Qed.

Lemma readlines_save table :
  Forall (λ e, plain_word (e_word e)) table →
  readlines (save_ns_table table) = format_entry <$> table.
Proof.
  unfold readlines, save_ns_table. induction 1 as [|e table He _ IH]; [done|].
  cbn [fmap list_fmap foldr].
  destruct (format_entry_line e He) as (l & Hl & ->).
  rewrite app_assoc_str. change (String newline "" +:+ ?s) with (String newline s).
  rewrite readlines_go_line by done. by rewrite IH.
Qed.

Lemma mapM_parse_format table :
  Forall (λ e, plain_word (e_word e)) table →
  mapM parse_line (format_entry <$> table) = Some table.
Proof.
  induction 1 as [|e table He _ IH]; [done|].
  cbn [fmap list_fmap mapM]. rewrite parse_line_format by done.
  cbn [mbind option_bind]. rewrite IH. done.
Qed.

Lemma parse_line_plain l e : parse_line l = Some e → plain_word (e_word e).
Proof.
  unfold parse_line. pose proof (split_plain l) as Hs.
  destruct (split l) as [|w t]; [done|].
  apply Forall_cons in Hs as [Hw _].
  change (getitem (w :: t) 0) with (Some w). cbn [mbind option_bind].
  destruct (getitem (w :: t) 1 ≫= int_of_str); [|done].
  destruct (getitem (w :: t) 2 ≫= int_of_str); [|done].
  by intros [= <-].
Qed.

Lemma load_ns_table_plain file table :
  load_ns_table file = Some table → Forall (λ e, plain_word (e_word e)) table.
Proof.
  unfold load_ns_table. intros H%mapM_Some.
  induction H as [|l e ls table Hl _ IH]; constructor; [|done].
  by eapply parse_line_plain.
Qed.

Lemma load_save table :
  Forall (λ e, plain_word (e_word e)) table →
  load_ns_table (save_ns_table table) = Some table.
Proof.
  intros Ht. unfold load_ns_table. rewrite readlines_save by done.
  by apply mapM_parse_format.
Qed.

(** A table that was loaded from any file is one that round-trips: its
    words come out of [split]. *)
Lemma load_save_load file table :
  load_ns_table file = Some table →
  load_ns_table (save_ns_table table) = Some table.
Proof. intros H. by apply load_save, (load_ns_table_plain file). Qed.

(** C8 (amended): for every sampling table whose words are not empty and
    hold no whitespace (the frequencies and slots being any integers),
    saving the table and loading the text yields the identical ordered list
    of triples, and saving what was loaded writes the same text again. *)
Theorem save_load_roundtrip table :
  Forall (λ e, plain_word (e_word e)) table →
  load_ns_table (save_ns_table table) = Some table ∧
  save_ns_table <$> load_ns_table (save_ns_table table) = Some (save_ns_table table).
Proof. intros Ht. by rewrite load_save. Qed.

Lemma parse_line_fields l :
  parse_line l =
  match split l with
  | w :: fr :: ns :: _ => f ← int_of_str fr; n ← int_of_str ns; Some (w, f, n)
  | _ => None
  end.
Proof.
  unfold parse_line. destruct (split l) as [|w [|fr [|ns rest]]]; try done.
  change (getitem [w; fr] 0) with (Some w).
  change (getitem [w; fr] 1) with (Some fr).
  change (getitem [w; fr] 2) with (@None string).
  cbn [mbind option_bind]. by destruct (int_of_str fr).
Qed.

Lemma parse_line_accepted l : is_Some (parse_line l) ↔ accepted_line l.
Proof.
  rewrite parse_line_fields. unfold accepted_line.
  destruct (split l) as [|w [|fr [|ns rest]]].
  1-3: split; [by intros [? [=]]|by intros (?&?&?&?&[=]&_)].
  split.
  - intros [e He]. exists w, fr, ns, rest. split; [done|].
    destruct (int_of_str fr); [|done]. destruct (int_of_str ns); [|done].
    split; eauto.
  - intros (?&?&?&?&[= <- <- <- <-]&[? ->]&[? ->]). cbn. eauto.
Qed.

(** C9 (amended): [load_ns_table] succeeds exactly when every line has at
    least three fields of which the second and the third are integers;
    otherwise it fails and returns no table; when it succeeds, the table has
    one entry per line, read from that line. *)
Theorem load_ns_table_accepts file :
  (is_Some (load_ns_table file) ↔ Forall accepted_line (readlines file)) ∧
  (¬ Forall accepted_line (readlines file) → load_ns_table file = None) ∧
  (∀ table, load_ns_table file = Some table →
     Forall2 (λ l e, parse_line l = Some e) (readlines file) table).
Proof.
  assert (is_Some (load_ns_table file) ↔ Forall accepted_line (readlines file)) as H.
  { unfold load_ns_table. rewrite mapM_is_Some. apply Forall_proper; [|done].
    intros l. apply parse_line_accepted. }
  split_and!; [done| |].
  - intros Hn. destruct (load_ns_table file) eqn:E; [|done].
    exfalso. apply Hn, H. eauto.
  - intros table Ht. by apply mapM_Some.
Qed.

(** C8, witness: a table of two entries. *)
Lemma save_load_roundtrip_witness :
  load_ns_table (save_ns_table table_small)
    = Some table_small ∧
  save_ns_table <$> load_ns_table (save_ns_table table_small)
    = Some (save_ns_table table_small).
Proof.
  apply (save_load_roundtrip table_small).
  unfold table_small. repeat constructor; done.
Defined.

(** C8, counterexample: the empty word holds no whitespace, yet the line
    saved for it has two fields only and does not load; and a file with a
    leading zero and a doubled blank loads, but is not the text that saving
    the loaded table writes. *)
Lemma roundtrip_needs_plain_words_and_canonical_text :
  has_space "" = false ∧
  load_ns_table (save_ns_table [("", 1, 1)]%Z) = None ∧
  load_ns_table "a 01  2
" = Some [("a", 1, 2)]%Z ∧
  save_ns_table [("a", 1, 2)]%Z ≠ "a 01  2
".
Proof. split_and!; by vm_compute. Qed.

(** C9, counterexample: a line of four fields is loaded, the fourth field
    ignored. *)
Lemma load_ns_table_ignores_extra_fields :
  length (split "a 1 2 extra
") = 4 ∧
  load_ns_table "a 1 2 extra
" = Some [("a", 1, 2)]%Z.
Proof. by vm_compute. Qed.

(** ** The generator *)

Lemma elem_of_enumerate {A} (l : list A) i x :
  (i, x) ∈ enumerate l ↔ (0 ≤ i)%Z ∧ l !! Z.to_nat i = Some x.
Proof.
  unfold enumerate. rewrite list_elem_of_lookup. split.
  - intros [k Hk]. apply lookup_zip_with_Some in Hk as (i' & x' & [= <- <-] & Hi & Hx).
    apply lookup_seqZ in Hi as [-> ?]. rewrite Z.add_0_l, Nat2Z.id. split; [lia|done].
  - intros [Hi Hx]. exists (Z.to_nat i). apply lookup_zip_with_Some.
    exists i, x. split_and!; [done| |done].
    apply lookup_seqZ. apply lookup_lt_Some in Hx. lia.
Qed.

Lemma getitem_nonneg {A} (l : list A) i :
  (0 ≤ i)%Z → getitem l i = l !! Z.to_nat i.
Proof. intros. unfold getitem. by rewrite (proj2 (Z.ltb_ge i 0)). Qed.

Lemma getitem_elem {A} (l : list A) i x : getitem l i = Some x → x ∈ l.
Proof.
  unfold getitem. destruct (i <? 0)%Z.
  - destruct (_ <? 0)%Z; [done|]. apply list_elem_of_lookup_2.
  - apply list_elem_of_lookup_2.
Qed.

Lemma elem_of_range a b j : j ∈ range a b ↔ (a ≤ j < b)%Z.
Proof. unfold range. rewrite elem_of_seqZ. lia. Qed.

Lemma preserves_bind {A B} I (m : Gen A) (k : A → Gen B) :
  preserves I m → (∀ a, preserves I (k a)) → preserves I (m ≫= k).
Proof.
  intros Hm Hk s Hs. unfold mbind, gen_bind, gbind.
  specialize (Hm s Hs). destruct (m s) as [a s'|e s']; [by apply Hk|done].
Qed.

Lemma preserves_get {A} I (k : gen_state → Gen A) :
  (∀ s, I s → post I (k s s)) → preserves I (get ≫= k).
Proof. intros Hk s Hs. by apply Hk. Qed.

Lemma preserves_ret {A} I (a : A) : preserves I (gret a).
Proof. by intros s Hs. Qed.

Lemma preserves_raise {A} I e : preserves I (raise (A:=A) e).
Proof. by intros s Hs. Qed.

Lemma preserves_for_each {A} I (l : list A) body :
  (∀ x, x ∈ l → preserves I (body x)) → preserves I (for_each l body).
Proof.
  induction l as [|x l IH]; intros Hb; simpl.
  - apply preserves_ret.
  - apply preserves_bind; [apply Hb; left|].
    intros _. apply IH. intros y Hy. apply Hb. by right.
Qed.

Section generator_invariant.
Variable rand_widths : nat → list Z.
Variable rand_unif : nat → list R.
Variable g : SGNSContextGenerator.

Variable P : Z → Z → Prop.

Lemma gen_inv_initial : gen_inv rand_widths P initial_state.
Proof. by split_and!; constructor. Qed.

Lemma draw_widths_inv : preserves (gen_inv rand_widths P) (draw_widths rand_widths g).
Proof.
  apply preserves_get. intros s (Ho & Hy & Hw). cbv beta.
  case_bool_decide; [|done].
  split_and!; [done..|]. simpl.
  apply Forall_forall. intros w Hin. by exists (draws s).
Qed.

Lemma emit_pair_inv t c : P t c → preserves (gen_inv rand_widths P) (emit_pair rand_widths g t c).
Proof.
  intros Hp. apply preserves_get. intros s (Ho & Hy & Hw).
  assert (Forall2 P (out_t s ++ [t]) (out_c s ++ [c])) as Ho'.
  { apply Forall2_app; [done|]. by repeat constructor. }
  cbv beta zeta. case_bool_decide; [|by split_and!].
  apply preserves_bind; [| |by split_and!].
  - intros s' _. split_and!; [exact Ho'| |done].
    apply Forall_app. split; [done|by repeat constructor].
  - intros _. apply preserves_bind; [apply draw_widths_inv|].
    intros _. apply preserves_get. intros s' (Ho'' & Hy' & Hw').
    split_and!; [constructor|done..].
Qed.

Lemma put_inv s' : gen_inv rand_widths P s' → preserves (gen_inv rand_widths P) (put s').
Proof. by intros Hs' s _. Qed.
End generator_invariant.

Section generator_pairs.
Variable rand_widths : nat → list Z.
Variable rand_unif : nat → list R.
Variable g : SGNSContextGenerator.

Local Abbreviation pair_inv := (gen_inv rand_widths (window_pair rand_widths rand_unif g)).

Lemma position_inv n line i :
  readlines (corpus g) !! n = Some line → (0 ≤ i)%Z →
  preserves pair_inv (position rand_widths g (encoded_line rand_unif g n line) i).
Proof.
  intros Hline Hi. apply preserves_get. intros s (Ho & Hy & Hw). cbv beta.
  destruct (getitem (widths s) (width_ix s)) as [w|] eqn:Hget; [|by split_and!].
  assert (∃ k, w ∈ rand_widths k) as Hdrawn.
  { apply getitem_elem in Hget. rewrite Forall_forall in Hw. by apply Hw. }
  apply preserves_bind; [by apply put_inv| |by split_and!].
  intros _. cbv zeta. apply preserves_for_each. intros j [Hj1 Hj2]%elem_of_range.
  case_bool_decide as Hji; [|apply preserves_ret].
  rewrite !getitem_nonneg by lia.
  destruct (encoded_line rand_unif g n line !! Z.to_nat i) as [t|] eqn:Ht;
    [|apply preserves_raise].
  destruct (encoded_line rand_unif g n line !! Z.to_nat j) as [c|] eqn:Hc;
    [|apply preserves_raise].
  apply emit_pair_inv. exists n, line, (Z.to_nat i), (Z.to_nat j), w.
  split_and!; [done..|lia|lia|lia].
Qed.

Lemma process_line_inv nl :
  nl ∈ enumerate (readlines (corpus g)) →
  preserves pair_inv (process_line rand_widths rand_unif g nl).
Proof.
  destruct nl as [n line]. intros [Hn Hline]%elem_of_enumerate.
  apply preserves_get. intros s Hs. cbv beta zeta.
  apply preserves_bind; [apply put_inv, Hs| |done].
  intros _. apply preserves_for_each. intros [i t] [Hi _]%elem_of_enumerate.
  by apply position_inv.
Qed.

Lemma final_batch_inv : preserves pair_inv (final_batch).
Proof.
  apply preserves_get. intros s (Ho & Hy & Hw). cbv beta.
  case_bool_decide; [|by split_and!].
  split_and!; [done| |done]. apply Forall_app. split; [done|by repeat constructor].
Qed.

Lemma run_batches_inv : post pair_inv (run_batches rand_widths rand_unif g).
Proof.
  unfold run_batches.
  apply preserves_bind; [apply draw_widths_inv| |apply gen_inv_initial].
  intros _. apply preserves_bind; [|intros _; apply final_batch_inv].
  apply preserves_for_each. intros nl Hnl. by apply process_line_inv.
Qed.

Lemma batches_pairs :
  Forall (λ b, Forall2 (window_pair rand_widths rand_unif g) b.1 b.2)
         (batches rand_widths rand_unif g).1.
Proof.
  unfold batches. pose proof run_batches_inv as H.
  destruct (run_batches rand_widths rand_unif g); apply H.
Qed.
End generator_pairs.

(** ** Dictionaries built by a loop of insertions *)

Section insert_loop.
Context {A V : Type}.
Variable key : A → string.
Variable val : A → V.

Lemma foldl_insert_lookup (l : list A) (m0 : gmap string V) w :
  foldl (λ m e, <[key e := val e]> m) m0 l !! w =
  match last (filter (λ e, key e = w) l) with
  | Some e => Some (val e)
  | None => m0 !! w
  end.
Proof.
  revert m0. induction l as [|x l IH]; intros m0; [done|].
  cbn [foldl]. rewrite IH, filter_cons.
  destruct (decide (key x = w)) as [Hx|Hx].
  - destruct (filter (λ e, key e = w) l) as [|y l'] eqn:E.
    + cbn. by rewrite Hx, lookup_insert_eq.
    + rewrite last_cons_cons.
      destruct (last (y :: l')) eqn:El; [done|]. by apply last_None in El.
  - destruct (last (filter (λ e, key e = w) l)); [done|].
    by rewrite lookup_insert_ne.
Qed.

Lemma foldl_insert_dom (l : list A) (m0 : gmap string V) :
  dom (foldl (λ m e, <[key e := val e]> m) m0 l) = dom m0 ∪ list_to_set (key <$> l).
Proof.
  revert m0. induction l as [|x l IH]; intros m0; cbn [foldl fmap list_fmap list_to_set].
  - by rewrite (right_id_L ∅ (∪)).
  - rewrite IH, dom_insert_L.
    by rewrite (comm_L (∪) {[key x]} (dom m0)), (assoc_L (∪)).
Qed.

Lemma filter_none (P : A → Prop) `{∀ x, Decision (P x)} (l : list A) :
  Forall (λ x, ¬ P x) l → filter P l = [].
Proof.
  induction 1 as [|x l Hx _ IH]; [done|].
  by rewrite filter_cons, decide_False.
Qed.

Lemma last_filter_last_occurrence (l : list A) i e :
  l !! i = Some e →
  (∀ j e', i < j → l !! j = Some e' → key e' ≠ key e) →
  last (filter (λ e', key e' = key e) l) = Some e.
Proof.
  intros Hi Hlast. rewrite <- (take_drop_middle l i e Hi), filter_app, filter_cons.
  rewrite decide_True by done.
  assert (filter (λ e', key e' = key e) (drop (S i) l) = []) as ->.
  { apply filter_none, Forall_forall. intros e' [j Hj]%list_elem_of_lookup.
    rewrite lookup_drop in Hj. apply (Hlast _ _ (Nat.lt_lt_add_r _ _ _ (Nat.lt_succ_diag_r i))) in Hj.
    done. }
  by rewrite last_snoc.
Qed.
End insert_loop.

(** ** The pruning probabilities *)

Lemma div_ge_1 a b : (0 < b)%R → (b <= a)%R → (1 <= a / b)%R.
Proof.
  intros Hb Hab. replace (a / b)%R with (1 + (a - b) * / b)%R by (field; lra).
  assert (0 <= (a - b) * / b)%R; [|lra].
  apply Rmult_le_pos; [lra|]. left. by apply Rinv_0_lt_compat.
Qed.

Lemma prune_prob_nonpos t N f :
  (0 < f)%Z → (IZR f <= t * IZR N)%R → (prune_prob t N f <= 0)%R.
Proof.
  intros Hf Hle. unfold prune_prob.
  assert (0 < IZR f)%R as Hf' by (by apply IZR_lt).
  assert (1 <= t * IZR N / IZR f)%R as H1.
  { by apply div_ge_1. }
  pose proof (sqrt_le_1_alt _ _ H1) as Hs. rewrite sqrt_1 in Hs. lra.
Qed.


Lemma init_Some ns_table p c g :
  init ns_table p c = Some g →
  Forall (λ e, e_freq e ≠ 0%Z) ns_table ∧
  corpus g = c ∧
  voc g = foldl (λ m ie, <[e_word ie.2 := ie.1]> m) ∅ (enumerate ns_table) ∧
  g_batch_size g = batch_size p ∧ g_ctx_width g = ctx_width p ∧
  g_lowercase g = lowercase p ∧
  prune_probs g =
    foldl (λ m e, <[e_word e :=
                      prune_prob (prune_threshold p) (sumZ (e_freq <$> ns_table)) (e_freq e)]> m)
          ∅ ns_table.
Proof.
  unfold init. case_bool_decide; [|done]. intros [= <-]. by split_and!.
Qed.




Lemma init_table_small p c :
  init table_small p c = Some (new_generator table_small p c).
Proof. unfold init. rewrite bool_decide_eq_true_2; [done|]. by repeat constructor. Qed.





(** ** Runs of the generator on small corpora *)

Lemma prune_all_kept g ps tokens :
  length tokens ≤ length ps →
  Forall (λ x, (0 <= x)%R) ps →
  (∀ w, (default 0 (prune_probs g !! w) <= 0)%R) →
  prune g ps tokens = tokens.
Proof.
  intros Hlen Hps Hprob. unfold prune.
  revert ps Hlen Hps. induction tokens as [|w tokens IH]; intros ps Hlen Hps; [done|].
  destruct ps as [|x ps]; [simpl in Hlen; lia|].
  apply Forall_cons in Hps as [Hx Hps]. cbn [zip zip_with].
  rewrite filter_cons, decide_True by (simpl; specialize (Hprob w); lra).
  cbn [fmap list_fmap fst]. f_equal. apply IH; [simpl in Hlen; lia|done].
Qed.

Lemma prune_probs_nonpos ns_table p c g :
  init ns_table p c = Some g →
  Forall (λ e, (0 < e_freq e)%Z ∧
               (IZR (e_freq e) <= prune_threshold p * IZR (sumZ (e_freq <$> ns_table)))%R)
         ns_table →
  ∀ w, (default 0 (prune_probs g !! w) <= 0)%R.
Proof.
  intros (_&_&_&_&_&_&->)%init_Some Hall w. rewrite foldl_insert_lookup.
  destruct (last _) as [e|] eqn:El; [|rewrite lookup_empty; simpl; lra].
  apply last_Some in El as [l' El].
  assert (e ∈ ns_table) as He.
  { eapply (list_elem_of_filter (λ e, e_word e = w)). rewrite El.
    apply elem_of_app. right. left. }
  rewrite Forall_forall in Hall. destruct (Hall e He). simpl.
  by apply prune_prob_nonpos.
Qed.

Lemma encoded_line_unpruned ns_table p c g n line :
  init ns_table p c = Some g →
  Forall (λ e, (0 < e_freq e)%Z ∧
               (IZR (e_freq e) <= prune_threshold p * IZR (sumZ (e_freq <$> ns_table)))%R)
         ns_table →
  length (split (if g_lowercase g then lower line else line)) ≤ 4 →
  encoded_line unif_zero g n line =
  encode g <$> split (if g_lowercase g then lower line else line).
Proof.
  intros Hg Hall Hlen. unfold encoded_line. f_equal.
  apply prune_all_kept; [done| |by eapply prune_probs_nonpos].
  unfold unif_zero. repeat constructor; lra.
Qed.

Lemma init_nonzero ns_table p c :
  Forall (λ e, e_freq e ≠ 0%Z) ns_table →
  init ns_table p c = Some (new_generator ns_table p c).
Proof. intros. unfold init. by rewrite bool_decide_eq_true_2. Qed.

(** No token of the small table is pruned under [params_wide]:
    frequencies 1 and 3, threshold 1, 4 tokens in all. *)
Lemma table_small_frequent :
  Forall (λ e, (0 < e_freq e)%Z ∧
               (IZR (e_freq e)
                <= prune_threshold params_wide * IZR (sumZ (e_freq <$> table_small)))%R)
         table_small.
Proof.
  change (sumZ (e_freq <$> table_small)) with 4%Z.
  change (prune_threshold params_wide) with 1%R. unfold table_small.
  repeat (constructor; [cbv [e_freq fst snd]; split; [lia|lra]|]). constructor.
Qed.

(** C1, counterexample: on the line ["a a a"] every batch holds the pair
    [(1, 1)]: the target index equals the context index. *)
Lemma repeated_word_pairs_with_itself :
  (batches widths_one unif_zero (new_generator table_small params_wide corpus_line)).1
  = [([1%Z], [1%Z]); ([1%Z], [1%Z]); ([1%Z], [1%Z]); ([1%Z], [1%Z])].
Proof.
  unfold batches, run_batches.
  change (enumerate (readlines (corpus (new_generator table_small params_wide corpus_line))))
    with [(0%Z, "a a a")].
  cbn [for_each]. unfold process_line. cbn [fst snd].
  rewrite (encoded_line_unpruned table_small params_wide corpus_line)
    by first [apply init_table_small|apply table_small_frequent|vm_compute; lia].
  by vm_compute.
Qed.

(** C2, the failing input: batch size 1 and three lines of one token each.
    No position produces a pair, so no batch is yielded and the widths are
    not redrawn; the second position reads [widths[1]] of an array of
    length 1 and the generator ends with [IndexError]. *)
Lemma single_token_lines_exhaust_widths :
  batches widths_one unif_zero (new_generator table_small params_wide corpus_single)
  = ([], Some IndexError).
Proof.
  unfold batches, run_batches.
  change (enumerate (readlines (corpus (new_generator table_small params_wide corpus_single))))
    with [(0%Z, String "a" (String newline "")); (1%Z, String "a" (String newline ""));
          (2%Z, String "a" (String newline ""))].
  cbn [for_each]. unfold process_line. cbn [fst snd].
  rewrite !(encoded_line_unpruned table_small params_wide corpus_single)
    by first [apply init_table_small|apply table_small_frequent|vm_compute; lia].
  by vm_compute.
Qed.

Lemma Forall2_zip_elem {A B} (P : A → B → Prop) l k x y :
  Forall2 P l k → (x, y) ∈ zip l k → P x y.
Proof.
  induction 1 as [|a b l k Hab _ IH]; cbn [zip zip_with].
  - by intros ?%not_elem_of_nil.
  - intros [[= -> ->]|Hin]%elem_of_cons; [done|by apply IH].
Qed.

(** ** When the widths suffice *)

Lemma runs_bind P Q R (m k : Gen unit) :
  runs P m Q → runs Q k R → runs P (m ;; k) R.
Proof.
  intros Hm Hk s Hs. destruct (Hm s Hs) as (s' & Hms & Hs').
  destruct (Hk s' Hs') as (s'' & Hks & Hs''). exists s''. split; [|done].
  unfold mbind, gen_bind, gbind. by rewrite Hms.
Qed.

Lemma runs_get P Q (k : gen_state → Gen unit) :
  (∀ s, P s → ∃ s', k s s = Ok tt s' ∧ Q s') → runs P (get ≫= k) Q.
Proof. intros Hk s Hs. by apply Hk. Qed.

Lemma runs_put_then P s1 (k : Gen unit) Q s :
  P s1 → runs P k Q → ∃ s', (put s1 ;; k) s = Ok tt s' ∧ Q s'.
Proof. intros Hs1 Hk. destruct (Hk s1 Hs1) as (s' & ? & ?). by exists s'. Qed.

Lemma runs_weaken (P P' Q Q' : gen_state → Prop) m :
  runs P' m Q' → (∀ s, P s → P' s) → (∀ s, Q' s → Q s) → runs P m Q.
Proof.
  intros Hm HP HQ s Hs. destruct (Hm s (HP s Hs)) as (s' & ? & ?). eauto.
Qed.

Lemma runs_for_each {A} I (l : list A) body :
  (∀ x, x ∈ l → runs I (body x) I) → runs I (for_each l body) I.
Proof.
  induction l as [|x l IH]; intros Hb.
  - intros s Hs. by exists s.
  - cbn [for_each]. eapply runs_bind; [apply Hb; left|].
    apply IH. intros y Hy. apply Hb. by right.
Qed.

Section widths_suffice.
Variable rand_widths : nat → list Z.
Variable rand_unif : nat → list R.
Variable g : SGNSContextGenerator.
Hypothesis batch_size_pos : (1 ≤ g_batch_size g)%Z.
Hypothesis ctx_width_pos : (1 ≤ g_ctx_width g)%Z.
Hypothesis draw_size : ∀ k, Z.of_nat (length (rand_widths k)) = g_batch_size g.

Lemma draw_widths_runs (P : gen_state → Prop) :
  runs P (draw_widths rand_widths g)
       (λ s', ∃ s, P s ∧ s' = {| widths := rand_widths (draws s); width_ix := width_ix s;
                                out_t := out_t s; out_c := out_c s; yielded := yielded s;
                                draws := S (draws s); word_count := word_count s |}).
Proof.
  apply runs_get. intros s Hs. rewrite bool_decide_eq_true_2 by lia. eauto.
Qed.

Hypothesis draw_range : ∀ k, Forall (λ w, 1 ≤ w)%Z (rand_widths k).

Lemma emit_pair_runs t c :
  runs (widths_inv g 1) (emit_pair rand_widths g t c) (widths_inv g 0).
Proof.
  apply runs_get. intros s (Hw & Hr & Hix & Hlen). cbv zeta.
  case_bool_decide as Hfull.
  - unfold mbind, gen_bind, gbind, put, draw_widths, get.
    rewrite bool_decide_eq_true_2 by lia. cbn.
    eexists. split; [done|].
    split_and!; cbn; first [apply draw_size|apply draw_range|lia].
  - eexists. split; [done|]. rewrite length_app in *. cbn in *.
    split_and!; cbn; try rewrite length_app; cbn; first [done|lia].
Qed.

Lemma widths_inv_slack s : widths_inv g 0 s → widths_inv g 1 s.
Proof. intros (?&?&?&?). split_and!; first [done|lia]. Qed.

(** The body of [for j in range(start, end)]. *)
Lemma pair_runs encoded i j :
  (0 ≤ i < Z.of_nat (length encoded))%Z → (0 ≤ j < Z.of_nat (length encoded))%Z →
  j ≠ i →
  runs (widths_inv g 1)
       (if bool_decide (j ≠ i) then
          match getitem encoded i, getitem encoded j with
          | Some t, Some c => emit_pair rand_widths g t c
          | _, _ => raise IndexError
          end
        else gret tt)
       (widths_inv g 0).
Proof.
  intros Hi Hj Hne. rewrite bool_decide_eq_true_2 by done.
  rewrite !getitem_nonneg by lia.
  destruct (lookup_lt_is_Some_2 encoded (Z.to_nat i)) as [t ->]; [lia|].
  destruct (lookup_lt_is_Some_2 encoded (Z.to_nat j)) as [c ->]; [lia|].
  apply emit_pair_runs.
Qed.

Lemma pairs_run encoded i js :
  (0 ≤ i < Z.of_nat (length encoded))%Z →
  Forall (λ j, 0 ≤ j < Z.of_nat (length encoded))%Z js →
  runs (widths_inv g 0)
       (for_each js (λ j,
          if bool_decide (j ≠ i) then
            match getitem encoded i, getitem encoded j with
            | Some t, Some c => emit_pair rand_widths g t c
            | _, _ => raise IndexError
            end
          else gret tt))
       (widths_inv g 0).
Proof.
  intros Hi Hjs. apply runs_for_each. intros j Hj.
  rewrite Forall_forall in Hjs. specialize (Hjs j Hj).
  destruct (decide (j = i)) as [->|Hne].
  - rewrite bool_decide_eq_false_2 by (by intros []). intros s Hs. by exists s.
  - eapply runs_weaken; [by apply pair_runs|apply widths_inv_slack|done].
Qed.

(** Once a position has a neighbour in its window, the pairs it emits make
    up for the width it read. *)
Lemma first_pair_runs encoded i js :
  (0 ≤ i < Z.of_nat (length encoded))%Z →
  Forall (λ j, 0 ≤ j < Z.of_nat (length encoded))%Z js →
  Exists (λ j, j ≠ i) js →
  runs (widths_inv g 1)
       (for_each js (λ j,
          if bool_decide (j ≠ i) then
            match getitem encoded i, getitem encoded j with
            | Some t, Some c => emit_pair rand_widths g t c
            | _, _ => raise IndexError
            end
          else gret tt))
       (widths_inv g 0).
Proof.
  intros Hi Hjs Hex. induction js as [|j js IH]; [by apply Exists_nil in Hex|].
  apply Forall_cons in Hjs as [Hj Hjs]. cbn [for_each].
  destruct (decide (j = i)) as [->|Hne].
  - apply Exists_cons in Hex as [?|Hex]; [done|].
    eapply runs_bind; [|by apply IH].
    rewrite bool_decide_eq_false_2 by (by intros []). intros s Hs. by exists s.
  - eapply runs_bind; [by apply pair_runs|by apply pairs_run].
Qed.

Lemma position_runs encoded i :
  (0 ≤ i < Z.of_nat (length encoded))%Z → (2 ≤ Z.of_nat (length encoded))%Z →
  runs (widths_inv g 0) (position rand_widths g encoded i) (widths_inv g 0).
Proof.
  intros Hi Hlen. apply runs_get. intros s (Hw & Hr & Hix & Hout).
  rewrite getitem_nonneg by lia.
  destruct (lookup_lt_is_Some_2 (widths s) (Z.to_nat (width_ix s))) as [w Hwix]; [lia|].
  rewrite Hwix.
  assert (1 ≤ w)%Z as Hw1.
  { rewrite Forall_forall in Hr. by eapply Hr, list_elem_of_lookup_2. }
  cbv zeta. eapply (runs_put_then (widths_inv g 1)).
  - split_and!; cbn; first [done|lia].
  - apply (first_pair_runs encoded i); [done| |].
    + apply Forall_forall. intros j Hj%elem_of_range. lia.
    + destruct (decide (i = 0%Z)) as [->|Hi0].
      * apply Exists_exists. exists 1%Z. split; [|done]. apply elem_of_range. lia.
      * apply Exists_exists. exists (i - 1)%Z. split; [|lia]. apply elem_of_range. lia.
Qed.

Lemma process_encoded_runs ntokens encoded :
  length encoded ≠ 1 →
  runs (widths_inv g 0) (process_encoded rand_widths g ntokens encoded) (widths_inv g 0).
Proof.
  intros Hlen. apply runs_get. intros s Hs.
  eapply (runs_put_then (widths_inv g 0)); [exact Hs|].
  apply runs_for_each.
  intros [i t] [Hi Ht%lookup_lt_Some]%elem_of_enumerate. cbn [fst].
  apply position_runs; lia.
Qed.

(** The reads of [widths] stay within bounds, and the generator ends
    without an exception, when the batch size and the context width are at
    least 1, every call of [np.random.randint] returns [batch_size] widths
    that are at least 1, and no pruned line is left with exactly one token. *)
Lemma widths_suffice :
  (∀ n line, readlines (corpus g) !! n = Some line →
             length (encoded_line rand_unif g n line) ≠ 1) →
  (batches rand_widths rand_unif g).2 = None.
Proof.
  intros Hlines.
  assert (runs (λ s, s = initial_state)
            (draw_widths rand_widths g ;;
             for_each (enumerate (readlines (corpus g)))
                      (process_line rand_widths rand_unif g) ;;
             final_batch)
            (λ _, True)) as Hrun.
  { eapply runs_bind; [apply draw_widths_runs|].
    eapply (runs_bind _ (widths_inv g 0)).
    - eapply runs_weaken; [apply (runs_for_each (widths_inv g 0))| |done].
      + intros [n line] [Hn Hline]%elem_of_enumerate.
        apply process_encoded_runs. by eapply Hlines.
      + intros s' (s & -> & ->). split_and!; cbn; first [apply draw_size|apply draw_range|lia].
    - apply runs_get. intros s _. case_bool_decide; by eexists. }
  destruct (Hrun initial_state eq_refl) as (s' & Hs' & _).
  unfold batches, run_batches. by rewrite Hs'.
Qed.
End widths_suffice.

(** ** The vocabulary of the generator *)

Lemma snd_enumerate {A} (l : list A) : (enumerate l).*2 = l.
Proof. unfold enumerate. apply snd_zip. rewrite length_seqZ. lia. Qed.

Lemma voc_range ns_table p c g w i :
  init ns_table p c = Some g → voc g !! w = Some i →
  (0 ≤ i < Z.of_nat (length ns_table))%Z.
Proof.
  intros (_&_&->&_)%init_Some.
  rewrite (foldl_insert_lookup (λ ie : Z * entry, e_word ie.2) fst), lookup_empty.
  destruct (last _) as [[i' e]|] eqn:El; [|done]. intros [= <-].
  apply last_Some in El as [l' El].
  assert ((i', e) ∈ enumerate ns_table) as Hin.
  { eapply (list_elem_of_filter (λ ie : Z * entry, e_word ie.2 = w)). rewrite El.
    apply elem_of_app. right. left. }
  apply elem_of_enumerate in Hin as [? Hi%lookup_lt_Some]. lia.
Qed.

Lemma voc_size_NoDup ns_table p c g :
  init ns_table p c = Some g → NoDup (e_word <$> ns_table) →
  vocabulary_size g = Z.of_nat (length ns_table).
Proof.
  intros (_&_&Hv&_)%init_Some Hnd. unfold vocabulary_size. f_equal.
  rewrite <- size_dom, Hv.
  rewrite (foldl_insert_dom (λ ie : Z * entry, e_word ie.2) fst).
  rewrite dom_empty_L, (left_id_L ∅ (∪)).
  replace ((λ ie : Z * entry, e_word ie.2) <$> enumerate ns_table)
    with (e_word <$> ns_table).
  - rewrite size_list_to_set by done. by rewrite length_fmap.
  - rewrite <- (snd_enumerate ns_table) at 1. by rewrite <- list_fmap_compose.
Qed.

Lemma encode_range ns_table p c g t :
  init ns_table p c = Some g → ns_table ≠ [] → NoDup (e_word <$> ns_table) →
  (0 ≤ encode g t < vocabulary_size g)%Z.
Proof.
  intros Hg Hne Hnd. rewrite (voc_size_NoDup _ _ _ _ Hg Hnd). unfold encode.
  destruct (voc g !! t) as [i|] eqn:Hi; simpl.
  - by eapply voc_range.
  - destruct ns_table; [done|]. simpl. lia.
Qed.

Lemma table_twice_frequent :
  Forall (λ e, (0 < e_freq e)%Z ∧
               (IZR (e_freq e)
                <= prune_threshold params_narrow * IZR (sumZ (e_freq <$> table_twice)))%R)
         table_twice.
Proof.
  change (sumZ (e_freq <$> table_twice)) with 4%Z.
  change (prune_threshold params_narrow) with 1%R. unfold table_twice.
  repeat (constructor; [cbv [e_freq fst snd]; split; [lia|lra]|]). constructor.
Qed.

(** ** Rounding *)

Lemma round_half_even_IZR z : round_half_even (IZR z) = z.
Proof.
  assert (up (IZR z) = z + 1)%Z as Hup.
  { symmetry. apply tech_up; rewrite plus_IZR; lra. }
  unfold round_half_even. rewrite Hup.
  replace (z + 1 - 1)%Z with z by lia.
  destruct (Rlt_dec (IZR z - IZR z) (1 / 2)); [done|lra].
Qed.

(** ** The slot counts *)

Lemma normaliser_nil p : normaliser p [] = 0%R.
Proof. reflexivity. Qed.

Lemma normaliser_cons p e l :
  normaliser p (e :: l) = (pow_freq e.2 (ns_exp p) + normaliser p l)%R.
Proof. reflexivity. Qed.

Lemma ns_freqs_fold p l (m0 : gmap string R) s0 :
  foldl (λ acc e, (<[e.1 := pow_freq e.2 (ns_exp p)]> acc.1,
                   (acc.2 + pow_freq e.2 (ns_exp p))%R)) (m0, s0) l =
  (foldl (λ m e, <[e.1 := pow_freq e.2 (ns_exp p)]> m) m0 l,
   (s0 + normaliser p l)%R).
Proof.
  revert m0 s0. induction l as [|e l IH]; intros m0 s0; cbn [foldl].
  - rewrite normaliser_nil. f_equal. lra.
  - rewrite IH, normaliser_cons. cbn [fst snd]. f_equal. lra.
Qed.

Lemma ns_freqs_sum p l : (ns_freqs p l).2 = normaliser p l.
Proof. unfold ns_freqs. rewrite ns_freqs_fold. cbn [snd]. lra. Qed.

Lemma freq_table_NoDup p corpus :
  (1 ≤ voc_size p)%Z →
  unk_str p ∉ (tail (freq_table p corpus)).*1 →
  NoDup (freq_table p corpus).*1.
Proof.
  intros Hv Hunk.
  assert (freq_table p corpus = (unk_str p, (hd ("", 0%Z) (freq_table p corpus)).2)
                                :: tail (freq_table p corpus)) as Hft by done.
  rewrite Hft. cbn [fmap list_fmap fst]. apply NoDup_cons. split; [done|].
  rewrite tail_freq_table by done.
  eapply sublist_NoDup; [apply (sorted_freqs_ok p corpus)|].
  apply fmap_sublist, sublist_take.
Qed.

Lemma sumZ_ge_1 l : l ≠ [] → Forall (λ z, 1 ≤ z)%Z l → (1 ≤ sumZ l)%Z.
Proof.
  intros Hne Hl. destruct Hl as [|z l Hz Hl]; [done|].
  change (sumZ (z :: l)) with (z + sumZ l)%Z.
  assert (0 ≤ sumZ l)%Z; [|lia]. clear Hne.
  induction Hl as [|z' l ? _ IH]; [done|].
  change (sumZ (z' :: l)) with (z' + sumZ l)%Z. lia.
Qed.

Lemma sorted_freqs_pos p corpus :
  Forall (λ e, 1 ≤ e.2)%Z (sorted_desc (corpus_freqs p corpus)).
Proof.
  apply Forall_forall. intros [w n] Hin.
  apply (counter_ok_elem _ _ _ _ (sorted_freqs_ok p corpus)) in Hin as [Hw ->].
  by apply raw_freq_pos.
Qed.

(** Every frequency of the table is at least 1. *)
Lemma freq_table_pos p corpus :
  (1 ≤ voc_size p)%Z → Forall (λ e, 1 ≤ e.2)%Z (freq_table p corpus).
Proof.
  intros Hv. pose proof (sorted_freqs_pos p corpus) as Hpos.
  unfold freq_table, freq_table_of, slice_from, slice_to.
  rewrite !slice_bound_nonneg by lia. constructor.
  - cbn [snd]. destruct (Z.gtb_spec (Z.of_nat (length (sorted_desc (corpus_freqs p corpus))))
                           (voc_size p - 1)) as [Hgt|]; [|done].
    apply sumZ_ge_1.
    + intros Hnil%fmap_nil_inv. apply (f_equal length) in Hnil.
      rewrite length_drop in Hnil. simpl in Hnil. lia.
    + apply Forall_fmap. by apply Forall_drop.
  - by apply Forall_take.
Qed.

Lemma pow_freq_one f : (0 < f)%Z → pow_freq f 1 = IZR f.
Proof. intros Hf. unfold pow_freq. apply Rpower_1. by apply IZR_lt. Qed.

(** The tables of the examples are the ones [make_ns_table] builds. *)
Lemma ns_slots_eval p l :
  ns_slots p l =
  (λ e, (e.1, e.2,
         round_half_even
           (default 0%R
              (foldl (λ (m : gmap string R) e, <[e.1 := pow_freq e.2 (ns_exp p)]> m)
                     ∅ l !! e.1)
            * (IZR (ns_table_size p) / normaliser p l)))) <$> l.
Proof.
  unfold ns_slots. rewrite ns_freqs_sum. unfold ns_freqs. by rewrite ns_freqs_fold.
Qed.

Lemma make_ns_table_small corpus :
  freq_table params_wide corpus = [("<UNKNOWN>", 1%Z); ("a", 3%Z)] →
  make_ns_table params_wide corpus = table_small.
Proof.
  intros Hft. unfold make_ns_table. rewrite Hft, ns_slots_eval.
  rewrite !normaliser_cons, normaliser_nil.
  cbn [foldl fst snd fmap list_fmap].
  rewrite lookup_insert_ne, !lookup_insert_eq by done. cbn [default from_option].
  change (ns_table_size params_wide) with 8%Z.
  change (ns_exp params_wide) with 1%R. rewrite !pow_freq_one by lia.
  change (Datatypes.id 1%R) with 1%R. change (Datatypes.id 3%R) with 3%R.
  replace (1 * (8 / (1 + (3 + 0))))%R with (IZR 2) by lra.
  replace (3 * (8 / (1 + (3 + 0))))%R with (IZR 6) by lra.
  by rewrite !round_half_even_IZR.
Qed.

Lemma make_ns_table_line : make_ns_table params_wide corpus_line = table_small.
Proof. apply make_ns_table_small. by vm_compute. Qed.

Lemma make_ns_table_single : make_ns_table params_wide corpus_single = table_small.
Proof. apply make_ns_table_small. by vm_compute. Qed.

Lemma make_ns_table_unknown : make_ns_table params_narrow corpus_unknown = table_twice.
Proof.
  unfold make_ns_table.
  replace (freq_table params_narrow corpus_unknown)
    with [("<UNKNOWN>", 1%Z); ("<UNKNOWN>", 3%Z)] by (by vm_compute).
  rewrite ns_slots_eval, !normaliser_cons, normaliser_nil.
  cbn [foldl fst snd fmap list_fmap].
  rewrite !lookup_insert_eq. cbn [default from_option].
  change (ns_table_size params_narrow) with 8%Z.
  change (ns_exp params_narrow) with 1%R. rewrite !pow_freq_one by lia.
  change (Datatypes.id 3%R) with 3%R.
  replace (3 * (8 / (1 + (3 + 0))))%R with (IZR 6) by lra.
  by rewrite !round_half_even_IZR.
Qed.

(** C7, the failing input: the corpus holds the unknown string itself
    (lowercasing off, a vocabulary of two, exponent 1, a table of size 8; all
    values below are exact in floating point).  The dictionary of line 67 is
    keyed by word, so the power stored for the sentinel, 1, is overwritten
    by that of the corpus word of the same name, 3, and line 81 gives both
    entries the slots of the second: the sentinel gets 6 slots where
    [round(8 * 1 / (1 + 3))] is 2, and the slots sum to 12 for a table of
    size 8, a drift of 4 over two entries. *)
Lemma shared_word_shares_slots :
  freq_table params_narrow corpus_unknown
    = [("<UNKNOWN>", 1%Z); ("<UNKNOWN>", 3%Z)] ∧
  make_ns_table params_narrow corpus_unknown
    = [("<UNKNOWN>", 1, 6); ("<UNKNOWN>", 3, 6)]%Z ∧
  round_half_even (IZR (ns_table_size params_narrow) * pow_freq 1 (ns_exp params_narrow)
                   / normaliser params_narrow (freq_table params_narrow corpus_unknown))
    = 2%Z ∧
  (INR 2 < Rabs (IZR (sumZ (e_slots <$> make_ns_table params_narrow corpus_unknown))
                 - IZR (ns_table_size params_narrow)))%R.
Proof.
  assert (freq_table params_narrow corpus_unknown
          = [("<UNKNOWN>", 1%Z); ("<UNKNOWN>", 3%Z)]) as Hft by (by vm_compute).
  split_and!; [done|apply make_ns_table_unknown| |].
  - rewrite Hft, !normaliser_cons, normaliser_nil. cbn [snd].
    change (ns_table_size params_narrow) with 8%Z.
    change (ns_exp params_narrow) with 1%R. rewrite !pow_freq_one by lia.
    replace (8 * 1 / (1 + (3 + 0)))%R with (IZR 2) by lra. apply round_half_even_IZR.
  - rewrite make_ns_table_unknown.
    change (sumZ (e_slots <$> table_twice)) with 12%Z.
    change (ns_table_size params_narrow) with 8%Z.
    change (INR 2) with (1 + 1)%R. rewrite <- minus_IZR. change (12 - 8)%Z with 4%Z.
    rewrite Rabs_pos_eq; lra.
Qed.

(** ** Nearest neighbours *)

Lemma two_word_ivoc ix w :
  make_ivoc two_word_voc !! ix = Some w → w = "a" ∨ w = "b".
Proof.
  assert (make_ivoc two_word_voc = (<[0%Z := "a"]> {[1%Z := "b"]})) as ->
    by (by vm_compute).
  intros [[_ <-]|[_ [_ <-]%lookup_singleton_Some]]%lookup_insert_Some; auto.
Qed.

(** C6, the failing input: two words with the same embedding, each queried
    for its nearest neighbour.  Whatever [sim_func] and [topk] compute, the
    two rows of scores are equal, the method drops the first column of
    both, and the one word left is the same for both queries: it is not the
    case that each query gets one neighbour other than itself. *)
Theorem nearest_neighbors_identical_embeddings {T}
    (sim_func : list T → list T → T) (topk : Z → list T → option (list (T * Z)))
    (x : list T) :
  ¬ ∃ ra rb,
      nearest_neighbors sim_func topk (two_word_model x) ["a"; "b"] 1 = Some [ra; rb] ∧
      length ra = 1 ∧ length rb = 1 ∧ ("a" ∉ ra.*1) ∧ ("b" ∉ rb.*1).
Proof.
  intros (ra & rb & Hnn & Hla & Hlb & Ha & Hb). unfold nearest_neighbors in Hnn.
  change (mapM (λ w, m_voc (two_word_model x) !! w) ["a"; "b"])
    with (Some [0%Z; 1%Z]) in Hnn.
  cbn [mbind option_bind] in Hnn.
  change (mapM (embedding (two_word_model x)) [0%Z; 1%Z]) with (Some [x; x]) in Hnn.
  cbn [mbind option_bind fmap list_fmap w_weight two_word_model Z.eqb] in Hnn.
  cbn [mapM] in Hnn.
  destruct (topk (1 + 1)%Z [sim_func x x; sim_func x x]) as [row|]; [|done].
  simpl in Hnn.
  match type of Hnn with
  | context [mapM ?f (drop 1 row)] =>
      destruct (mapM f (drop 1 row)) as [r|] eqn:Hr; [|done]
  end.
  simpl in Hnn. injection Hnn as <- <-.
  destruct r as [|[w v] [|]]; [done| |done].
  apply mapM_Some in Hr. apply Forall2_cons_inv_r in Hr as (vi & ? & Hvi & _ & _).
  cbn [ivoc two_word_model] in Hvi.
  destruct (make_ivoc two_word_voc !! vi.2) as [w'|] eqn:Hw; [|done].
  cbn in Hvi. injection Hvi as -> _.
  apply two_word_ivoc in Hw as [->| ->].
  - apply Ha. left.
  - apply Hb. left.
Qed.

(* ===================================================================== *)
(** * Part III: further properties of the code *)
(* ===================================================================== *)

(** ** The generator: the sizes of the batches *)

Lemma hoare_bind {A B} P Q R E (m : Gen A) (k : A → Gen B) :
  hoare P m Q E → (∀ a, hoare Q (k a) R E) → hoare P (m ≫= k) R E.
Proof.
  intros Hm Hk s Hs. unfold mbind, gen_bind, gbind.
  specialize (Hm s Hs). destruct (m s) as [a s'|e s']; [by apply Hk|done].
Qed.

Lemma hoare_get {A} P Q E (k : gen_state → Gen A) :
  (∀ s, P s → outcome_sat Q E (k s s)) → hoare P (get ≫= k) Q E.
Proof. intros Hk s Hs. by apply Hk. Qed.

Lemma hoare_ret {A} (Q : gen_state → Prop) E (a : A) : hoare Q (gret a) Q E.
Proof. by intros s Hs. Qed.

Lemma hoare_for_each {A} I E (l : list A) body :
  (∀ x, x ∈ l → hoare I (body x) I E) → hoare I (for_each l body) I E.
Proof.
  induction l as [|x l IH]; intros Hb; simpl.
  - apply hoare_ret.
  - eapply hoare_bind; [apply Hb; left|].
    intros _. apply IH. intros z Hz. apply Hb. by right.
Qed.

Lemma hoare_weaken {A} (P P' Q Q' : gen_state → Prop) (E E' : exn → gen_state → Prop)
    (m : Gen A) :
  hoare P' m Q' E' → (∀ s, P s → P' s) → (∀ s, Q' s → Q s) →
  (∀ e s, E' e s → E e s) → hoare P m Q E.
Proof.
  intros Hm HP HQ HE s Hs. specialize (Hm s (HP s Hs)).
  destruct (m s); simpl in *; eauto.
Qed.

Lemma preserves_hoare {A} I (m : Gen A) : preserves I m → hoare I m I (λ _, I).
Proof. intros Hm s Hs. specialize (Hm s Hs). by destruct (m s). Qed.

Section batch_sizes.
Variable rand_widths : nat → list Z.
Variable rand_unif : nat → list R.
Variable g : SGNSContextGenerator.

Lemma emit_pair_sizes t c :
  hoare (size_inv g) (emit_pair rand_widths g t c) (size_inv g) (raised_inv g).
Proof.
  apply hoare_get. intros s [Hy Ho]. cbv zeta.
  case_bool_decide as Hfull.
  - assert (full_inv g {| widths := widths s; width_ix := width_ix s;
                          out_t := out_t s ++ [t]; out_c := out_c s ++ [c];
                          yielded := yielded s ++ [(out_t s ++ [t], out_c s ++ [c])];
                          draws := draws s; word_count := word_count s |}) as Hy'.
    { apply Forall_app. split; [done|]. repeat constructor; cbn; [done|].
      rewrite <- Hfull, length_app. cbn. lia. }
    unfold mbind, gen_bind, gbind, put, draw_widths, get.
    case_bool_decide as Hcfg; cbn.
    + split; [done|]. cbn. rewrite length_app in Hfull. cbn in Hfull. lia.
    + split; [done|]. intros. lia.
  - split; [done|]. cbn. intros Hb. specialize (Ho Hb).
    rewrite length_app in *. cbn in *. lia.
Qed.

Lemma position_sizes encoded i :
  hoare (size_inv g) (position rand_widths g encoded i) (size_inv g) (raised_inv g).
Proof.
  apply hoare_get. intros s Hs. cbv beta.
  destruct (getitem (widths s) (width_ix s)) as [w|].
  - unfold mbind at 1, gen_bind, gbind, put. cbv zeta.
    apply hoare_for_each; [|exact Hs].
    intros j _. case_bool_decide; [|apply hoare_ret].
    destruct (getitem encoded i); [|by intros s' [Hy' _]].
    destruct (getitem encoded j); [|by intros s' [Hy' _]].
    apply emit_pair_sizes.
  - by destruct Hs.
Qed.

Lemma process_line_sizes nl :
  hoare (size_inv g) (process_line rand_widths rand_unif g nl) (size_inv g) (raised_inv g).
Proof.
  apply hoare_get. intros s Hs. unfold mbind at 1, gen_bind, gbind, put.
  apply hoare_for_each; [|exact Hs].
  intros it _. apply position_sizes.
Qed.

(** The state in which the run ends: full batches, then at most one batch
    that is not empty and, for a batch size of at least 1, not full. *)
Lemma run_batches_sizes :
  outcome_sat
    (λ s, ∃ full rest,
       yielded s = full ++ rest ∧
       Forall (full_batch g) full ∧
       (rest = [] ∨
        ∃ b, rest = [b] ∧ (0 < Z.of_nat (length b.1))%Z ∧
             (1 ≤ g_batch_size g → Z.of_nat (length b.1) < g_batch_size g)%Z))
    (raised_inv g)
    (run_batches rand_widths rand_unif g).
Proof.
  unfold run_batches.
  assert (size_inv g initial_state) as H0.
  { split; [constructor|]. cbn. lia. }
  revert H0. generalize initial_state.
  change (hoare (size_inv g)
            (draw_widths rand_widths g ;;
             for_each (enumerate (readlines (corpus g)))
                      (process_line rand_widths rand_unif g) ;;
             final_batch)
            (λ s, ∃ full rest,
               yielded s = full ++ rest ∧
               Forall (full_batch g) full ∧
               (rest = [] ∨
                ∃ b, rest = [b] ∧ (0 < Z.of_nat (length b.1))%Z ∧
                     (1 ≤ g_batch_size g → Z.of_nat (length b.1) < g_batch_size g)%Z))
            (raised_inv g)).
  eapply (hoare_bind _ (size_inv g)); [|intros _; eapply (hoare_bind _ (size_inv g))].
  - apply hoare_get. intros s Hs. case_bool_decide; [exact Hs|].
    split; [by destruct Hs|]. intros. lia.
  - apply hoare_for_each. intros nl _. apply process_line_sizes.
  - intros _. apply hoare_get. intros s [Hy Ho]. case_bool_decide as Hlen; cbn.
    + exists (yielded s), [(out_t s, out_c s)]. split_and!; [done..|].
      right. eexists. split_and!; [done|done|]. exact Ho.
    + exists (yielded s), []. rewrite app_nil_r. split_and!; auto.
Qed.
End batch_sizes.

Lemma batches_bounded rand_widths rand_unif g :
  Forall (λ b, (1 ≤ Z.of_nat (length b.1))%Z ∧
               (1 ≤ g_batch_size g → Z.of_nat (length b.1) ≤ g_batch_size g)%Z)
         (batches rand_widths rand_unif g).1.
Proof.
  pose proof (run_batches_sizes rand_widths rand_unif g) as H. unfold batches.
  destruct (run_batches rand_widths rand_unif g) as [[] s|e s]; cbn [fst snd outcome_sat] in *.
  - destruct H as (full & rest & -> & Hfull & Hrest). apply Forall_app. split.
    + eapply Forall_impl; [exact Hfull|]. intros b [? ?]. lia.
    + destruct Hrest as [->|(b & -> & ? & ?)]; repeat constructor; lia.
  - destruct H as [Hfull _].
    eapply Forall_impl; [exact Hfull|]. intros b [? ?]. lia.
Qed.

(** X1: every batch [batches] yields holds at least one pair and, for a
    batch size of at least 1, at most [batch_size] pairs; every batch but
    the last holds exactly [batch_size] pairs, and so does the last when
    the generator ends with an exception. *)
Theorem batches_sizes rand_widths rand_unif g :
  Forall (λ b, (1 ≤ Z.of_nat (length b.1))%Z ∧
               (1 ≤ g_batch_size g → Z.of_nat (length b.1) ≤ g_batch_size g)%Z)
         (batches rand_widths rand_unif g).1 ∧
  Forall (λ b, Z.of_nat (length b.1) = g_batch_size g)
         (take (length (batches rand_widths rand_unif g).1 - 1)
               (batches rand_widths rand_unif g).1) ∧
  ((batches rand_widths rand_unif g).2 ≠ None →
   Forall (λ b, Z.of_nat (length b.1) = g_batch_size g)
          (batches rand_widths rand_unif g).1).
Proof.
  pose proof (batches_bounded rand_widths rand_unif g) as Hbound.
  pose proof (run_batches_sizes rand_widths rand_unif g) as H. unfold batches in *.
  destruct (run_batches rand_widths rand_unif g) as [[] s|e s]; cbn [fst snd outcome_sat] in *.
  - destruct H as (full & rest & Hy & Hfull & Hrest). rewrite Hy in *.
    assert (Forall (λ b, Z.of_nat (length b.1) = g_batch_size g) full) as Hf.
    { eapply Forall_impl; [exact Hfull|]. by intros b [? ?]. }
    split_and!; [done| |done].
    + destruct Hrest as [->|(b & -> & ? & ?)].
      * rewrite app_nil_r. by apply Forall_take.
      * rewrite length_app. cbn [length].
        replace (length full + 1 - 1) with (length full) by lia.
        by rewrite take_app_length.
  - destruct H as [Hfull _].
    assert (Forall (λ b, Z.of_nat (length b.1) = g_batch_size g) (yielded s)) as Hf.
    { eapply Forall_impl; [exact Hfull|]. by intros b [? ?]. }
    split_and!; [done|by apply Forall_take|done].
Qed.



(** ** The generator: the word count *)

Lemma hoare_for_each_prefix {A} (I : list A → gen_state → Prop) E (l : list A) body :
  (∀ pre x rest, l = pre ++ x :: rest → hoare (I pre) (body x) (I (pre ++ [x])) E) →
  hoare (I []) (for_each l body) (I l) E.
Proof.
  intros Hb.
  assert (∀ rest pre, l = pre ++ rest → hoare (I pre) (for_each rest body) (I l) E) as H.
  { induction rest as [|x rest IH]; intros pre Hl.
    - rewrite app_nil_r in Hl. subst. apply hoare_ret.
    - cbn [for_each]. eapply hoare_bind; [by apply (Hb pre x rest)|].
      intros _. apply IH. by rewrite <- app_assoc. }
  by apply (H l []).
Qed.

Lemma tokens_upto_app g pre rest :
  tokens_upto g (pre ++ rest) = (tokens_upto g pre + tokens_upto g rest)%Z.
Proof. unfold tokens_upto. rewrite fmap_app, concat_app, length_app. lia. Qed.

Lemma tokens_upto_nonneg g pre : (0 ≤ tokens_upto g pre)%Z.
Proof. unfold tokens_upto. lia. Qed.

Lemma tokens_upto_all g :
  tokens_upto g (enumerate (readlines (corpus g))) = Z.of_nat (length (generator_tokens g)).
Proof.
  unfold tokens_upto, generator_tokens. do 3 f_equal.
  rewrite <- (snd_enumerate (readlines (corpus g))) at 2.
  by rewrite <- list_fmap_compose.
Qed.

Section word_count.
Variable rand_widths : nat → list Z.
Variable rand_unif : nat → list R.
Variable g : SGNSContextGenerator.

Lemma emit_pair_word_count n t c :
  preserves (λ s, word_count s = n) (emit_pair rand_widths g t c).
Proof.
  intros s Hs. unfold emit_pair, mbind, gen_bind, gbind, get, put, draw_widths.
  repeat case_bool_decide; done.
Qed.

Lemma position_word_count n encoded i :
  preserves (λ s, word_count s = n) (position rand_widths g encoded i).
Proof.
  apply preserves_get. intros s Hs. cbv beta.
  destruct (getitem (widths s) (width_ix s)) as [w|]; [|done].
  apply preserves_bind; [by intros ? _| |done].
  intros _. cbv zeta. apply preserves_for_each. intros j _.
  case_bool_decide; [|apply preserves_ret].
  destruct (getitem encoded i); [|apply preserves_raise].
  destruct (getitem encoded j); [|apply preserves_raise].
  apply emit_pair_word_count.
Qed.

Lemma process_line_word_count pre nl :
  hoare (λ s, word_count s = tokens_upto g pre)
        (process_line rand_widths rand_unif g nl)
        (λ s, word_count s = tokens_upto g (pre ++ [nl]))
        (λ _ s, word_count s = tokens_upto g (pre ++ [nl])).
Proof.
  apply hoare_get. intros s Hs. unfold mbind at 1, gen_bind, gbind, put.
  apply (preserves_hoare (λ s, word_count s = tokens_upto g (pre ++ [nl]))).
  - apply preserves_for_each. intros it _. apply position_word_count.
  - cbn. rewrite Hs, tokens_upto_app. f_equal.
    unfold tokens_upto. cbn. by rewrite app_nil_r.
Qed.
End word_count.

(** X3: when [batches] has run through the corpus, [word_count] is the
    number of tokens of the corpus, pruned or not; when it ends with an
    exception, [word_count] is the number of tokens of the lines read so
    far. *)
Theorem batches_word_count rand_widths rand_unif g :
  match run_batches rand_widths rand_unif g with
  | Ok _ s => word_count s = Z.of_nat (length (generator_tokens g))
  | Raised _ s => (0 ≤ word_count s ≤ Z.of_nat (length (generator_tokens g)))%Z
  end.
Proof.
  set (total := Z.of_nat (length (generator_tokens g))).
  assert (hoare (λ s, s = initial_state)
            (draw_widths rand_widths g ;;
             for_each (enumerate (readlines (corpus g)))
                      (process_line rand_widths rand_unif g) ;;
             final_batch)
            (λ s, word_count s = total)
            (λ _ s, 0 ≤ word_count s ≤ total)%Z) as H.
  { eapply (hoare_bind _ (λ s, word_count s = tokens_upto g [])).
    - apply hoare_get. intros s ->. case_bool_decide; cbn; [reflexivity|].
      unfold total. lia.
    - intros _. eapply (hoare_bind _ (λ s, word_count s = total)).
      + unfold total. rewrite <- tokens_upto_all.
        apply (hoare_for_each_prefix (λ pre s, word_count s = tokens_upto g pre)).
        intros pre nl rest Hl. eapply hoare_weaken;
          [apply (process_line_word_count rand_widths rand_unif g pre nl)|done|done|].
        intros _ s ->. cbv beta. rewrite Hl.
        replace (pre ++ nl :: rest) with ((pre ++ [nl]) ++ rest)
          by (by rewrite <- app_assoc).
        rewrite (tokens_upto_app g (pre ++ [nl]) rest).
        pose proof (tokens_upto_nonneg g (pre ++ [nl])).
        pose proof (tokens_upto_nonneg g rest). lia.
      + intros _. apply hoare_get. intros s Hs. by case_bool_decide. }
  specialize (H initial_state eq_refl). unfold run_batches.
  match goal with |- match ?o with _ => _ end => by destruct o as [[] s|e s] end.
Qed.

(** ** The generator: runs that end without an exception *)

(** X4: with a context width of at least 1 and a batch size that is not
    negative, a corpus none of whose lines keeps a token (an empty file,
    blank lines, or every token pruned) yields no batch and raises
    nothing. *)
Theorem batches_of_empty_lines rand_widths rand_unif g :
  (1 ≤ g_ctx_width g)%Z → (0 ≤ g_batch_size g)%Z →
  (∀ n line, readlines (corpus g) !! n = Some line →
             encoded_line rand_unif g n line = []) →
  batches rand_widths rand_unif g = ([], None).
Proof.
  intros Hcw Hbs Hlines.
  assert (runs (λ s, yielded s = [] ∧ out_t s = [])
            (for_each (enumerate (readlines (corpus g)))
                      (process_line rand_widths rand_unif g))
            (λ s, yielded s = [] ∧ out_t s = [])) as Hloop.
  { apply runs_for_each. intros [n line] [Hn Hl]%elem_of_enumerate.
    unfold process_line. cbn [fst snd]. rewrite (Hlines _ _ Hl).
    intros s Hs. eexists. split; [reflexivity|done]. }
  unfold batches, run_batches, draw_widths, mbind, gen_bind, gbind, get.
  rewrite bool_decide_eq_true_2 by lia. cbn [put].
  match goal with
  | |- context [for_each _ _ ?s1] => destruct (Hloop s1) as (s2 & -> & Hy & Ho); [done|]
  end.
  unfold final_batch, mbind, gen_bind, gbind, get. rewrite Ho.
  rewrite bool_decide_eq_false_2 by (cbn; lia). cbn. by rewrite Hy.
Qed.

(** X4, witness: a corpus of two blanks. *)
Lemma batches_of_empty_lines_witness :
  batches widths_one unif_zero (new_generator table_small params_wide "  ") = ([], None).
Proof.
  apply (batches_of_empty_lines widths_one unif_zero
           (new_generator table_small params_wide "  ")).
  - simpl. lia.
  - simpl. lia.
  - intros [|n] line H; [|discriminate]. injection H as <-. reflexivity.
Defined.

(** X5: the reads of [widths] stay within bounds and [batches] ends without
    an exception when the batch size and the context width are at least 1,
    every call of [np.random.randint] returns [batch_size] widths that are
    at least 1, and no line is left with exactly one token after
    pruning. *)
Theorem batches_ends_without_exception rand_widths rand_unif g :
  (1 ≤ g_batch_size g)%Z → (1 ≤ g_ctx_width g)%Z →
  (∀ k, Z.of_nat (length (rand_widths k)) = g_batch_size g) →
  (∀ k, Forall (λ w, 1 ≤ w)%Z (rand_widths k)) →
  (∀ n line, readlines (corpus g) !! n = Some line →
             length (encoded_line rand_unif g n line) ≠ 1) →
  (batches rand_widths rand_unif g).2 = None.
Proof. apply widths_suffice. Qed.

(** X5, witness: the line ["a a a"], batches of one pair, widths of 1. *)
Lemma batches_ends_without_exception_witness :
  (batches widths_one unif_zero (new_generator table_small params_wide corpus_line)).2
  = None.
Proof.
  apply (batches_ends_without_exception widths_one unif_zero
           (new_generator table_small params_wide corpus_line)).
  - simpl. lia.
  - simpl. lia.
  - intros k. reflexivity.
  - intros k. unfold widths_one. constructor; [lia|constructor].
  - intros [|n] line H; [|discriminate]. injection H as <-.
    rewrite (encoded_line_unpruned table_small params_wide corpus_line)
      by first [apply init_table_small|apply table_small_frequent|vm_compute; lia].
    vm_compute. lia.
Defined.

(** ** [prune] *)

(** X6: [prune] only removes tokens: what it returns is a subsequence of
    the tokens it is given, in their order, whatever the draws. *)
Theorem prune_sublist g ps tokens : sublist (prune g ps tokens) tokens.
Proof.
  unfold prune. revert ps. induction tokens as [|w tokens IH]; intros ps; [done|].
  destruct ps as [|x ps]; [apply sublist_nil_l|].
  cbn [zip zip_with]. rewrite filter_cons.
  destruct (decide _); cbn [fmap list_fmap fst].
  - apply sublist_skip, IH.
  - apply sublist_cons, IH.
Qed.

Lemma sumZ_elem_le l x : Forall (λ z, 0 < z)%Z l → x ∈ l → (x ≤ sumZ l)%Z.
Proof.
  induction 1 as [|z l Hz Hl IH]; [by intros ?%not_elem_of_nil|].
  change (sumZ (z :: l)) with (z + sumZ l)%Z.
  assert (0 ≤ sumZ l)%Z.
  { clear IH. induction Hl as [|z' l ? _ IH]; [done|].
    change (sumZ (z' :: l)) with (z' + sumZ l)%Z. lia. }
  intros [->|Hin]%elem_of_cons; [lia|]. specialize (IH Hin). lia.
Qed.

(** X7: a pruning threshold of at least 1 switches the sub-sampling off:
    for a table of positive frequencies every pruning probability is at
    most 0, and [prune] returns the tokens unchanged on any draws of
    [np.random.random] (which are not negative). *)
Theorem prune_threshold_one_keeps_all table p c g ps tokens :
  init table p c = Some g →
  Forall (λ e, 0 < e_freq e)%Z table →
  (1 <= prune_threshold p)%R →
  length tokens ≤ length ps →
  Forall (λ x, (0 <= x)%R) ps →
  prune g ps tokens = tokens.
Proof.
  intros Hg Hpos Ht Hlen Hps.
  apply prune_all_kept; [done..|].
  apply (prune_probs_nonpos table p c g Hg).
  apply Forall_forall. intros e He. rewrite Forall_forall in Hpos.
  split; [by apply Hpos|].
  assert (e_freq e ≤ sumZ (e_freq <$> table))%Z as Hle.
  { apply sumZ_elem_le; [by apply Forall_fmap, Forall_forall|].
    by apply list_elem_of_fmap_2. }
  apply IZR_le in Hle. pose proof (Hpos e He) as Hf. apply IZR_lt in Hf. nra.
Qed.

(** X7, witness: the small table, threshold 1. *)
Lemma prune_threshold_one_keeps_all_witness :
  prune (new_generator table_small params_wide corpus_line) [0%R; 0%R] ["a"; "b"]
  = ["a"; "b"].
Proof.
  apply (prune_threshold_one_keeps_all table_small params_wide corpus_line
           (new_generator table_small params_wide corpus_line) [0%R; 0%R] ["a"; "b"]).
  - reflexivity.
  - unfold table_small. repeat constructor.
  - simpl. lra.
  - simpl. lia.
  - repeat constructor; lra.
Defined.

(** ** The vocabulary: words and indices *)

Lemma enumerate_lookup {A} (l : list A) i z x :
  enumerate l !! i = Some (z, x) ↔ z = Z.of_nat i ∧ l !! i = Some x.
Proof.
  unfold enumerate. rewrite lookup_zip_with_Some. split.
  - intros (z' & x' & [= <- <-] & Hz & Hx). apply lookup_seqZ in Hz as [-> _].
    split; [lia|done].
  - intros [-> Hx]. exists (Z.of_nat i), x. split_and!; [done| |done].
    apply lookup_seqZ. apply lookup_lt_Some in Hx. lia.
Qed.

Lemma last_occurrence_exists {A} (key : A → string) (l : list A) w :
  w ∈ key <$> l →
  ∃ i e, l !! i = Some e ∧ key e = w ∧
         ∀ j e', i < j → l !! j = Some e' → key e' ≠ w.
Proof.
  induction l as [|x l IH]; [by intros ?%not_elem_of_nil|].
  intros Hin. destruct (decide (w ∈ key <$> l)) as [Hl|Hl].
  - destruct (IH Hl) as (i & e & Hi & He & Hlast). exists (S i), e.
    split_and!; [done..|].
    intros [|j] e' Hj He'; [lia|]. apply (Hlast j e'); [lia|done].
  - exists 0, x. cbn in Hin. apply elem_of_cons in Hin as [->|]; [|done].
    split_and!; [done..|].
    intros [|j] e' Hj He' Heq; [lia|]. cbn in He'. apply Hl. rewrite <- Heq.
    by eapply list_elem_of_fmap_2, list_elem_of_lookup_2.
Qed.

Lemma voc_of_last table p c g i e :
  init table p c = Some g → table !! i = Some e →
  (∀ j e', i < j → table !! j = Some e' → e_word e' ≠ e_word e) →
  voc g !! e_word e = Some (Z.of_nat i).
Proof.
  intros (_&_&->&_)%init_Some Hi Hlast.
  rewrite (foldl_insert_lookup (λ ie : Z * entry, e_word ie.2) fst).
  pose proof (last_filter_last_occurrence (λ ie : Z * entry, e_word ie.2)
                (enumerate table) i (Z.of_nat i, e)) as Hl.
  cbn [snd] in Hl. rewrite Hl; [done|by apply enumerate_lookup|].
  intros j [z e'] Hij [_ Hj]%enumerate_lookup. by apply (Hlast j).
Qed.

Lemma voc_not_in_table table p c g w :
  init table p c = Some g → w ∉ e_word <$> table → voc g !! w = None.
Proof.
  intros (_&_&->&_)%init_Some Hw.
  rewrite (foldl_insert_lookup (λ ie : Z * entry, e_word ie.2) fst).
  rewrite filter_none; [done|]. apply Forall_forall.
  intros [z e] [_ He]%elem_of_enumerate Heq. apply Hw. cbn in Heq. rewrite <- Heq.
  by eapply list_elem_of_fmap_2, list_elem_of_lookup_2.
Qed.

(** The vocabulary maps a word to the index of its last entry in the table,
    and holds no other word. *)
Lemma voc_Some table p c g w i :
  init table p c = Some g →
  voc g !! w = Some i ↔
  (0 ≤ i)%Z ∧ ∃ e, table !! Z.to_nat i = Some e ∧ e_word e = w ∧
                   ∀ j e', Z.to_nat i < j → table !! j = Some e' → e_word e' ≠ w.
Proof.
  intros Hg. split.
  - intros Hw. destruct (decide (w ∈ e_word <$> table)) as [Hin|Hin].
    + destruct (last_occurrence_exists e_word table w Hin) as (i0 & e & Hi0 & <- & Hlast).
      rewrite (voc_of_last table p c g i0 e Hg Hi0 Hlast) in Hw. injection Hw as <-.
      split; [lia|]. exists e. by rewrite Nat2Z.id.
    + by rewrite (voc_not_in_table table p c g w Hg Hin) in Hw.
  - intros (Hi & e & He & <- & Hlast).
    rewrite (voc_of_last table p c g (Z.to_nat i) e Hg He Hlast). f_equal. lia.
Qed.

(** X8: the vocabulary of the generator holds exactly the words of the
    table, each with the index of its last entry; a word outside the table
    is encoded as 0, and when the words of the table are pairwise distinct
    the word of entry [i] is encoded as [i]. *)
Theorem voc_lookup table p c g :
  init table p c = Some g →
  (∀ w, voc g !! w = None ↔ w ∉ e_word <$> table) ∧
  (∀ w, w ∉ e_word <$> table → encode g w = 0%Z) ∧
  (∀ w i, voc g !! w = Some i ↔
     (0 ≤ i)%Z ∧ ∃ e, table !! Z.to_nat i = Some e ∧ e_word e = w ∧
                      ∀ j e', Z.to_nat i < j → table !! j = Some e' → e_word e' ≠ w) ∧
  (NoDup (e_word <$> table) →
   ∀ i e, table !! i = Some e → encode g (e_word e) = Z.of_nat i).
Proof.
  intros Hg. split_and!.
  - intros w. split; [|by apply (voc_not_in_table table p c)].
    intros Hnone Hin.
    destruct (last_occurrence_exists e_word table w Hin) as (i0 & e & Hi0 & <- & Hlast).
    by rewrite (voc_of_last table p c g i0 e Hg Hi0 Hlast) in Hnone.
  - intros w Hw. unfold encode. by rewrite (voc_not_in_table table p c g w Hg Hw).
  - intros w i. by apply (voc_Some table p c).
  - intros Hnd i e Hi. unfold encode.
    rewrite (voc_of_last table p c g i e Hg Hi); [done|].
    intros j e' Hij Hj Heq. assert (j = i); [|lia].
    eapply (NoDup_lookup (e_word <$> table)); [done| |]; rewrite list_lookup_fmap.
    + by rewrite Hj.
    + rewrite Hi. cbn. by rewrite Heq.
Qed.

(** X8, witness: the small table. *)
Lemma voc_lookup_witness :
  (∀ w, voc (new_generator table_small params_wide corpus_line) !! w = None ↔
        w ∉ e_word <$> table_small) ∧
  (∀ w, w ∉ e_word <$> table_small →
        encode (new_generator table_small params_wide corpus_line) w = 0%Z) ∧
  (∀ w i, voc (new_generator table_small params_wide corpus_line) !! w = Some i ↔
     (0 ≤ i)%Z ∧ ∃ e, table_small !! Z.to_nat i = Some e ∧ e_word e = w ∧
                      ∀ j e', Z.to_nat i < j → table_small !! j = Some e' →
                              e_word e' ≠ w) ∧
  (NoDup (e_word <$> table_small) →
   ∀ i e, table_small !! i = Some e →
          encode (new_generator table_small params_wide corpus_line) (e_word e)
          = Z.of_nat i).
Proof.
  apply (voc_lookup table_small params_wide corpus_line
           (new_generator table_small params_wide corpus_line)).
  reflexivity.
Defined.

Lemma foldl_insert_lookup_Z {A V} (key : A → Z) (val : A → V) (l : list A)
    (m0 : gmap Z V) k :
  foldl (λ m e, <[key e := val e]> m) m0 l !! k =
  match last (filter (λ e, key e = k) l) with
  | Some e => Some (val e)
  | None => m0 !! k
  end.
Proof.
  revert m0. induction l as [|x l IH]; intros m0; [done|].
  cbn [foldl]. rewrite IH, filter_cons.
  destruct (decide (key x = k)) as [Hx|Hx].
  - destruct (filter (λ e, key e = k) l) as [|z l'] eqn:E.
    + cbn. by rewrite Hx, lookup_insert_eq.
    + rewrite last_cons_cons.
      destruct (last (z :: l')) eqn:El; [done|]. by apply last_None in El.
  - destruct (last (filter (λ e, key e = k) l)); [done|].
    by rewrite lookup_insert_ne.
Qed.

Lemma make_ivoc_Some (voc0 : gmap string Z) i w :
  make_ivoc voc0 !! i = Some w → voc0 !! w = Some i.
Proof.
  unfold make_ivoc. rewrite (foldl_insert_lookup_Z snd fst), lookup_empty.
  destruct (last _) as [[w' i']|] eqn:El; [|done]. intros [= <-].
  apply last_Some in El as [l' El].
  assert ((w', i') ∈ filter (λ wi : string * Z, wi.2 = i) (map_to_list voc0)) as Hin.
  { rewrite El. apply elem_of_app. right. left. }
  apply list_elem_of_filter in Hin as [Hk Hin]. cbn in Hk. subst.
  by apply elem_of_map_to_list.
Qed.

Lemma make_ivoc_inj (voc0 : gmap string Z) i w :
  (∀ w1 w2 j, voc0 !! w1 = Some j → voc0 !! w2 = Some j → w1 = w2) →
  voc0 !! w = Some i → make_ivoc voc0 !! i = Some w.
Proof.
  intros Hinj Hw. destruct (make_ivoc voc0 !! i) as [w'|] eqn:E.
  - apply make_ivoc_Some in E. f_equal. by eapply Hinj.
  - exfalso. unfold make_ivoc in E.
    rewrite (foldl_insert_lookup_Z snd fst), lookup_empty in E.
    destruct (last _) eqn:El; [done|]. apply last_None in El.
    assert ((w, i) ∈ filter (λ wi : string * Z, wi.2 = i) (map_to_list voc0)) as Hin.
    { apply list_elem_of_filter. split; [done|by apply elem_of_map_to_list]. }
    rewrite El in Hin. by apply not_elem_of_nil in Hin.
Qed.

(** X9: the model built on the vocabulary of the generator inverts it:
    [ivoc] maps an index to a word exactly when [voc] maps that word to the
    index, and the word is then the word of that entry of the table. *)
Theorem ivoc_inverts_voc {T} (w_emb c_emb : list (list T)) table p c g :
  init table p c = Some g →
  (∀ i w, ivoc (new_model w_emb c_emb (voc g)) !! i = Some w ↔ voc g !! w = Some i) ∧
  (∀ i w, ivoc (new_model w_emb c_emb (voc g)) !! i = Some w →
          (0 ≤ i)%Z ∧ e_word <$> table !! Z.to_nat i = Some w).
Proof.
  intros Hg. cbn [ivoc new_model].
  assert (∀ i w, make_ivoc (voc g) !! i = Some w ↔ voc g !! w = Some i) as Hiff.
  { intros i w. split; [apply make_ivoc_Some|]. apply make_ivoc_inj.
    intros w1 w2 j (_ & e1 & He1 & <- & _)%(voc_Some table p c)
                   (_ & e2 & He2 & <- & _)%(voc_Some table p c); [|done..].
    congruence. }
  split; [done|]. intros i w Hi%Hiff.
  apply (voc_Some table p c) in Hi as (? & e & -> & <- & _); done.
Qed.

(** X9, witness: the small table. *)
Lemma ivoc_inverts_voc_witness :
  (∀ i w, ivoc (new_model [[1%Z]; [2%Z]] [[1%Z]; [2%Z]]
                  (voc (new_generator table_small params_wide corpus_line))) !! i
          = Some w ↔
          voc (new_generator table_small params_wide corpus_line) !! w = Some i) ∧
  (∀ i w, ivoc (new_model [[1%Z]; [2%Z]] [[1%Z]; [2%Z]]
                  (voc (new_generator table_small params_wide corpus_line))) !! i
          = Some w →
          (0 ≤ i)%Z ∧ e_word <$> table_small !! Z.to_nat i = Some w).
Proof.
  apply (ivoc_inverts_voc [[1%Z]; [2%Z]] [[1%Z]; [2%Z]] table_small params_wide
           corpus_line (new_generator table_small params_wide corpus_line)).
  reflexivity.
Defined.

(** ** Nearest neighbours and similarities *)

Section neighbours.
Context {T : Type}.
Variable sim_func : list T → list T → T.
Variable topk : Z → list T → option (list (T * Z)).

(** What a call that returns has computed, query by query. *)
Lemma nearest_neighbors_Some (m : SGNSModel) words n res :
  nearest_neighbors sim_func topk m words n = Some res →
  n ≠ 0%Z ∧ length res = length words ∧
  ∀ k q r, words !! k = Some q → res !! k = Some r →
    ∃ ix e nn,
      m_voc m !! q = Some ix ∧ embedding m ix = Some e ∧
      topk (n + 1)%Z (sim_func e <$> w_weight m) = Some nn ∧
      Forall2 (λ (vi : T * Z) (wv : string * T),
                 ivoc m !! vi.2 = Some wv.1 ∧ wv.2 = vi.1) (drop 1 nn) r.
Proof.
  unfold nearest_neighbors.
  destruct (mapM (λ w, m_voc m !! w) words) as [words_ix|] eqn:E1; [|done].
  cbn [mbind option_bind].
  destruct (mapM (embedding m) words_ix) as [test_emb|] eqn:E2; [|done].
  cbn [mbind option_bind].
  destruct (Z.eqb_spec n 0) as [|Hn]; [done|].
  destruct (mapM (topk (n + 1)%Z) _) as [near_nbr|] eqn:E3; [|done].
  cbn [mbind option_bind]. intros E4.
  apply mapM_Some in E1, E2, E3, E4. apply Forall2_fmap_l in E3.
  split; [done|]. split.
  { by rewrite <- (Forall2_length _ _ _ E4), <- (Forall2_length _ _ _ E3),
      <- (Forall2_length _ _ _ E2), <- (Forall2_length _ _ _ E1). }
  intros k q r Hq Hr.
  destruct (Forall2_lookup_l _ _ _ _ _ E1 Hq) as (ix & Hix & Hvoc).
  destruct (Forall2_lookup_l _ _ _ _ _ E2 Hix) as (e & He & Hemb).
  destruct (Forall2_lookup_l _ _ _ _ _ E3 He) as (nn & Hnn & Htop).
  pose proof (Forall2_lookup_lr _ _ _ _ _ _ E4 Hnn Hr) as Hrow.
  exists ix, e, nn. split_and!; [done..|].
  apply mapM_Some in Hrow. eapply Forall2_impl; [exact Hrow|].
  intros vi [w v] Hvi. destruct (ivoc m !! vi.2) as [w'|]; [|done].
  by injection Hvi as -> ->.
Qed.
End neighbours.

(** X10: a call of [nearest_neighbors] that returns was given a number of
    neighbours other than 0 and query words of the vocabulary only, and
    returns one list per query word; when [topk(k)] returns [k] entries,
    every list holds [n_neighbors] entries (none for [n_neighbors = -1]). *)
Theorem nearest_neighbors_shape {T} (sim_func : list T → list T → T)
    (topk : Z → list T → option (list (T * Z))) (m : SGNSModel) words n res :
  (∀ k row r, topk k row = Some r → Z.of_nat (length r) = k) →
  nearest_neighbors sim_func topk m words n = Some res →
  n ≠ 0%Z ∧
  Forall (λ q, is_Some (m_voc m !! q)) words ∧
  length res = length words ∧
  Forall (λ r, Z.of_nat (length r) = Z.max 0 n) res.
Proof.
  intros Htopk (Hn & Hlen & Hq)%nearest_neighbors_Some. split_and!; [done| |done|].
  - apply Forall_lookup. intros k q Hk.
    destruct (lookup_lt_is_Some_2 res k) as [r Hr].
    { rewrite Hlen. by eapply lookup_lt_Some. }
    destruct (Hq k q r Hk Hr) as (ix & _ & _ & -> & _). eauto.
  - apply Forall_lookup. intros k r Hr.
    destruct (lookup_lt_is_Some_2 words k) as [q Hk].
    { rewrite <- Hlen. by eapply lookup_lt_Some. }
    destruct (Hq k q r Hk Hr) as (ix & e & nn & _ & _ & Hnn & Hrow).
    apply Htopk in Hnn. apply Forall2_length in Hrow.
    rewrite length_drop in Hrow. lia.
Qed.

(** X10, witness: the two words of a model with different embeddings. *)
Lemma nearest_neighbors_shape_witness :
  1%Z ≠ 0%Z ∧
  Forall (λ q, is_Some (m_voc model_distinct !! q)) ["a"; "b"] ∧
  length [[("b", 0%Z)]; [("a", 0%Z)]] = length ["a"; "b"] ∧
  Forall (λ r : list (string * Z), Z.of_nat (length r) = Z.max 0 1)
         [[("b", 0%Z)]; [("a", 0%Z)]].
Proof.
  apply (nearest_neighbors_shape sim_same topk_two model_distinct ["a"; "b"] 1%Z).
  - intros k [|a [|b [|? ?]]] r; try discriminate. unfold topk_two.
    destruct (Z.eqb_spec k 2) as [->|]; [|discriminate].
    destruct (a <? b)%Z; by intros [= <-].
  - by vm_compute.
Defined.

(** X11: in a model built by [SGNSModel.__init__], when [topk] returns the
    entries of the row with their indices, every score that
    [nearest_neighbors] reports for a neighbour of a query word is what
    [cosine_similarity] returns for the two words. *)
Theorem nearest_neighbors_scores {T} (sim_func : list T → list T → T)
    (topk : Z → list T → option (list (T * Z)))
    (w_emb c_emb : list (list T)) (voc0 : gmap string Z) words n res :
  (∀ k row r, topk k row = Some r →
     Forall (λ vi, (0 ≤ vi.2)%Z ∧ row !! Z.to_nat vi.2 = Some vi.1) r) →
  nearest_neighbors sim_func topk (new_model w_emb c_emb voc0) words n = Some res →
  ∀ k q r u v, words !! k = Some q → res !! k = Some r → (u, v) ∈ r →
    cosine_similarity sim_func (new_model w_emb c_emb voc0) q u = Some v.
Proof.
  intros Htopk (_ & _ & Hq)%nearest_neighbors_Some k q r u v Hk Hr Huv.
  destruct (Hq k q r Hk Hr) as (ix & e & nn & Hix & He & Hnn & Hrow).
  apply list_elem_of_lookup in Huv as [j Hj].
  destruct (Forall2_lookup_r _ _ _ _ _ Hrow Hj) as (vi & Hvi & Hu & Hv).
  cbn [fst snd ivoc new_model] in Hu, Hv. apply make_ivoc_Some in Hu.
  rewrite lookup_drop in Hvi. apply list_elem_of_lookup_2 in Hvi.
  apply Htopk in Hnn. rewrite Forall_forall in Hnn.
  destruct (Hnn vi Hvi) as [Hpos Hval].
  rewrite list_lookup_fmap in Hval.
  destruct (w_weight (new_model w_emb c_emb voc0) !! Z.to_nat vi.2) as [e2|] eqn:He2;
    [|done].
  injection Hval as Hval.
  unfold cosine_similarity. cbn [m_voc new_model] in *. rewrite Hix.
  cbn [mbind option_bind]. rewrite He. cbn [mbind option_bind]. rewrite Hu.
  cbn [mbind option_bind]. unfold embedding.
  rewrite (proj2 (Z.ltb_ge vi.2 0)) by done. cbn [w_weight] in *. rewrite He2.
  cbn. by rewrite Hv, Hval.
Qed.

Lemma topk_two_entries k row r :
  topk_two k row = Some r →
  NoDup r.*2 ∧
  Forall (λ vi, (0 ≤ vi.2)%Z ∧ row !! Z.to_nat vi.2 = Some vi.1) r ∧
  ∀ v0 i0 r', r = (v0, i0) :: r' → Forall (λ v, ¬ (v0 < v)%Z) row.
Proof.
  destruct row as [|a [|b [|? ?]]]; try discriminate. unfold topk_two.
  destruct (Z.eqb_spec k 2) as [->|]; [|discriminate].
  destruct (Z.ltb_spec a b); intros [= <-]; split_and!.
  - apply (bool_decide_unpack _). by vm_compute.
  - by repeat constructor.
  - intros v0 i0 r' [= <- <- <-]. repeat constructor; lia.
  - apply (bool_decide_unpack _). by vm_compute.
  - by repeat constructor.
  - intros v0 i0 r' [= <- <- <-]. repeat constructor; lia.
Qed.

(** X11, witness: the neighbour ["b"] of ["a"] and its score 0. *)
Lemma nearest_neighbors_scores_witness :
  cosine_similarity sim_same (new_model [[1%Z]; [2%Z]] [[1%Z]; [2%Z]] two_word_voc)
    "a" "b" = Some 0%Z.
Proof.
  apply (nearest_neighbors_scores sim_same topk_two [[1%Z]; [2%Z]] [[1%Z]; [2%Z]]
           two_word_voc ["a"; "b"] 1%Z [[("b", 0%Z)]; [("a", 0%Z)]]
           (λ k row r H, proj1 (proj2 (topk_two_entries k row r H)))
           eq_refl 0 "a" [("b", 0%Z)] "b" 0%Z eq_refl eq_refl).
  left.
Defined.

(** X12: in a model built by [SGNSModel.__init__], when [topk] returns
    entries of the row with pairwise distinct indices, a largest one first,
    a query word whose similarity to itself is strictly greater than its
    similarity to every other row of the embedding table does not appear
    in its own list of neighbours. *)
Theorem nearest_neighbors_excludes_query {T} (lt : T → T → Prop)
    (sim_func : list T → list T → T) (topk : Z → list T → option (list (T * Z)))
    (w_emb c_emb : list (list T)) (voc0 : gmap string Z) words n res :
  (∀ k row r, topk k row = Some r →
     NoDup r.*2 ∧
     Forall (λ vi, (0 ≤ vi.2)%Z ∧ row !! Z.to_nat vi.2 = Some vi.1) r ∧
     ∀ v0 i0 r', r = (v0, i0) :: r' → Forall (λ v, ¬ lt v0 v) row) →
  nearest_neighbors sim_func topk (new_model w_emb c_emb voc0) words n = Some res →
  ∀ k q r, words !! k = Some q → res !! k = Some r →
    (∀ ix e, voc0 !! q = Some ix →
             embedding (new_model w_emb c_emb voc0) ix = Some e →
             ∀ j e', w_emb !! j = Some e' → j ≠ Z.to_nat ix →
                     lt (sim_func e e') (sim_func e e)) →
    q ∉ r.*1.
Proof.
  intros Htopk (_ & _ & Hq)%nearest_neighbors_Some k q r Hk Hr Hstrict Hin.
  destruct (Hq k q r Hk Hr) as (ix & e & nn & Hix & He & Hnn & Hrow).
  cbn [m_voc new_model] in Hix. specialize (Hstrict ix e Hix He).
  apply list_elem_of_fmap in Hin as ([u v] & -> & Huv). cbn [fst] in *.
  apply list_elem_of_lookup in Huv as [j Hj].
  destruct (Forall2_lookup_r _ _ _ _ _ Hrow Hj) as (vi & Hvi & Hu & _).
  cbn [fst snd ivoc new_model] in Hu. apply make_ivoc_Some in Hu.
  rewrite Hix in Hu. injection Hu as Hu.
  destruct (Htopk _ _ _ Hnn) as (Hnd & Hval & Hmax).
  destruct nn as [|[v0 i0] nn']; [by rewrite drop_nil in Hvi|].
  cbn [drop] in Hvi. rewrite drop_0 in Hvi. apply list_elem_of_lookup_2 in Hvi.
  cbn [fmap list_fmap snd] in Hnd. apply NoDup_cons in Hnd as [Hi0 _].
  assert (i0 ≠ ix) as Hne.
  { intros ->. apply Hi0. rewrite Hu. by apply (list_elem_of_fmap_2 snd) in Hvi. }
  apply Forall_cons in Hval as [[Hpos0 Hv0] _]. cbn [fst snd] in *.
  rewrite list_lookup_fmap in Hv0. cbn [w_weight new_model] in Hv0.
  destruct (w_emb !! Z.to_nat i0) as [e0|] eqn:He0; [|done]. injection Hv0 as <-.
  unfold embedding in He. destruct (Z.ltb_spec ix 0) as [|Hix0]; [done|].
  cbn [w_weight new_model] in He.
  specialize (Hmax _ _ _ eq_refl). rewrite Forall_forall in Hmax.
  apply (Hmax (sim_func e e)).
  - apply list_elem_of_fmap. exists e. split; [done|]. by eapply list_elem_of_lookup_2.
  - apply (Hstrict (Z.to_nat i0) e0 He0). lia.
Qed.

(** X12, witness: the word ["a"] of the model with different embeddings. *)
Lemma nearest_neighbors_excludes_query_witness :
  "a" ∉ [("b", 0%Z)].*1.
Proof.
  apply (nearest_neighbors_excludes_query Z.lt sim_same topk_two
           [[1%Z]; [2%Z]] [[1%Z]; [2%Z]] two_word_voc ["a"; "b"] 1%Z
           [[("b", 0%Z)]; [("a", 0%Z)]] topk_two_entries eq_refl
           0 "a" [("b", 0%Z)] eq_refl eq_refl).
  intros ix e [= <-] [= <-] [|[|j]] e' He' Hj; [done| |done].
  injection He' as <-. by vm_compute.
Defined.

(** ** [forward] *)

Lemma embedding_is_Some {T} (m : @SGNSModel T) ix :
  is_Some (embedding m ix) ↔ (0 ≤ ix < Z.of_nat (length (w_weight m)))%Z.
Proof.
  unfold embedding. destruct (Z.ltb_spec ix 0).
  - split; [by intros [? [=]]|lia].
  - rewrite lookup_lt_is_Some. lia.
Qed.

Lemma embedding_c_is_Some {T} (c_weight : list (list T)) ix :
  is_Some (embedding_c c_weight ix) ↔ (0 ≤ ix < Z.of_nat (length c_weight))%Z.
Proof.
  unfold embedding_c. destruct (Z.ltb_spec ix 0).
  - split; [by intros [? [=]]|lia].
  - rewrite lookup_lt_is_Some. lia.
Qed.

Lemma forward_is_Some {T} (dot : list T → list T → T) (m : SGNSModel)
    (c_weight : list (list T)) tgt ctx :
  is_Some (forward dot m c_weight tgt ctx) ↔
  length tgt = length ctx ∧
  Forall (λ ix, (0 ≤ ix < Z.of_nat (length (w_weight m)))%Z) tgt ∧
  Forall (Forall (λ ix, (0 ≤ ix < Z.of_nat (length c_weight))%Z)) ctx.
Proof.
  assert (is_Some (mapM (embedding m) tgt) ↔
          Forall (λ ix, (0 ≤ ix < Z.of_nat (length (w_weight m)))%Z) tgt) as H1.
  { rewrite mapM_is_Some. apply Forall_proper; [|done].
    intros ix. apply embedding_is_Some. }
  assert (is_Some (mapM (mapM (embedding_c c_weight)) ctx) ↔
          Forall (Forall (λ ix, (0 ≤ ix < Z.of_nat (length c_weight))%Z)) ctx) as H2.
  { rewrite mapM_is_Some. apply Forall_proper; [|done].
    intros row. unfold compose. rewrite mapM_is_Some. apply Forall_proper; [|done].
    intros ix. apply embedding_c_is_Some. }
  unfold forward.
  destruct (mapM (embedding m) tgt) as [tgt_emb|]; cbn [mbind option_bind].
  2: { split; [by intros [? [=]]|]. intros (_ & Ht & _). by apply H1 in Ht. }
  destruct (mapM (mapM (embedding_c c_weight)) ctx) as [ctx_emb|]; cbn [mbind option_bind].
  2: { split; [by intros [? [=]]|]. intros (_ & _ & Hc). by apply H2 in Hc. }
  case_bool_decide as Hlen.
  - split; [|eauto]. intros _. split_and!; [done|apply H1; eauto|apply H2; eauto].
  - split; [by intros [? [=]]|]. by intros (? & _).
Qed.

Lemma forward_Some {T} (dot : list T → list T → T) (m : SGNSModel)
    (c_weight : list (list T)) tgt ctx dots :
  forward dot m c_weight tgt ctx = Some dots →
  length dots = length tgt ∧
  ∀ b t crow, tgt !! b = Some t → ctx !! b = Some crow →
    ∃ te ces, embedding m t = Some te ∧
              mapM (embedding_c c_weight) crow = Some ces ∧
              dots !! b = Some (dot te <$> ces).
Proof.
  unfold forward.
  destruct (mapM (embedding m) tgt) as [tgt_emb|] eqn:E1; [|done].
  cbn [mbind option_bind].
  destruct (mapM (mapM (embedding_c c_weight)) ctx) as [ctx_emb|] eqn:E2; [|done].
  cbn [mbind option_bind]. case_bool_decide as Hlen; [|done]. intros [= <-].
  apply mapM_Some in E1, E2. split.
  - rewrite length_zip_with, <- (Forall2_length _ _ _ E1), <- (Forall2_length _ _ _ E2).
    lia.
  - intros b t crow Ht Hc.
    destruct (Forall2_lookup_l _ _ _ _ _ E1 Ht) as (te & Hte & ?).
    destruct (Forall2_lookup_l _ _ _ _ _ E2 Hc) as (ces & Hces & ?).
    exists te, ces. split_and!; [done..|].
    rewrite lookup_zip_with, Hte. cbn. by rewrite Hces.
Qed.

(** X13: [forward] returns exactly when there are as many rows of contexts
    as targets and every index is a row of its embedding table; the scores
    then have one row per target and one column per context of the row,
    the entry being the product of the two embeddings. *)
Theorem forward_shape {T} (dot : list T → list T → T) (m : SGNSModel)
    (c_weight : list (list T)) tgt ctx :
  (is_Some (forward dot m c_weight tgt ctx) ↔
   length tgt = length ctx ∧
   Forall (λ ix, (0 ≤ ix < Z.of_nat (length (w_weight m)))%Z) tgt ∧
   Forall (Forall (λ ix, (0 ≤ ix < Z.of_nat (length c_weight))%Z)) ctx) ∧
  (∀ dots, forward dot m c_weight tgt ctx = Some dots →
     length dots = length tgt ∧
     ∀ b t crow, tgt !! b = Some t → ctx !! b = Some crow →
       ∃ row, dots !! b = Some row ∧ length row = length crow ∧
         ∀ j cx, crow !! j = Some cx →
           ∃ te ce, embedding m t = Some te ∧ embedding_c c_weight cx = Some ce ∧
                    row !! j = Some (dot te ce)).
Proof.
  split; [apply forward_is_Some|].
  intros dots [Hlen Hrows]%forward_Some. split; [done|].
  intros b t crow Ht Hc.
  destruct (Hrows b t crow Ht Hc) as (te & ces & Hte & Hces & Hb).
  exists (dot te <$> ces). split_and!; [done| |].
  - rewrite length_fmap. symmetry. by eapply length_mapM.
  - intros j cx Hj. apply mapM_Some in Hces.
    destruct (Forall2_lookup_l _ _ _ _ _ Hces Hj) as (ce & Hce & ?).
    exists te, ce. split_and!; [done..|]. by rewrite list_lookup_fmap, Hce.
Qed.

(** ** The trainer: the expanded sampling table *)

Lemma foldl_app_concat {A B} (f : A → list B) (l : list A) (acc : list B) :
  foldl (λ acc x, acc ++ f x) acc l = acc ++ concat (f <$> l).
Proof.
  revert acc. induction l as [|x l IH]; intros acc; cbn.
  - by rewrite app_nil_r.
  - by rewrite IH, app_assoc.
Qed.

Lemma ns_table_expanded_concat table :
  ns_table_expanded table =
  concat ((λ ie : Z * entry, replicate (Z.to_nat (e_slots ie.2)) ie.1)
            <$> enumerate table).
Proof. unfold ns_table_expanded. by rewrite foldl_app_concat. Qed.

Lemma elem_of_concat {A} (x : A) (ls : list (list A)) :
  x ∈ concat ls ↔ ∃ l, l ∈ ls ∧ x ∈ l.
Proof.
  induction ls as [|l ls IH]; cbn.
  - split; [by intros ?%not_elem_of_nil|by intros (? & ?%not_elem_of_nil & _)].
  - rewrite elem_of_app, IH. split.
    + intros [?|(l' & ? & ?)]; [exists l; split; [left|done]|exists l'; split; [by right|done]].
    + intros (l' & [->|?]%elem_of_cons & ?); [by left|right; eauto].
Qed.

Lemma elem_of_ns_table_expanded table x :
  x ∈ ns_table_expanded table ↔
  (0 ≤ x)%Z ∧ ∃ e, table !! Z.to_nat x = Some e ∧ (0 < e_slots e)%Z.
Proof.
  rewrite ns_table_expanded_concat, elem_of_concat. split.
  - intros (l & ([i e] & -> & [Hi He]%elem_of_enumerate)%list_elem_of_fmap
              & [-> Hn]%elem_of_replicate).
    cbn [fst snd] in *. split; [done|]. exists e. split; [done|lia].
  - intros (Hx & e & He & Hs). exists (replicate (Z.to_nat (e_slots e)) x). split.
    + apply list_elem_of_fmap. exists (x, e). split; [done|]. by apply elem_of_enumerate.
    + apply elem_of_replicate. split; [done|lia].
Qed.

Lemma filter_replicate_eq (c : Z) n k :
  length (filter (λ x, x = c) (replicate n k)) = if decide (k = c) then n else 0.
Proof.
  induction n as [|n IH]; cbn [replicate]; [by destruct (decide _)|].
  rewrite filter_cons. destruct (decide (k = c)); cbn; [by rewrite IH|done].
Qed.

Lemma count_expanded_from (k c : Z) (l : list entry) :
  length (filter (λ x, x = c)
            (concat ((λ ie : Z * entry, replicate (Z.to_nat (e_slots ie.2)) ie.1)
                       <$> zip (seqZ k (Z.of_nat (length l))) l))) =
  if bool_decide (k ≤ c)%Z
  then from_option (λ e, Z.to_nat (e_slots e)) 0 (l !! Z.to_nat (c - k))
  else 0.
Proof.
  revert k. induction l as [|e l IH]; intros k.
  - cbn. by case_bool_decide.
  - cbn [length]. rewrite Nat2Z.inj_succ, seqZ_cons by lia. rewrite Z.pred_succ.
    cbn [zip zip_with fmap list_fmap concat fst snd].
    rewrite filter_app, length_app, filter_replicate_eq.
    change (zip_with pair (seqZ (Z.succ k) (Z.of_nat (length l))) l)
      with (zip (seqZ (Z.succ k) (Z.of_nat (length l))) l).
    change (list_fmap _ _ ?f ?l) with (f <$> l).
    rewrite IH. destruct (decide (k = c)) as [->|Hne].
    + rewrite (bool_decide_eq_false_2 (Z.succ c ≤ c)%Z),
        (bool_decide_eq_true_2 (c ≤ c)%Z) by lia.
      replace (c - c)%Z with 0%Z by lia. change (Z.to_nat 0) with 0%nat. cbn. lia.
    + case_bool_decide as H1; case_bool_decide as H2; try lia.
      replace (Z.to_nat (c - k)) with (S (Z.to_nat (c - Z.succ k))) by lia. done.
Qed.

Lemma sum_slots (l : list entry) :
  Z.of_nat (list_sum ((λ e, Z.to_nat (e_slots e)) <$> l)) =
  sumZ ((λ e, Z.max 0 (e_slots e)) <$> l).
Proof.
  induction l as [|e l IH]; [done|].
  change (Z.of_nat (Z.to_nat (e_slots e)
                    + list_sum ((λ e, Z.to_nat (e_slots e)) <$> l)) =
          (Z.max 0 (e_slots e) + sumZ ((λ e, Z.max 0 (e_slots e)) <$> l))%Z).
  rewrite Nat2Z.inj_add, IH. lia.
Qed.

(** X14: the expanded sampling table of the trainer holds the index of
    every entry as many times as the entry has slots (never for a slot count
    that is not positive), and nothing else: its length is the sum of the
    positive slot counts, and every element is the index of an entry with a
    positive slot count. *)
Theorem ns_table_expanded_counts table :
  Z.of_nat (length (ns_table_expanded table))
    = sumZ ((λ e, Z.max 0 (e_slots e)) <$> table) ∧
  (∀ i e, table !! i = Some e →
     length (filter (λ x, x = Z.of_nat i) (ns_table_expanded table))
     = Z.to_nat (e_slots e)) ∧
  (∀ x, x ∈ ns_table_expanded table ↔
     (0 ≤ x)%Z ∧ ∃ e, table !! Z.to_nat x = Some e ∧ (0 < e_slots e)%Z).
Proof.
  split_and!.
  - rewrite ns_table_expanded_concat, length_concat, <- sum_slots. do 2 f_equal.
    rewrite <- (snd_enumerate table) at 2.
    rewrite <- !list_fmap_compose. apply list_fmap_ext. intros j [z e] _. cbn.
    by rewrite length_replicate.
  - intros i e Hi. rewrite ns_table_expanded_concat.
    pose proof (count_expanded_from 0 (Z.of_nat i) table) as Hc.
    unfold enumerate. rewrite Hc.
    rewrite bool_decide_eq_true_2 by lia.
    replace (Z.to_nat (Z.of_nat i - 0)) with i by lia. by rewrite Hi.
  - apply elem_of_ns_table_expanded.
Qed.

(** ** The trainer: negative samples and one step of training *)

Lemma new_trainer_Some table p n_neg tr :
  new_trainer table p n_neg = Some tr →
  (0 ≤ batch_size p)%Z ∧ (0 ≤ n_neg)%Z ∧
  ns_table tr = ns_table_expanded table ∧ n_ns tr = n_neg ∧
  y tr = replicate (Z.to_nat (batch_size p)) (1%Z :: replicate (Z.to_nat n_neg) 0%Z).
Proof.
  unfold new_trainer. case_bool_decide as H; [|done]. intros [= <-]. by destruct H.
Qed.

Lemma mapM_getitem {A} (l : list A) xs :
  Forall (λ x, (0 ≤ x < Z.of_nat (length l))%Z) xs →
  ∃ ys, mapM (getitem l) xs = Some ys ∧ length ys = length xs ∧ Forall (λ v, v ∈ l) ys.
Proof.
  induction 1 as [|x xs Hx _ (ys & Hys & Hlen & Hin)].
  - by exists [].
  - destruct (lookup_lt_is_Some_2 l (Z.to_nat x)) as [v Hv]; [lia|].
    exists (v :: ys). cbn [mapM]. rewrite getitem_nonneg, Hv by lia.
    cbn [mbind option_bind]. rewrite Hys. cbn.
    split_and!; [done|by rewrite Hlen|].
    constructor; [by eapply list_elem_of_lookup_2|done].
Qed.

Lemma make_negative_sample_Some table p n_neg tr batch rand_ix :
  new_trainer table p n_neg = Some tr →
  (∃ e, e ∈ table ∧ (0 < e_slots e)%Z) → (0 ≤ batch)%Z →
  randint_result (Z.of_nat (length (ns_table tr))) batch (n_ns tr) rand_ix →
  ∃ c_neg,
    make_negative_sample tr batch rand_ix = Some c_neg ∧
    Z.of_nat (length c_neg) = batch ∧
    Forall (λ row,
              Z.of_nat (length row) = n_ns tr ∧
              Forall (λ x, (0 ≤ x)%Z ∧
                           ∃ e, table !! Z.to_nat x = Some e ∧ (0 < e_slots e)%Z) row)
           c_neg.
Proof.
  intros (Hb & Hn & Hns & Hnn & Hy)%new_trainer_Some
         (e & [i Hi]%list_elem_of_lookup & He) Hbatch [Hrows Hdraw].
  assert (0 < length (ns_table tr)) as Hlen.
  { rewrite Hns.
    assert (Z.of_nat i ∈ ns_table_expanded table) as Hin.
    { apply elem_of_ns_table_expanded. split; [lia|]. exists e. by rewrite Nat2Z.id. }
    destruct (ns_table_expanded table); [by apply not_elem_of_nil in Hin|]. cbn. lia. }
  unfold make_negative_sample. rewrite bool_decide_eq_true_2 by lia.
  rewrite <- Hrows. clear Hrows Hbatch.
  induction Hdraw as [|r rows [Hr Hx] _ (c_neg & Hc & Hl & Hall)].
  - by exists [].
  - destruct (mapM_getitem (ns_table tr) r Hx) as (vs & Hvs & Hlv & Hin).
    exists (vs :: c_neg). cbn [mapM]. rewrite Hvs. cbn [mbind option_bind].
    rewrite Hc. cbn. split_and!; [done|lia|].
    constructor; [|done]. split; [lia|].
    eapply Forall_impl; [exact Hin|]. intros v Hv. rewrite Hns in Hv.
    by apply elem_of_ns_table_expanded.
Qed.

(** X15: when some entry of the table has a positive slot count, a draw of
    [torch.randint] within the expanded table gives a negative sample of
    [batch_size] rows of [n_ns] entries, and every entry is the index of a
    table entry with a positive slot count. *)
Theorem make_negative_sample_valid table p n_neg tr batch rand_ix :
  new_trainer table p n_neg = Some tr →
  (∃ e, e ∈ table ∧ (0 < e_slots e)%Z) → (0 ≤ batch)%Z →
  randint_result (Z.of_nat (length (ns_table tr))) batch (n_ns tr) rand_ix →
  ∃ c_neg,
    make_negative_sample tr batch rand_ix = Some c_neg ∧
    Z.of_nat (length c_neg) = batch ∧
    Forall (λ row,
              Z.of_nat (length row) = n_ns tr ∧
              Forall (λ x, (0 ≤ x < Z.of_nat (length table))%Z ∧
                           ∃ e, table !! Z.to_nat x = Some e ∧ (0 < e_slots e)%Z) row)
           c_neg.
Proof.
  intros Htr Hex Hb Hdraw.
  destruct (make_negative_sample_Some table p n_neg tr batch rand_ix Htr Hex Hb Hdraw)
    as (c_neg & Hc & Hl & Hall).
  exists c_neg. split_and!; [done..|].
  eapply Forall_impl; [exact Hall|]. intros row [Hr Hx]. split; [done|].
  eapply Forall_impl; [exact Hx|]. intros x (Hx0 & e & He & Hs).
  split; [|eauto]. apply lookup_lt_Some in He. lia.
Qed.

(** X16: when no entry of the table has a positive slot count (as for a
    table size of 0), the expanded table is empty and
    [make_negative_sample] raises, whatever the batch size: the range of
    [torch.randint] is empty. *)
Theorem make_negative_sample_empty_table table p n_neg tr batch rand_ix :
  new_trainer table p n_neg = Some tr →
  Forall (λ e, e_slots e ≤ 0)%Z table →
  ns_table tr = [] ∧ make_negative_sample tr batch rand_ix = None.
Proof.
  intros (_ & _ & Hns & _)%new_trainer_Some Hall.
  assert (ns_table tr = []) as Hnil.
  { rewrite Hns. destruct (ns_table_expanded table) as [|x l] eqn:E; [done|].
    assert (x ∈ ns_table_expanded table) as Hin by (rewrite E; left).
    apply elem_of_ns_table_expanded in Hin as (_ & e & He & Hs).
    rewrite Forall_forall in Hall.
    specialize (Hall e (list_elem_of_lookup_2 _ _ _ He)). cbv beta in Hall. lia. }
  split; [done|]. unfold make_negative_sample. rewrite Hnil.
  rewrite bool_decide_eq_false_2; [done|]. cbn. lia.
Qed.

Lemma new_trainer_small : new_trainer table_small params_wide 2 = Some trainer_small.
Proof. reflexivity. Qed.

(** X15, witness: one row of two draws from the expanded small table. *)
Lemma make_negative_sample_valid_witness :
  ∃ c_neg,
    make_negative_sample trainer_small 1 [[0; 7]%Z] = Some c_neg ∧
    Z.of_nat (length c_neg) = 1%Z ∧
    Forall (λ row,
              Z.of_nat (length row) = n_ns trainer_small ∧
              Forall (λ x, (0 ≤ x < Z.of_nat (length table_small))%Z ∧
                           ∃ e, table_small !! Z.to_nat x = Some e ∧ (0 < e_slots e)%Z)
                     row)
           c_neg.
Proof.
  apply (make_negative_sample_valid table_small params_wide 2 trainer_small 1 [[0; 7]%Z]).
  - reflexivity.
  - exists ("a", 3, 6)%Z. split; [right; left|reflexivity].
  - lia.
  - split; [reflexivity|]. repeat constructor; simpl; lia.
Defined.

(** X16, witness: a table whose one entry has no slot. *)
Lemma make_negative_sample_empty_table_witness :
  ns_table {| ns_table := []; n_ns := 2; y := [[1; 0; 0]%Z] |} = [] ∧
  make_negative_sample {| ns_table := []; n_ns := 2; y := [[1; 0; 0]%Z] |} 1 [[0; 0]%Z]
  = None.
Proof.
  apply (make_negative_sample_empty_table [("<UNKNOWN>", 1, 0)%Z] params_wide 2
           {| ns_table := []; n_ns := 2; y := [[1; 0; 0]%Z] |} 1 [[0; 0]%Z]).
  - reflexivity.
  - repeat constructor. cbv [e_slots snd]. lia.
Defined.

Lemma batches_indices table p c g rand_widths rand_unif b :
  init table p c = Some g → table ≠ [] → NoDup (e_word <$> table) →
  b ∈ (batches rand_widths rand_unif g).1 →
  length b.1 = length b.2 ∧
  Forall (λ x, (0 ≤ x < vocabulary_size g)%Z) b.1 ∧
  Forall (λ x, (0 ≤ x < vocabulary_size g)%Z) b.2.
Proof.
  intros Hg Hne Hnd Hb.
  pose proof (batches_pairs rand_widths rand_unif g) as Hall.
  rewrite Forall_forall in Hall. specialize (Hall b Hb). cbv beta in Hall.
  split; [by eapply Forall2_length|].
  assert (∀ t x, window_pair rand_widths rand_unif g t x →
            (0 ≤ t < vocabulary_size g)%Z ∧ (0 ≤ x < vocabulary_size g)%Z) as Hr.
  { intros t x (n & line & i & j & w & _ & _ & Ht & Hc & _).
    apply list_elem_of_lookup_2, list_elem_of_fmap in Ht as (tok & -> & _).
    apply list_elem_of_lookup_2, list_elem_of_fmap in Hc as (tok' & -> & _).
    split; by eapply encode_range. }
  induction Hall as [|t x ts cs Htx _ [IHt IHc]]; [by split|].
  destruct (Hr t x Htx). split; by constructor.
Qed.

Lemma batches_line :
  (batches widths_one unif_zero (new_generator table_small params_wide corpus_line)).1
  = [([1%Z], [1%Z]); ([1%Z], [1%Z]); ([1%Z], [1%Z]); ([1%Z], [1%Z])].
Proof.
  unfold batches, run_batches.
  change (enumerate (readlines (corpus (new_generator table_small params_wide corpus_line))))
    with [(0%Z, "a a a")].
  cbn [for_each]. unfold process_line. cbn [fst snd].
  rewrite (encoded_line_unpruned table_small params_wide corpus_line)
    by first [apply init_table_small|apply table_small_frequent|vm_compute; lia].
  by vm_compute.
Qed.

(** X17: one step of training.  For a table of pairwise distinct words with
    a positive slot count somewhere, a batch size of at least 1, embedding
    tables of one row per word of the vocabulary, and a draw of
    [torch.randint] within the expanded table, every batch the generator
    yields passes through [make_negative_sample] and [forward] without an
    exception, and the scores have the shape of the labels
    [self.y[:batch_size]] they are compared with: one row per pair, one
    column for the positive context and one per negative sample. *)
Theorem train_step_shapes {T} (dot : list T → list T → T) table p c n_neg g tr
    (w_emb c_emb : list (list T)) rand_widths rand_unif rand_ix b :
  init table p c = Some g →
  new_trainer table p n_neg = Some tr →
  NoDup (e_word <$> table) →
  (∃ e, e ∈ table ∧ (0 < e_slots e)%Z) →
  (1 ≤ batch_size p)%Z →
  Z.of_nat (length w_emb) = vocabulary_size g →
  Z.of_nat (length c_emb) = vocabulary_size g →
  b ∈ (batches rand_widths rand_unif g).1 →
  randint_result (Z.of_nat (length (ns_table tr))) (Z.of_nat (length b.1)) (n_ns tr)
                 rand_ix →
  ∃ scores,
    batch_scores dot tr (new_model w_emb c_emb (voc g)) c_emb b rand_ix = Some scores ∧
    length scores = length b.1 ∧
    Forall2 (λ srow lrow, length srow = length lrow ∧
                          Z.of_nat (length srow) = (1 + n_neg)%Z)
            scores (batch_labels tr b).
Proof.
  intros Hg Htr Hnd Hex Hbs Hw Hc Hb Hdraw.
  assert (table ≠ []) as Hne.
  { destruct Hex as (e & He & _). intros ->. by apply not_elem_of_nil in He. }
  destruct (batches_indices table p c g rand_widths rand_unif b Hg Hne Hnd Hb)
    as (Hlen & Hvt & Hvc).
  pose proof (batches_bounded rand_widths rand_unif g) as Hbound.
  rewrite Forall_forall in Hbound. destruct (Hbound b Hb) as [Hb1 Hb2].
  pose proof (init_Some _ _ _ _ Hg) as (_ & _ & _ & Hgb & _).
  rewrite Hgb in Hb2. specialize (Hb2 Hbs).
  pose proof (voc_size_NoDup table p c g Hg Hnd) as Hsize.
  destruct (make_negative_sample_Some table p n_neg tr (Z.of_nat (length b.1)) rand_ix
              Htr Hex ltac:(lia) Hdraw) as (c_neg & Hneg & Hnl & Hnall).
  pose proof (new_trainer_Some _ _ _ _ Htr) as (_ & Hn0 & _ & Hnn & Hy).
  unfold batch_scores. rewrite Hneg. cbn [mbind option_bind].
  rewrite bool_decide_eq_true_2 by (split; [done|lia]).
  assert (length (zip_with cons b.2 c_neg) = length b.1) as Hzl.
  { rewrite length_zip_with. lia. }
  destruct (proj2 (forward_is_Some dot (new_model w_emb c_emb (voc g)) c_emb b.1
                     (zip_with cons b.2 c_neg))) as [scores Hscores].
  { split_and!; [done| |].
    - cbn [w_weight new_model]. by rewrite Hw.
    - rewrite Hc. apply Forall_lookup. intros k crow Hk.
      apply lookup_zip_with_Some in Hk as (x & negs & -> & Hx & Hnegs).
      constructor.
      + rewrite Forall_forall in Hvc. by eapply Hvc, list_elem_of_lookup_2.
      + rewrite Forall_forall in Hnall.
        destruct (Hnall negs (list_elem_of_lookup_2 _ _ _ Hnegs)) as [_ Hxs].
        eapply Forall_impl; [exact Hxs|]. intros v (Hv0 & e & He & _).
        apply lookup_lt_Some in He. lia. }
  exists scores. split; [done|].
  destruct (forward_Some _ _ _ _ _ _ Hscores) as [Hsl Hrows]. split; [done|].
  assert (batch_labels tr b
          = replicate (length b.1) (1%Z :: replicate (Z.to_nat n_neg) 0%Z)) as ->.
  { unfold batch_labels, slice_to, slice_bound.
    rewrite (proj2 (Z.ltb_ge (Z.of_nat (length b.1)) 0)) by lia.
    rewrite Nat2Z.id, Hy, take_replicate. f_equal. lia. }
  apply Forall2_same_length_lookup_2; [by rewrite length_replicate|].
  intros k srow lrow Hs [-> _]%lookup_replicate.
  destruct (lookup_lt_is_Some_2 b.1 k) as [t Ht].
  { rewrite <- Hsl. by eapply lookup_lt_Some. }
  destruct (lookup_lt_is_Some_2 (zip_with cons b.2 c_neg) k) as [crow Hcrow].
  { rewrite Hzl. by eapply lookup_lt_Some. }
  destruct (Hrows k t crow Ht Hcrow) as (te & ces & _ & Hces & Hk).
  rewrite Hs in Hk. injection Hk as ->.
  apply length_mapM in Hces.
  apply lookup_zip_with_Some in Hcrow as (x & negs & -> & _ & Hnegs).
  rewrite Forall_forall in Hnall.
  destruct (Hnall negs (list_elem_of_lookup_2 _ _ _ Hnegs)) as [Hnegl _].
  rewrite length_fmap, <- Hces. cbn [length]. rewrite length_replicate. lia.
Qed.

(** X17, witness: the first batch of the corpus ["a a a"], two negative
    samples. *)
Lemma train_step_shapes_witness :
  ∃ scores,
    batch_scores dot_Z trainer_small
      (new_model [[1%Z]; [2%Z]] [[3%Z]; [4%Z]]
                 (voc (new_generator table_small params_wide corpus_line)))
      [[3%Z]; [4%Z]] ([1%Z], [1%Z]) [[0; 7]%Z] = Some scores ∧
    length scores = length ([1%Z], [1%Z]).1 ∧
    Forall2 (λ srow lrow, length srow = length lrow ∧
                          Z.of_nat (length srow) = (1 + 2)%Z)
            scores (batch_labels trainer_small ([1%Z], [1%Z])).
Proof.
  apply (train_step_shapes dot_Z table_small params_wide corpus_line 2
           (new_generator table_small params_wide corpus_line) trainer_small
           [[1%Z]; [2%Z]] [[3%Z]; [4%Z]] widths_one unif_zero [[0; 7]%Z] ([1%Z], [1%Z])).
  - reflexivity.
  - reflexivity.
  - apply (bool_decide_unpack _). by vm_compute.
  - exists ("a", 3, 6)%Z. split; [right; left|reflexivity].
  - simpl. lia.
  - by vm_compute.
  - by vm_compute.
  - rewrite batches_line. left.
  - split; [reflexivity|]. repeat constructor; simpl; lia.
Defined.

(** ** [make_ns_table]: what the table holds *)

Lemma sumZ_snd_cons (x : string * Z) l : sumZ (x :: l).*2 = (x.2 + sumZ l.*2)%Z.
Proof. reflexivity. Qed.

Lemma sumZ_app l k : sumZ (l ++ k) = (sumZ l + sumZ k)%Z.
Proof.
  induction l as [|z l IH]; [done|].
  change (sumZ ((z :: l) ++ k)) with (z + sumZ (l ++ k))%Z.
  change (sumZ (z :: l)) with (z + sumZ l)%Z. lia.
Qed.

Lemma counter_incr_sum w f : sumZ (counter_incr w f).*2 = (sumZ f.*2 + 1)%Z.
Proof.
  induction f as [|[w' n] f IH]; [done|]. cbn [counter_incr].
  destruct (decide (w = w')); rewrite !sumZ_snd_cons; cbn [snd]; [lia|].
  rewrite IH. lia.
Qed.

Lemma counter_update_sum f ts :
  sumZ (counter_update f ts).*2 = (sumZ f.*2 + Z.of_nat (length ts))%Z.
Proof.
  unfold counter_update. revert f.
  induction ts as [|t ts IH]; intros f; cbn [foldl length]; [lia|].
  rewrite IH, counter_incr_sum. lia.
Qed.

Lemma corpus_freqs_sum p corpus :
  sumZ (corpus_freqs p corpus).*2 = Z.of_nat (length (corpus_tokens p corpus)).
Proof.
  unfold corpus_freqs, corpus_tokens.
  assert (∀ ls f,
    sumZ (foldl (λ freqs line, counter_update freqs (tokens_of_line p line)) f ls).*2
    = (sumZ f.*2 + Z.of_nat (length (concat (tokens_of_line p <$> ls))))%Z) as H.
  { induction ls as [|l ls IH]; intros f; cbn [foldl].
    - cbn. lia.
    - rewrite IH, counter_update_sum, fmap_cons, concat_cons, length_app. lia. }
  by rewrite H.
Qed.

Lemma freq_table_sum p corpus :
  sumZ (freq_table p corpus).*2 =
  (Z.of_nat (length (corpus_tokens p corpus)) +
   if decide (voc_size p - 1 < Z.of_nat (distinct_words p corpus))%Z then 0 else 1)%Z.
Proof.
  rewrite <- distinct_words_length, <- corpus_freqs_sum.
  rewrite <- (sumZ_perm _ _ (fmap_Permutation snd _ _ (sorted_desc_perm (corpus_freqs p corpus)))).
  unfold freq_table, freq_table_of. cbv zeta.
  set (sorted := sorted_desc (corpus_freqs p corpus)).
  rewrite sumZ_snd_cons. cbn [snd]. unfold slice_from, slice_to.
  set (k := slice_bound (voc_size p - 1) sorted).
  destruct (Z.gtb_spec (Z.of_nat (length sorted)) (voc_size p - 1)) as [Hgt|Hle].
  - rewrite decide_True by lia.
    assert (sumZ sorted.*2 = sumZ (take k sorted).*2 + sumZ (drop k sorted).*2)%Z
      as Hsplit.
    { rewrite <- (take_drop k sorted) at 1. by rewrite fmap_app, sumZ_app. }
    lia.
  - rewrite decide_False by lia.
    rewrite take_ge; [lia|]. unfold k. rewrite slice_bound_nonneg by lia. lia.
Qed.

Lemma make_ns_table_freqs p corpus :
  (λ e, (e_word e, e_freq e)) <$> make_ns_table p corpus = freq_table p corpus.
Proof.
  unfold make_ns_table, ns_slots. rewrite <- list_fmap_compose.
  etrans; [|apply list_fmap_id].
  apply list_fmap_ext. by intros i [w f] _.
Qed.

(** X18: the frequencies of the table [make_ns_table] builds add up to the
    number of tokens of the corpus when the size cap leaves a word out (the
    sentinel then stands for the words left out), and to one more when it
    leaves none out (the sentinel then counts 1). *)
Theorem make_ns_table_total_frequency p corpus :
  (1 ≤ voc_size p)%Z →
  sumZ (e_freq <$> make_ns_table p corpus) =
  (Z.of_nat (length (corpus_tokens p corpus)) +
   if decide (voc_size p - 1 < Z.of_nat (distinct_words p corpus))%Z then 0 else 1)%Z.
Proof.
  intros _. rewrite <- freq_table_sum, <- make_ns_table_freqs.
  by rewrite <- list_fmap_compose.
Qed.

(** X18, witness: six tokens, three distinct words, a vocabulary of two. *)
Lemma make_ns_table_total_frequency_witness :
  sumZ (e_freq <$> make_ns_table params_narrow "a b c a b a") =
  (Z.of_nat (length (corpus_tokens params_narrow "a b c a b a")) +
   if decide (voc_size params_narrow - 1
              < Z.of_nat (distinct_words params_narrow "a b c a b a"))%Z
   then 0 else 1)%Z.
Proof.
  apply (make_ns_table_total_frequency params_narrow "a b c a b a").
  simpl. lia.
Defined.

(** X19: for a corpus without tokens (an empty file, blank lines) and a
    vocabulary size of at least 1, the table [make_ns_table] returns has
    one entry: the sentinel, with frequency 1. *)
Theorem make_ns_table_empty_corpus p corpus :
  (1 ≤ voc_size p)%Z → corpus_tokens p corpus = [] →
  (λ e, (e_word e, e_freq e)) <$> make_ns_table p corpus = [(unk_str p, 1%Z)].
Proof.
  intros Hv Hts. rewrite make_ns_table_freqs.
  assert (corpus_freqs p corpus = []) as Hf.
  { apply nil_length_inv.
    rewrite (counter_ok_length _ _ (corpus_freqs_ok p corpus)), Hts. done. }
  unfold freq_table, freq_table_of. rewrite Hf. cbn [sorted_desc foldr length].
  destruct (Z.gtb_spec (Z.of_nat 0) (voc_size p - 1)); [lia|].
  unfold slice_to. by rewrite take_nil.
Qed.

(** X19, witness: a corpus of two blanks. *)
Lemma make_ns_table_empty_corpus_witness :
  (λ e, (e_word e, e_freq e)) <$> make_ns_table params_wide "  " = [("<UNKNOWN>", 1%Z)].
Proof.
  apply (make_ns_table_empty_corpus params_wide "  ").
  - simpl. lia.
  - reflexivity.
Defined.

Lemma lower_char_idem c : lower_char (lower_char c) = lower_char c.
Proof. destruct c as [[] [] [] [] [] [] [] []]; reflexivity. Qed.

Lemma lower_idem s : lower (lower s) = lower s.
Proof. induction s as [|c s IH]; [done|]. cbn. by rewrite lower_char_idem, IH. Qed.

Lemma lower_app s t : lower (s +:+ t) = lower s +:+ lower t.
Proof. induction s as [|c s IH]; [done|]. rewrite app_cons. cbn. by rewrite IH. Qed.

Lemma split_go_lower cur s :
  lower cur = cur → lower s = s → Forall (λ t, lower t = t) (split_go cur s).
Proof.
  revert cur. induction s as [|c s IH]; intros cur Hcur Hs; cbn [split_go].
  - apply Forall_emit; [done|constructor].
  - cbn [lower] in Hs. injection Hs as Hc Hs. destruct (is_space c).
    + apply Forall_emit; [done|]. by apply IH.
    + apply IH; [|done]. rewrite lower_app. cbn [lower]. by rewrite Hcur, Hc.
Qed.

Lemma corpus_tokens_lower p corpus :
  lowercase p = true → Forall (λ t, lower t = t) (corpus_tokens p corpus).
Proof.
  intros Hl. apply Forall_forall. intros t.
  unfold corpus_tokens. rewrite elem_of_concat.
  intros (ts & (line & -> & _)%list_elem_of_fmap & Ht).
  unfold tokens_of_line in Ht. rewrite Hl in Ht.
  pose proof (split_go_lower "" (lower line) eq_refl (lower_idem line)) as Hall.
  rewrite Forall_forall in Hall. by apply Hall.
Qed.

Lemma corpus_tokens_plain p corpus : Forall plain_word (corpus_tokens p corpus).
Proof.
  apply Forall_forall. intros t. unfold corpus_tokens. rewrite elem_of_concat.
  intros (ts & (line & -> & _)%list_elem_of_fmap & Ht).
  pose proof (split_plain (if lowercase p then lower line else line)) as Hall.
  rewrite Forall_forall in Hall. by apply Hall.
Qed.

(** The words after the sentinel are words of the corpus. *)
Lemma tail_freq_table_words p corpus w :
  (1 ≤ voc_size p)%Z → w ∈ (tail (freq_table p corpus)).*1 → w ∈ corpus_tokens p corpus.
Proof.
  intros Hv Hw. rewrite tail_freq_table in Hw by done.
  apply (counter_ok_keys _ _ _ (sorted_freqs_ok p corpus)).
  apply list_elem_of_fmap in Hw as (x & -> & Hx). apply list_elem_of_fmap_2.
  by eapply subseteq_take.
Qed.

Lemma make_ns_table_words p corpus :
  e_word <$> make_ns_table p corpus = (freq_table p corpus).*1.
Proof.
  unfold make_ns_table, ns_slots. rewrite <- list_fmap_compose.
  apply list_fmap_ext. by intros i [w f] _.
Qed.

(** X20: with lowercasing on, every word of the table after the sentinel is
    in lower case; hence, when the unknown string holds an upper-case letter
    (as the string [<UNKNOWN>] of [main] does), it is none of the words of
    the corpus and the words of the table are pairwise distinct. *)
Theorem lowercase_table_words p corpus :
  (1 ≤ voc_size p)%Z → lowercase p = true →
  Forall (λ w, lower w = w) (tail (e_word <$> make_ns_table p corpus)) ∧
  (lower (unk_str p) ≠ unk_str p → NoDup (e_word <$> make_ns_table p corpus)).
Proof.
  intros Hv Hl. rewrite make_ns_table_words.
  assert (Forall (λ w, lower w = w) (tail (freq_table p corpus).*1)) as Hlow.
  { apply Forall_forall. intros w Hw.
    pose proof (corpus_tokens_lower p corpus Hl) as Hall.
    rewrite Forall_forall in Hall. apply Hall.
    apply (tail_freq_table_words p corpus w Hv).
    by destruct (freq_table p corpus). }
  split; [done|]. intros Hunk. apply freq_table_NoDup; [done|].
  intros Hin. apply Hunk. rewrite Forall_forall in Hlow. apply Hlow.
  by destruct (freq_table p corpus).
Qed.

(** X20, witness: upper-case letters in the corpus, the sentinel
    [<UNKNOWN>]. *)
Lemma lowercase_table_words_witness :
  Forall (λ w, lower w = w) (tail (e_word <$> make_ns_table params_wide "A a B")) ∧
  (lower (unk_str params_wide) ≠ unk_str params_wide →
   NoDup (e_word <$> make_ns_table params_wide "A a B")).
Proof.
  apply (lowercase_table_words params_wide "A a B").
  - simpl. lia.
  - reflexivity.
Defined.

Lemma make_ns_table_plain p corpus :
  (1 ≤ voc_size p)%Z → plain_word (unk_str p) →
  Forall (λ e, plain_word (e_word e)) (make_ns_table p corpus).
Proof.
  intros Hv Hunk.
  assert (Forall plain_word (e_word <$> make_ns_table p corpus)) as H;
    [|by apply (proj1 (Forall_fmap e_word plain_word _)) in H].
  rewrite make_ns_table_words.
  assert ((freq_table p corpus).*1 = unk_str p :: (tail (freq_table p corpus)).*1) as ->
    by done.
  constructor; [done|]. apply Forall_forall. intros w Hw.
  pose proof (corpus_tokens_plain p corpus) as Hall. rewrite Forall_forall in Hall.
  by apply Hall, tail_freq_table_words.
Qed.

(** X21: the sampling table over two runs of [main].  When the table file
    does not exist, [main] builds the table and saves it; on a later run the
    file exists and [main] loads from it the very same table, whatever the
    corpus and the parameters are by then (the unknown string being a word
    without whitespace, the vocabulary size at least 1). *)
Theorem main_reloads_saved_table p corpus table file :
  (1 ≤ voc_size p)%Z → plain_word (unk_str p) →
  obtain_ns_table None p corpus = Some (table, file) →
  table = make_ns_table p corpus ∧
  ∀ p' corpus', obtain_ns_table (Some file) p' corpus' = Some (table, file).
Proof.
  intros Hv Hunk [= <- <-]. split; [done|]. intros p' corpus'.
  unfold obtain_ns_table. rewrite load_save; [done|]. by apply make_ns_table_plain.
Qed.

(** X21, witness: the corpus ["a a a"]. *)
Lemma main_reloads_saved_table_witness :
  make_ns_table params_wide corpus_line = make_ns_table params_wide corpus_line ∧
  ∀ p' corpus',
    obtain_ns_table (Some (save_ns_table (make_ns_table params_wide corpus_line)))
                    p' corpus'
    = Some (make_ns_table params_wide corpus_line,
            save_ns_table (make_ns_table params_wide corpus_line)).
Proof.
  apply (main_reloads_saved_table params_wide corpus_line).
  - simpl. lia.
  - by split.
  - reflexivity.
Defined.

(** X22: a table that [load_ns_table] has read from any file holds only
    words without whitespace, and saving it and loading it again gives the
    same table: what is loaded is a fixed point of save-then-load, even
    when the file itself was not in the form [save_ns_table] writes. *)
Theorem loaded_table_reloads file table :
  load_ns_table file = Some table →
  Forall (λ e, plain_word (e_word e)) table ∧
  load_ns_table (save_ns_table table) = Some table.
Proof.
  intros H. pose proof (load_ns_table_plain file table H) as Hp.
  split; [done|]. by apply load_save.
Qed.

(** X22, witness: a file with a leading zero, a doubled blank and a fourth
    field. *)
Lemma loaded_table_reloads_witness :
  Forall (λ e, plain_word (e_word e)) [("a", 1, 2)]%Z ∧
  load_ns_table (save_ns_table [("a", 1, 2)]%Z) = Some [("a", 1, 2)]%Z.
Proof.
  apply (loaded_table_reloads "a 01  2 x").
  by vm_compute.
Defined.

(** ** The unknown string as a word of the corpus *)

(** C10, the failing input: the corpus holds the unknown string itself
    (lowercasing off, a vocabulary of two).  In the table [make_ns_table]
    builds, that word stands twice, so the dictionary [voc] of line 104
    keeps one word with index 1 and [len(voc)], the number of rows of both
    embedding tables (line 196), is 1; the generator runs through and its
    batches hold the index 1, which is no row of a table of one row: the
    embedding lookup of [forward] raises on the first batch. *)
Theorem unknown_word_index_outside_vocabulary {T} (dot : list T → list T → T)
    (w c : list T) :
  make_ns_table params_narrow corpus_unknown = table_twice ∧
  ∃ g, init table_twice params_narrow corpus_unknown = Some g ∧
       vocabulary_size g = 1%Z ∧
       batches widths_one unif_zero g
       = ([([1%Z], [1%Z]); ([1%Z], [1%Z]); ([1%Z], [1%Z]); ([1%Z], [1%Z]);
           ([1%Z], [0%Z]); ([0%Z], [1%Z])], None) ∧
       ∀ ctx, forward dot (new_model [w] [c] (voc g)) [c] [1%Z] ctx = None.
Proof.
  split; [apply make_ns_table_unknown|].
  exists (new_generator table_twice params_narrow corpus_unknown).
  split_and!; [apply init_nonzero; by repeat constructor|by vm_compute| |done].
  unfold batches, run_batches.
  change (enumerate (readlines (corpus (new_generator table_twice params_narrow
                                                      corpus_unknown))))
    with [(0%Z, "<UNKNOWN> <UNKNOWN> <UNKNOWN> b")].
  cbn [for_each]. unfold process_line. cbn [fst snd].
  rewrite (encoded_line_unpruned table_twice params_narrow corpus_unknown)
    by first [apply init_nonzero; by repeat constructor
             |apply table_twice_frequent|vm_compute; lia].
  by vm_compute.
Qed.

(** ** The generator: the width of every target position *)

Lemma flat_pairs_snoc bs b : flat_pairs (bs ++ [b]) = flat_pairs bs ++ zip b.1 b.2.
Proof. unfold flat_pairs. rewrite fmap_app, concat_app. cbn. by rewrite app_nil_r. Qed.

Lemma zip_snoc {A B} (l : list A) (k : list B) x z :
  length l = length k → zip (l ++ [x]) (k ++ [z]) = zip l k ++ [(x, z)].
Proof. intros Hlen. by rewrite (zip_with_app pair _ [x] _ [z]). Qed.

Section schedule.
Variable rand_widths : nat → list Z.
Variable rand_unif : nat → list R.
Variable g : SGNSContextGenerator.
Hypothesis config :
  (g_batch_size g = 0 ∨ (1 < g_ctx_width g + 1 ∧ 0 ≤ g_batch_size g))%Z.

Lemma emit_pair_follows t c s cur acc :
  follows rand_widths s cur acc →
  ∃ s', emit_pair rand_widths g t c s = Ok tt s' ∧
        follows rand_widths s' (after_pair (g_batch_size g) cur) (acc ++ [(t, c)]).
Proof.
  intros (Hw & Hd & Hix & Hfill & Hlen & Hacc).
  unfold emit_pair, after_pair, draw_widths, mbind, gen_bind, gbind, get, put.
  rewrite length_app. cbn [length].
  case_bool_decide as H1.
  - rewrite (bool_decide_eq_true_2 _ config).
    rewrite (bool_decide_eq_true_2 (cur_fill cur + 1 = g_batch_size g)%Z) by lia.
    eexists. split; [reflexivity|].
    unfold follows.
    cbn [widths draws width_ix out_t out_c yielded cur_draw cur_ix cur_fill length].
    split_and!; [by rewrite Hd|by rewrite Hd|done|done|done|].
    rewrite flat_pairs_snoc. cbn [fst snd zip zip_with]. rewrite zip_snoc by done.
    by rewrite app_nil_r, app_assoc, Hacc.
  - rewrite (bool_decide_eq_false_2 (cur_fill cur + 1 = g_batch_size g)%Z) by lia.
    eexists. split; [reflexivity|].
    unfold follows.
    cbn [widths draws width_ix out_t out_c yielded cur_draw cur_ix cur_fill].
    split_and!; [done|done|done| | |].
    + rewrite length_app. cbn [length]. lia.
    + rewrite !length_app. cbn [length]. lia.
    + rewrite zip_snoc by done. by rewrite app_assoc, Hacc.
Qed.

(** The body of [for j in range(start, end)], for positions of the line. *)
Lemma pairs_follow encoded i js s cur acc :
  (0 ≤ i < Z.of_nat (length encoded))%Z →
  Forall (λ j, 0 ≤ j < Z.of_nat (length encoded))%Z js →
  follows rand_widths s cur acc →
  ∃ s',
    for_each js (λ j,
      if bool_decide (j ≠ i) then
        match getitem encoded i, getitem encoded j with
        | Some t, Some c => emit_pair rand_widths g t c
        | _, _ => raise IndexError
        end
      else gret tt) s = Ok tt s' ∧
    follows rand_widths s'
      (Nat.iter (length (omap (pair_at encoded i) js)) (after_pair (g_batch_size g)) cur)
      (acc ++ omap (pair_at encoded i) js).
Proof.
  intros Hi Hjs. revert s cur acc.
  match goal with |- context [for_each js ?f] => set (body := f) end.
  induction Hjs as [|j js Hj _ IH]; intros s cur acc Hs.
  - exists s. split; [done|]. cbn. by rewrite app_nil_r.
  - cbn [for_each omap list_omap]. unfold mbind at 1, gen_bind, gbind.
    unfold body at 1. destruct (decide (j = i)) as [->|Hne].
    + assert (pair_at encoded i i = None) as ->.
      { unfold pair_at. by rewrite bool_decide_eq_false_2 by (by intros []). }
      rewrite bool_decide_eq_false_2 by (by intros []). cbn [gret]. by apply IH.
    + destruct (lookup_lt_is_Some_2 encoded (Z.to_nat i)) as [t Ht]; [lia|].
      destruct (lookup_lt_is_Some_2 encoded (Z.to_nat j)) as [c Hc]; [lia|].
      assert (pair_at encoded i j = Some (t, c)) as ->.
      { unfold pair_at. by rewrite bool_decide_eq_true_2, Ht, Hc. }
      rewrite bool_decide_eq_true_2 by done.
      rewrite (getitem_nonneg encoded i), (getitem_nonneg encoded j), Ht, Hc by lia.
      destruct (emit_pair_follows t c s cur acc Hs) as (s1 & -> & Hs1).
      destruct (IH s1 _ _ Hs1) as (s' & Hrun & Hs').
      exists s'. split; [exact Hrun|].
      cbn [length]. rewrite Nat.iter_succ_r. rewrite <- app_assoc in Hs'. exact Hs'.
Qed.

(** One target position: it reads the entry of the cursor, and emits the
    pairs of its window for that width. *)
Lemma position_follows encoded i s cur acc :
  (0 ≤ i < Z.of_nat (length encoded))%Z →
  follows rand_widths s cur acc →
  match getitem (rand_widths (cur_draw cur)) (cur_ix cur) with
  | None => position rand_widths g encoded i s = Raised IndexError s
  | Some w =>
      ∃ s', position rand_widths g encoded i s = Ok tt s' ∧
            follows rand_widths s'
              (after_position (g_batch_size g) cur (length (window_pairs encoded i w)))
              (acc ++ window_pairs encoded i w)
  end.
Proof.
  intros Hi Hs. pose proof Hs as (Hw & Hd & Hix & Hfill & Hlen & Hacc).
  assert (getitem (widths s) (width_ix s)
          = getitem (rand_widths (cur_draw cur)) (cur_ix cur)) as Hget
    by (by rewrite Hw, Hix).
  destruct (getitem (rand_widths (cur_draw cur)) (cur_ix cur)) as [w|].
  2: { unfold position, mbind, gen_bind, gbind, get. by rewrite Hget. }
  unfold position. unfold mbind at 1, gen_bind, gbind, get. cbv beta iota.
  rewrite Hget. unfold mbind at 1, gen_bind, gbind, put. cbv zeta.
  unfold window_pairs, after_position.
  replace (Z.min (Z.of_nat (length encoded) - 1) (i + w) + 1)%Z
    with (Z.min (i + w + 1) (Z.of_nat (length encoded))) by lia.
  apply pairs_follow; [done| |].
  - apply Forall_forall. intros j Hj%elem_of_range. lia.
  - unfold follows.
    cbn [widths draws width_ix out_t out_c yielded cur_draw cur_ix cur_fill].
    split_and!; [done|done|by rewrite Hix|done|done|done].
Qed.

Lemma positions_track encoded (its : list (Z * Z)) s cur acc :
  Forall (λ it : Z * Z, 0 ≤ it.1 < Z.of_nat (length encoded))%Z its →
  follows rand_widths s cur acc →
  tracks rand_widths
    (for_each its (λ it, position rand_widths g encoded it.1) s)
    (scheduled (g_batch_size g) rand_widths cur
               ((λ it : Z * Z, (encoded, it.1)) <$> its))
    acc.
Proof.
  intros Hits. revert s cur acc.
  induction Hits as [|it its Hit _ IH]; intros s cur acc Hs.
  - exists s. split; [done|]. cbn. by rewrite app_nil_r.
  - cbn [for_each fmap list_fmap scheduled].
    pose proof (position_follows encoded it.1 s cur acc Hit Hs) as Hpos.
    unfold mbind, gen_bind, gbind.
    destruct (getitem (rand_widths (cur_draw cur)) (cur_ix cur)) as [w|].
    + destruct Hpos as (s1 & -> & Hs1). cbv zeta.
      specialize (IH s1 _ _ Hs1). unfold tracks in *. cbn [fst snd].
      rewrite app_assoc. exact IH.
    + rewrite Hpos. exists s. split; [done|]. cbn [fst snd].
      destruct Hs as (_ & _ & _ & _ & _ & <-). rewrite app_nil_r. by eexists.
Qed.

Lemma enumerate_positions_valid (encoded : list Z) :
  Forall (λ it : Z * Z, 0 ≤ it.1 < Z.of_nat (length encoded))%Z (enumerate encoded).
Proof.
  apply Forall_forall. intros [i t] [Hi Ht%lookup_lt_Some]%elem_of_enumerate.
  cbn. lia.
Qed.

(** One line: the positions of its pruned tokens. *)
Lemma process_line_tracks nl s cur acc :
  follows rand_widths s cur acc →
  tracks rand_widths
    (process_line rand_widths rand_unif g nl s)
    (scheduled (g_batch_size g) rand_widths cur
               (positions_of (encoded_line rand_unif g (Z.to_nat nl.1) nl.2)))
    acc.
Proof.
  intros Hs. unfold process_line, process_encoded, positions_of.
  unfold mbind at 1, gen_bind, gbind, get. cbv beta iota.
  unfold mbind at 1, gen_bind, gbind, put. cbv beta iota.
  apply positions_track; [apply enumerate_positions_valid|].
  destruct Hs as (?&?&?&?&?&?). by split_and!.
Qed.

Lemma scheduled_app bs cur p1 p2 :
  scheduled bs rand_widths cur (p1 ++ p2) =
  match (scheduled bs rand_widths cur p1).2 with
  | None => ((scheduled bs rand_widths cur p1).1, None)
  | Some c' => ((scheduled bs rand_widths cur p1).1 ++ (scheduled bs rand_widths c' p2).1,
                (scheduled bs rand_widths c' p2).2)
  end.
Proof.
  revert cur. induction p1 as [|[enc i] p1 IH]; intros cur.
  - cbn. by destruct (scheduled bs rand_widths cur p2).
  - cbn [app scheduled].
    destruct (getitem (rand_widths (cur_draw cur)) (cur_ix cur)) as [w|]; [|done].
    cbv zeta. rewrite IH. cbn [fst snd].
    destruct (scheduled bs rand_widths _ p1).2; cbn [fst snd]; [|done].
    by rewrite app_assoc.
Qed.

(** The loop over the lines. *)
Lemma lines_track (nls : list (Z * string)) s cur acc :
  follows rand_widths s cur acc →
  tracks rand_widths
    (for_each nls (process_line rand_widths rand_unif g) s)
    (scheduled (g_batch_size g) rand_widths cur
       (concat ((λ nl : Z * string,
                   positions_of (encoded_line rand_unif g (Z.to_nat nl.1) nl.2))
                  <$> nls)))
    acc.
Proof.
  revert s cur acc. induction nls as [|nl nls IH]; intros s cur acc Hs.
  - exists s. split; [done|]. cbn. by rewrite app_nil_r.
  - cbn [for_each]. rewrite fmap_cons, concat_cons, scheduled_app.
    pose proof (process_line_tracks nl s cur acc Hs) as Hline.
    unfold mbind, gen_bind, gbind. unfold tracks in Hline.
    destruct (scheduled (g_batch_size g) rand_widths cur
                (positions_of (encoded_line rand_unif g (Z.to_nat nl.1) nl.2)))
      as [r1 [c1|]]; cbn [fst snd] in *.
    + destruct Hline as (s1 & -> & Hs1). specialize (IH s1 _ _ Hs1).
      unfold tracks in *. cbn [fst snd]. rewrite app_assoc. exact IH.
    + destruct Hline as (s1 & -> & Hpre). exists s1. by split.
Qed.
End schedule.

Lemma elem_of_window_pairs encoded i w t c :
  (t, c) ∈ window_pairs encoded i w ↔
  ∃ j, j ≠ i ∧
       (Z.max 0 (i - w) ≤ j ≤ Z.min (Z.of_nat (length encoded) - 1) (i + w))%Z ∧
       encoded !! Z.to_nat i = Some t ∧ encoded !! Z.to_nat j = Some c.
Proof.
  unfold window_pairs. rewrite list_elem_of_omap. split.
  - intros (j & Hj%elem_of_range & Hp). unfold pair_at in Hp.
    case_bool_decide; [|done].
    destruct (encoded !! Z.to_nat i) as [t'|]; [|done].
    destruct (encoded !! Z.to_nat j) as [c'|] eqn:Hc; [|done].
    injection Hp as <- <-. exists j. split_and!; [done|lia|lia|done|done].
  - intros (j & Hne & Hj & Ht & Hc). exists j. split; [apply elem_of_range; lia|].
    unfold pair_at. by rewrite bool_decide_eq_true_2, Ht, Hc.
Qed.

(** C1 (amended): in every batch the two lists have the same length, and
    the pairs of the batches are, in order, the pairs the target positions
    of the pruned lines are to emit, each position [i] with the width [w]
    drawn for it: [(encoded[i], encoded[j])] for every [j ≠ i] with
    [max(0, i - w) <= j <= min(len - 1, i + w)], where [w] is the entry of
    the latest array of [np.random.randint] at the number of target
    positions visited since that array was drawn, a new array being drawn
    with every batch yielded.  The batches hold all these pairs when the
    generator ends without an exception, and the first of them otherwise.
    The two positions of a pair differ; the two vocabulary indices need
    not. *)
Theorem batches_pairs_in_window rand_widths rand_unif g :
  Forall (λ b, length b.1 = length b.2) (batches rand_widths rand_unif g).1 ∧
  flat_pairs (batches rand_widths rand_unif g).1
    `prefix_of` (scheduled_pairs rand_widths rand_unif g).1 ∧
  ((batches rand_widths rand_unif g).2 = None →
   flat_pairs (batches rand_widths rand_unif g).1
   = (scheduled_pairs rand_widths rand_unif g).1) ∧
  (∀ encoded i w t c,
     (t, c) ∈ window_pairs encoded i w ↔
     ∃ j, j ≠ i ∧
          (Z.max 0 (i - w) ≤ j ≤ Z.min (Z.of_nat (length encoded) - 1) (i + w))%Z ∧
          encoded !! Z.to_nat i = Some t ∧ encoded !! Z.to_nat j = Some c).
Proof.
  split.
  { eapply Forall_impl; [apply batches_pairs|]. intros [ts cs] Hb. by eapply Forall2_length. }
  assert (flat_pairs (batches rand_widths rand_unif g).1
            `prefix_of` (scheduled_pairs rand_widths rand_unif g).1 ∧
          ((batches rand_widths rand_unif g).2 = None →
           flat_pairs (batches rand_widths rand_unif g).1
           = (scheduled_pairs rand_widths rand_unif g).1)) as [H1 H2];
    [|split_and!; [done|done|apply elem_of_window_pairs]].
  destruct (decide (g_batch_size g = 0 ∨ (1 < g_ctx_width g + 1 ∧ 0 ≤ g_batch_size g))%Z)
    as [Hcfg|Hcfg].
  - set (s0 := {| widths := rand_widths 0; width_ix := 0; out_t := []; out_c := [];
                  yielded := []; draws := 1; word_count := 0 |}).
    assert (follows rand_widths s0 {| cur_draw := 0; cur_ix := 0; cur_fill := 0 |} [])
      as Hs0 by (by split_and!).
    pose proof (lines_track rand_widths rand_unif g Hcfg
                  (enumerate (readlines (corpus g))) s0 _ _ Hs0) as Htr.
    fold (scheduled_pairs rand_widths rand_unif g) in Htr.
    unfold batches, run_batches, draw_widths, mbind, gen_bind, gbind, get.
    rewrite (bool_decide_eq_true_2 _ Hcfg). cbn [put initial_state draws width_ix out_t
      out_c yielded word_count]. fold s0.
    unfold tracks in Htr.
    destruct (scheduled_pairs rand_widths rand_unif g) as [r [c'|]]; cbn [fst snd] in *.
    + destruct Htr as (s' & -> & (_ & _ & _ & _ & Hlen & Hacc)).
      unfold final_batch, mbind, gen_bind, gbind, get. cbn in Hacc.
      case_bool_decide as Hne; cbn [put gret fst snd yielded].
      * rewrite flat_pairs_snoc. cbn [fst snd]. by rewrite Hacc.
      * destruct (out_t s'); [|cbn in Hne; lia]. cbn in Hacc.
        rewrite app_nil_r in Hacc. by rewrite Hacc.
    + destruct Htr as (s' & -> & Hpre). cbn [fst snd]. by split.
  - assert (batches rand_widths rand_unif g = ([], Some ValueError)) as ->.
    { unfold batches, run_batches, mbind, gen_bind, gbind, draw_widths, get.
      by rewrite (bool_decide_eq_false_2 _ Hcfg). }
    cbn [fst snd]. split; [apply prefix_nil|done].
Qed.
